(** * Image triage and aggregation pipeline (wd_lambda, [src/index.ts])

    A shallow embedding of the Lambda handler of [src/index.ts], of its
    worker pool and of the worker it talks to ([worker.ts]: the [hash] and
    the [analyze] task), together with the properties of the classifier,
    the clusterer and the aggregator.

    Conventions of the embedding.
    - A JavaScript [number] is an exact rational ([Q]): comparisons are the
      ones of the code, sums and quotients carry no binary64 rounding error,
      and there is no NaN and no infinity.  Equalities between numbers are
      therefore stated with [==].  The two means of the aggregator are
      embedded a second time on binary64 numbers ([Binary64]), for the
      properties that the rounding of binary64 decides.
    - A JavaScript string is a [string] of 8-bit characters; [toLowerCase]
      acts on the letters [A]-[Z].
    - Arrays are lists, read by index with [!!] and written with [<[i:=x]>].
    - The outside world (HTTP fetches, the label-detection service, the
      digest primitive of the worker, the order in which asynchronous tasks
      complete, the random generator and the clock) is a record of oracles,
      [World], that the handler consults.  The digest is SHA-1 ([sha1]);
      the worlds of [world_sha1] compute it. *)

From Stdlib Require Import QArith Qround Lqa Qpower.
From Stdlib Require Import Ascii String Sorted.
From Stdlib Require Floats.Floats.
From Stdlib Require Uint63.
From stdpp Require Import base list strings.

Local Open Scope Q_scope.

(** ** Numbers *)

Abbreviation number := Q.

(** The comparisons [x < y] and [x >= y] as the code evaluates them. *)
Definition num_lt (x y : number) : bool := if Qlt_le_dec x y then true else false.
Definition num_ge (x y : number) : bool := negb (num_lt x y).

(** [Math.round]: the nearest integer, halves going up. *)
Definition Math_round (x : number) : number := inject_Z (Qfloor (x + (1 # 2))).

(** [Math.min] on two arguments. *)
Definition Math_min (x y : number) : number := if num_lt y x then y else x.

(** [+x.toFixed(d)]: the integer [n] for which [n / 10^d] is closest to
    [x], the larger one on a tie, taken on the absolute value of [x]; the
    sign is put back afterwards. *)
Definition toFixed (d : nat) (x : number) : number :=
  let p := inject_Z (10 ^ Z.of_nat d) in
  if num_lt x 0
  then - (inject_Z (Qfloor (- x * p + (1 # 2))) / p)
  else inject_Z (Qfloor (x * p + (1 # 2))) / p.

(** ** Strings *)

Definition lower_ascii (c : ascii) : ascii :=
  let n := nat_of_ascii c in
  if (65 <=? n)%nat && (n <=? 90)%nat then ascii_of_nat (n + 32) else c.

Fixpoint toLowerCase (s : string) : string :=
  match s with
  | EmptyString => EmptyString
  | String c s' => String (lower_ascii c) (toLowerCase s')
  end.

(** [s.includes(kw)] on strings: [kw] occurs somewhere in [s]. *)
Fixpoint str_includes (s kw : string) : bool :=
  String.prefix kw s ||
  match s with
  | EmptyString => false
  | String _ s' => str_includes s' kw
  end.

(** [arr.includes(x)] on an array of strings. *)
Definition arr_includes (arr : list string) (x : string) : bool :=
  existsb (String.eqb x) arr.

(** ** Classifier: [classifyDamage] *)

(** A Rekognition [Label]; both fields are optional in the SDK's type. *)
Record Label := mkLabel {
  Name : option string;
  Confidence : option number
}.

Definition damageKeywords : list string :=
  ["damage"; "shingle uplift"; "material detachment";
   "wind damage"; "hail damage"; "roof damage"]%string.

(** [damageKeywords.some(kw => name.includes(kw))]. *)
Definition hasDamageKeyword (name : string) : bool :=
  existsb (fun kw => str_includes name kw) damageKeywords.

(** The variables of [classifyDamage] that the loop updates. *)
Record ClsState := mkCls {
  st_blurry : bool;
  st_dark : bool;
  st_area : option string;
  st_damageLabels : list Label
}.

Definition cls_init : ClsState :=
  {| st_blurry := false; st_dark := false; st_area := None; st_damageLabels := [] |}.

(** [L.Name || ''] lowercased, and [L.Confidence || 0]. *)
Definition label_name (L : Label) : string :=
  toLowerCase (default EmptyString (Name L)).

Definition label_confidence (L : Label) : number :=
  default 0 (Confidence L).

(** One iteration of [for (const L of labels)]. *)
Definition cls_step (st : ClsState) (L : Label) : ClsState :=
  let name := label_name L in
  let confidence := label_confidence L in
  if num_lt confidence 50 then st
  else
    let blurry1 := if arr_includes ["blur"; "blurry"]%string name then true else st_blurry st in
    let dark1 := if arr_includes ["dark"; "shadow"]%string name then true else st_dark st in
    let area1 := if arr_includes ["roof"; "shingle"]%string name then Some "roof"%string else st_area st in
    let area2 := if arr_includes ["garage"; "door"]%string name then Some "garage"%string else area1 in
    let area3 := if arr_includes ["wall"; "siding"; "panel"]%string name then Some "siding"%string else area2 in
    let damage1 :=
      if hasDamageKeyword name
      then st_damageLabels st ++ [L] else st_damageLabels st in
    {| st_blurry := blurry1; st_dark := dark1; st_area := area3; st_damageLabels := damage1 |}.

Definition cls_loop (labels : list Label) : ClsState :=
  fold_left cls_step labels cls_init.

(** The object returned by [classifyDamage]. *)
Inductive Classification :=
| Discard
| Keep (area : string) (severity : number) (qualityScore : number).

(** [damageLabels.reduce((sum, l) => sum + (l.Confidence || 0), 0)]. *)
Definition sumConfidence (ls : list Label) : number :=
  fold_left (fun sum l => sum + label_confidence l) ls 0.

(** [classifyDamage].  The test [!area] holds exactly when [area] is still
    [null]: the strings assigned to it are not empty. *)
Definition classifyDamage (labels : list Label) : Classification :=
  let st := cls_loop labels in
  if bool_decide (st_area st = None) && (length (st_damageLabels st) =? 0)%nat
  then Discard
  else
    let n := length (st_damageLabels st) in
    let avgConfidence :=
      sumConfidence (st_damageLabels st) /
      inject_Z (Z.of_nat (if (n =? 0)%nat then 1%nat else n)) in
    let severity := Math_min 4 (Math_round (avgConfidence / 25)) in
    let qualityScore := if st_blurry st || st_dark st then (6 # 10) else 1 in
    Keep (default "unknown"%string (st_area st)) severity qualityScore.

(** ** Clusterer: [groupByHash] *)

Record ImageAnalysisResult := mkImage {
  url : string;
  area : string;
  severity : number;
  quality : number;
  hash : string
}.

(** [hammingDistance]: the loop runs over the positions of [a]; a position
    past the end of [b] reads [undefined] there and counts as a
    difference. *)
Definition hammingDistance (a b : string) : nat :=
  fold_left
    (fun dist i => if bool_decide (String.get i a = String.get i b) then dist else S dist)
    (seq 0 (String.length a)) 0%nat.

(** The inner loop [for (let j = i + 1; ...)], on the pair
    ([group], [visited]). *)
Definition group_inner (images : list ImageAnalysisResult) (i : nat)
    (st : list ImageAnalysisResult * list bool) (j : nat)
  : list ImageAnalysisResult * list bool :=
  match images !! i, images !! j, st.2 !! j with
  | Some xi, Some xj, Some vj =>
      if negb vj && (hammingDistance (hash xi) (hash xj) <=? 3)%nat
      then (st.1 ++ [xj], <[j:=true]> (st.2))
      else st
  | _, _, _ => st
  end.

(** The outer loop [for (let i = 0; ...)], on the pair ([groups],
    [visited]). *)
Definition group_outer (images : list ImageAnalysisResult)
    (st : list (list ImageAnalysisResult) * list bool) (i : nat)
  : list (list ImageAnalysisResult) * list bool :=
  match st.2 !! i, images !! i with
  | Some false, Some xi =>
      let r := fold_left (group_inner images i)
                 (seq (i + 1) (length images - (i + 1)))
                 ([xi], <[i:=true]> (st.2)) in
      (st.1 ++ [r.1], r.2)
  | _, _ => st
  end.

Definition groupByHash (images : list ImageAnalysisResult)
  : list (list ImageAnalysisResult) :=
  (fold_left (group_outer images) (seq 0 (length images))
     ([], replicate (length images) false)).1.

(** ** Representative selection *)

(** [Array.prototype.sort] with a comparator: a stable sort (ECMAScript
    2019), here by insertion.  [x] moves past [y] only when the comparator
    puts [y] strictly first, [cmp x y > 0]. *)
Fixpoint sort_insert {A} (cmp : A -> A -> number) (x : A) (l : list A) : list A :=
  match l with
  | [] => [x]
  | y :: l' => if num_lt 0 (cmp x y) then y :: sort_insert cmp x l' else x :: l
  end.

Definition array_sort {A} (cmp : A -> A -> number) (l : list A) : list A :=
  foldr (sort_insert cmp) [] l.

(** The comparator [(a, b) => b.quality - a.quality]. *)
Definition by_quality (a b : ImageAnalysisResult) : number := quality b - quality a.

(** [g.sort((a, b) => b.quality - a.quality)[0]]; [None] stands for the
    [undefined] read from an empty array. *)
Definition representative (g : list ImageAnalysisResult) : option ImageAnalysisResult :=
  head (array_sort by_quality g).

Definition bestImagesOf (groups : list (list ImageAnalysisResult))
  : list ImageAnalysisResult :=
  omap representative groups.

(** ** Aggregator *)

Record AreaResult := mkArea {
  ar_area : string;
  damage_confirmed : bool;
  avg_severity : number;
  primary_peril : string;
  representative_images : list string;
  notes : string
}.

(** [(areaMap[img.area] ||= []).push(img)] on an object whose keys keep
    their insertion order. *)
Fixpoint areaMap_push (m : list (string * list ImageAnalysisResult))
    (img : ImageAnalysisResult) : list (string * list ImageAnalysisResult) :=
  match m with
  | [] => [(area img, [img])]
  | (k, imgs) :: m' =>
      if String.eqb k (area img) then (k, imgs ++ [img]) :: m'
      else (k, imgs) :: areaMap_push m' img
  end.

Definition areaMapOf (bestImages : list ImageAnalysisResult)
  : list (string * list ImageAnalysisResult) :=
  fold_left areaMap_push bestImages [].

Definition totalWeightOf (imgs : list ImageAnalysisResult) : number :=
  fold_left (fun sum i => sum + quality i) imgs 0.

Definition weightedSumOf (imgs : list ImageAnalysisResult) : number :=
  fold_left (fun sum i => sum + severity i * quality i) imgs 0.

(** The callback of [Object.entries(areaMap).map].  The quotient by a zero
    [totalWeight] (NaN in the code) does not arise: every quality is [0.6]
    or [1]. *)
Definition areaResult (loss_type : string)
    (entry : string * list ImageAnalysisResult) : AreaResult :=
  let imgs := entry.2 in
  let totalWeight := totalWeightOf imgs in
  let avgSeverity := weightedSumOf imgs / totalWeight in
  let confirmed :=
    (2 <=? length (List.filter (fun i => num_ge (severity i) 2%Q) imgs))%nat in
  {| ar_area := entry.1;
     damage_confirmed := confirmed;
     avg_severity := toFixed 1 avgSeverity;
     primary_peril := loss_type;
     representative_images := take 3 (map url imgs);
     notes := if num_lt (5 # 2) avgSeverity
              then "Shingle uplift or material detachment"%string
              else "Minor cosmetic or no visible damage"%string |}.

Definition finalAreasOf (loss_type : string) (bestImages : list ImageAnalysisResult)
  : list AreaResult :=
  map (areaResult loss_type) (areaMapOf bestImages).

Definition overallSeverityOf (bestImages : list ImageAnalysisResult) : number :=
  if (length bestImages =? 0)%nat then 0
  else toFixed 1 (weightedSumOf bestImages / totalWeightOf bestImages).

(** ** Aggregator: the two means on binary64 numbers *)

(** The sums and the quotient of the aggregator once more, this time on
    the binary64 numbers of the code: every [+], [*] and [/] rounds to the
    nearest binary64 number, and [0.6] is not one.  The rounding can move
    the mean across a tie of [toFixed(1)] or across the threshold 2.5 of
    the note, so that [avg_severity], [notes] and [overallSeverity] are the
    ones of the code here, and the ones of [areaResult] and
    [overallSeverityOf] above only where the rounding does not decide. *)
Module Binary64.
Import PrimFloat.

(** The binary64 number that an integer or a decimal of the embedding
    stands for: numerator by denominator, rounded once.  For the
    severities and qualities of the classifier both are far below
    [2 ^ 53] and the result is the number the code holds: [0.6] becomes
    the binary64 number next to 6/10. *)
Definition of_Z (z : Z) : float :=
  match z with
  | Z0 => 0%float
  | Zpos p => of_uint63 (Uint63.of_Z (Zpos p))
  | Zneg p => (- of_uint63 (Uint63.of_Z (Zpos p)))%float
  end.

Definition of_number (x : number) : float :=
  (of_Z (Qnum x) / of_Z (Zpos (Qden x)))%float.

(** The rational that a finite binary64 number is; there is none for NaN
    and the infinities. *)
Definition value (x : float) : option number :=
  match FloatOps.Prim2SF x with
  | SpecFloat.S754_zero _ => Some 0
  | SpecFloat.S754_finite s m e =>
      Some (Qred ((if s then - inject_Z (Zpos m) else inject_Z (Zpos m)) * 2 ^ e))
  | _ => None
  end.

Definition totalWeight (imgs : list ImageAnalysisResult) : float :=
  fold_left (fun sum i => (sum + of_number (quality i))%float) imgs 0%float.

Definition weightedSum (imgs : list ImageAnalysisResult) : float :=
  fold_left (fun sum i => (sum + of_number (severity i) * of_number (quality i))%float)
            imgs 0%float.

(** [avgSeverity] of the callback that builds an area entry. *)
Definition avgSeverity (imgs : list ImageAnalysisResult) : float :=
  (weightedSum imgs / totalWeight imgs)%float.

(** [+x.toFixed(d)]: [toFixed] works on the exact value of the binary64
    number [x]; the result is kept as the decimal it prints.  [None] stands
    for NaN, which [JSON.stringify] writes as [null]. *)
Definition toFixed64 (d : nat) (x : float) : option number :=
  option_map (toFixed d) (value x).

(** The fields [avg_severity] and [notes] of an area entry. *)
Definition avg_severity64 (imgs : list ImageAnalysisResult) : option number :=
  toFixed64 1 (avgSeverity imgs).

Definition notes64 (imgs : list ImageAnalysisResult) : string :=
  if (2.5 <? avgSeverity imgs)%float
  then "Shingle uplift or material detachment"
  else "Minor cosmetic or no visible damage".

(** [overallSeverity]. *)
Definition overallSeverity (bestImages : list ImageAnalysisResult) : option number :=
  if (length bestImages =? 0)%nat then Some 0
  else toFixed64 1 (weightedSum bestImages / totalWeight bestImages)%float.

(** The weighted mean in the words of the specification, the sum of the
    products by the sum of the weights, each sum taken from the left. *)
Definition sum64 (l : list float) : float :=
  fold_left (fun sum x => (sum + x)%float) l 0%float.

Definition weightedMean64 (imgs : list ImageAnalysisResult) : float :=
  (sum64 (map (fun i => of_number (severity i) * of_number (quality i)) imgs) /
   sum64 (map (fun i => of_number (quality i)) imgs))%float.

End Binary64.

(** ** The outside world *)

Definition Buffer := list Byte.byte.

Inductive result (A : Type) :=
| Ok (a : A)
| Err (msg : string).
Arguments Ok {A} a.
Arguments Err {A} msg.

(** A fetched image, an element of [validImages].  [f_pos] is the position
    of the URL in the request; the code has no such field, the embedding
    uses it to ask the oracles about this very image. *)
Record Fetched := mkFetched {
  f_pos : nat;
  f_url : string;
  f_buffer : Buffer
}.

Record World := mkWorld {
  (** [fetch(url)] for the image at a position, at a given attempt: the
      body of an ok response, or [None] when the transport fails or the
      status is not a success. *)
  http_fetch : nat -> string -> nat -> option Buffer;
  (** [client.send(new DetectLabelsCommand(..))]: [None] when the call
      rejects, otherwise the [Labels] field of the reply, itself optional. *)
  detectLabels : nat -> Buffer -> option (option (list Label));
  (** [createHash('sha1').update(buffer).digest('hex')] in the worker:
      [None] when it throws (with a non-empty message). *)
  sha1_hex : Buffer -> option string;
  (** The order in which the tasks of the second phase reach their last
      synchronous step. *)
  completion : list Fetched -> list Fetched;
  (** [Math.random()] and [new Date().toISOString()]. *)
  random : number;
  now : string
}.

(** A completion order runs every task once. *)
Definition fair (w : World) : Prop :=
  forall l, Permutation (completion w l) l.

(** ** Fetcher: [fetchWithRetry] *)

(** The loop [for (let i = 0; i < retries; i++)], with [n] iterations
    left.  The delay between two attempts is not modelled. *)
Fixpoint fetch_loop (attempt : nat -> option Buffer) (retries i n : nat)
  : result Buffer :=
  match n with
  | O => Err "Unreachable"
  | S n' =>
      match attempt i with
      | Some b => Ok b
      | None =>
          if (i =? retries - 1)%nat then Err "Fetch failed"
          else fetch_loop attempt retries (S i) n'
      end
  end.

Definition fetchWithRetry (w : World) (pos : nat) (u : string) : result Buffer :=
  let retries := 3%nat in
  fetch_loop (http_fetch w pos u) retries 0 retries.

(** ** Worker: the [hash] task *)

(** [hashBuffer] of the worker: the first 16 characters of the digest. *)
Definition hashBuffer (w : World) (buffer : Buffer) : result string :=
  match sha1_hex w buffer with
  | Some d => Ok (String.substring 0 16 d)
  | None => Err "digest failed"
  end.

(** The reply posted by the worker for a [hash] task.  The [taskId] that
    pairs a reply with its caller is left out: the choice of the worker and
    the task counter do not influence the reply. *)
Inductive WorkerMsg :=
| MsgHash (h : string)
| MsgError (error : string).

Definition worker_onmessage (w : World) (buffer : Buffer) : WorkerMsg :=
  match hashBuffer w buffer with
  | Ok h => MsgHash h
  | Err e => MsgError e
  end.

(** [runTask('hash', buffer)] as seen by its caller: the promise resolves
    with the reply of the worker, or rejects with its error. *)
Definition runTask_hash (w : World) (buffer : Buffer) : result string :=
  match worker_onmessage w buffer with
  | MsgHash h => Ok h
  | MsgError e => Err e
  end.

(** ** The digest of the worker: SHA-1 *)

(** [createHash('sha1').update(buffer).digest('hex')] is the SHA-1 of
    FIPS 180-4 over the bytes of the buffer, written with 40 lowercase
    hexadecimal digits.  Words are 32-bit numbers in [Z].  The oracle
    [sha1_hex] of a world stands for this function when it does not
    fail. *)
Definition sha1_w32 (x : Z) : Z := (x mod 2 ^ 32)%Z.

Definition sha1_rotl (n x : Z) : Z :=
  sha1_w32 (Z.lor (Z.shiftl x n) (Z.shiftr x (32 - n))).

(** The message, the byte [0x80], zero bytes up to 56 modulo 64, and the
    length in bits on eight bytes. *)
Definition sha1_pad (msg : list Z) : list Z :=
  let l := Z.of_nat (length msg) in
  msg ++ [128%Z] ++ replicate (Z.to_nat ((55 - l) mod 64)) 0%Z ++
  map (fun i => (Z.shiftr (8 * l) (8 * i) mod 256)%Z) [7; 6; 5; 4; 3; 2; 1; 0]%Z.

(** Big-endian words of four bytes. *)
Fixpoint sha1_words (bytes : list Z) : list Z :=
  match bytes with
  | a :: b :: c :: d :: rest =>
      (a * 2 ^ 24 + b * 2 ^ 16 + c * 2 ^ 8 + d)%Z :: sha1_words rest
  | _ => []
  end.

(** The message schedule: the 16 words of a block extended to 80. *)
Definition sha1_schedule (block : list Z) : list Z :=
  fold_left
    (fun w t =>
       let x i := default 0%Z (w !! (t - i)%nat) in
       w ++ [sha1_rotl 1 (Z.lxor (Z.lxor (x 3%nat) (x 8%nat)) (Z.lxor (x 14%nat) (x 16%nat)))])
    (seq 16 64) block.

Definition sha1_f (t : nat) (b c d : Z) : Z :=
  if (t <? 20)%nat then Z.lor (Z.land b c) (Z.land (Z.lxor b (2 ^ 32 - 1)) d)
  else if (t <? 40)%nat then Z.lxor (Z.lxor b c) d
  else if (t <? 60)%nat then Z.lor (Z.lor (Z.land b c) (Z.land b d)) (Z.land c d)
  else Z.lxor (Z.lxor b c) d.

Definition sha1_k (t : nat) : Z :=
  if (t <? 20)%nat then 0x5a827999%Z
  else if (t <? 40)%nat then 0x6ed9eba1%Z
  else if (t <? 60)%nat then 0x8f1bbcdc%Z
  else 0xca62c1d6%Z.

Definition sha1_round (w : list Z) (st : Z * Z * Z * Z * Z) (t : nat)
  : Z * Z * Z * Z * Z :=
  let '(a, b, c, d, e) := st in
  let temp :=
    sha1_w32 (sha1_rotl 5 a + sha1_f t b c d + e + sha1_k t + default 0%Z (w !! t)) in
  (temp, a, sha1_rotl 30 b, c, d).

Definition sha1_block (h : Z * Z * Z * Z * Z) (block : list Z) : Z * Z * Z * Z * Z :=
  let '(h0, h1, h2, h3, h4) := h in
  let '(a, b, c, d, e) := fold_left (sha1_round (sha1_schedule block)) (seq 0 80) h in
  (sha1_w32 (h0 + a), sha1_w32 (h1 + b), sha1_w32 (h2 + c), sha1_w32 (h3 + d),
   sha1_w32 (h4 + e)).

Fixpoint sha1_blocks (n : nat) (h : Z * Z * Z * Z * Z) (words : list Z)
  : Z * Z * Z * Z * Z :=
  match n with
  | O => h
  | S n' => sha1_blocks n' (sha1_block h (take 16 words)) (drop 16 words)
  end.

Definition hex_digit (n : Z) : ascii :=
  if (n <? 10)%Z then ascii_of_nat (48 + Z.to_nat n) else ascii_of_nat (87 + Z.to_nat n).

Definition hex_word (x : Z) : string :=
  fold_right (fun i s => String (hex_digit (Z.shiftr x (4 * i) mod 16)) s) EmptyString
             [7; 6; 5; 4; 3; 2; 1; 0]%Z.

Definition sha1 (buffer : Buffer) : string :=
  let words := sha1_words (sha1_pad (map (fun b => Z.of_N (Byte.to_N b)) buffer)) in
  let '(h0, h1, h2, h3, h4) :=
    sha1_blocks (length words / 16)
      (0x67452301, 0xefcdab89, 0x98badcfe, 0x10325476, 0xc3d2e1f0)%Z words in
  (hex_word h0 +:+ hex_word h1 +:+ hex_word h2 +:+ hex_word h3 +:+ hex_word h4)%string.

(** ** Worker: the [analyze] task *)

(** [Jimp.read], [resize] and [greyscale] belong to the image library; the
    embedding of [analyze] starts from the bitmap they hand over.  The
    sums of the loops are sums of integers and are kept in [Z]. *)
Definition laplacianKernel : list Z := [0; 1; 0; 1; -4; 1; 0; 1; 0]%Z.

(** [image.bitmap] after [resize] and [greyscale]: the dimensions and the
    RGBA bytes. *)
Record Bitmap := mkBitmap {
  bm_width : Z;
  bm_height : Z;
  bm_data : list Z
}.

(** The result of [<<] is a 32-bit signed integer. *)
Definition to_int32 (v : Z) : Z := ((v + 2 ^ 31) mod 2 ^ 32 - 2 ^ 31)%Z.

(** [getGray].  A read outside [data] ([undefined] in the code) does not
    occur for a bitmap that holds four bytes per pixel; the embedding reads
    0 there. *)
Definition getGray (bm : Bitmap) (x y : Z) : Z :=
  if ((x <? 0) || (y <? 0) || (x >=? bm_width bm) || (y >=? bm_height bm))%Z then 0%Z
  else
    let idx := to_int32 (Z.shiftl (y * bm_width bm + x) 2) in
    if (idx <? 0)%Z then 0%Z else default 0%Z (bm_data bm !! Z.to_nat idx).

(** The two inner loops over [ky] and [kx]. *)
Definition conv_at (bm : Bitmap) (x y : Z) : Z :=
  fold_left
    (fun conv ky =>
       fold_left
         (fun conv kx =>
            let k := default 0%Z (laplacianKernel !! Z.to_nat ((ky + 1) * 3 + (kx + 1))) in
            (conv + getGray bm (x + kx) (y + ky) * k)%Z)
         [-1; 0; 1]%Z conv)
    [-1; 0; 1]%Z 0%Z.

(** The accumulators of the loops: [sumGray], [lapSum], [lapSumSq] and
    [count]. *)
Record AnalyzeAcc := mkAnalyze {
  sumGray : Z;
  lapSum : Z;
  lapSumSq : Z;
  lapCount : Z
}.

(** The body of the loop over [x]. *)
Definition analyze_pixel (bm : Bitmap) (y : Z) (acc : AnalyzeAcc) (x : Z) : AnalyzeAcc :=
  let g := getGray bm x y in
  let sum1 := (sumGray acc + g)%Z in
  if ((0 <? x) && (0 <? y) && (x <? bm_width bm - 1) && (y <? bm_height bm - 1))%Z
  then
    let conv := conv_at bm x y in
    mkAnalyze sum1 (lapSum acc + conv) (lapSumSq acc + conv * conv) (lapCount acc + 1)
  else mkAnalyze sum1 (lapSum acc) (lapSumSq acc) (lapCount acc).

(** The indices [0, 1, .., n - 1] of a loop [for (let i = 0; i < n; i++)]. *)
Definition upto (n : Z) : list Z := map Z.of_nat (seq 0 (Z.to_nat n)).

(** The loops over [y] and [x]. *)
Definition analyze_loops (bm : Bitmap) : AnalyzeAcc :=
  fold_left
    (fun acc y => fold_left (analyze_pixel bm y) (upto (bm_width bm)) acc)
    (upto (bm_height bm)) (mkAnalyze 0 0 0 0).

(** [analyze] on the bitmap: the pair of [brightness] and [sharpness]. *)
Definition analyze_bitmap (bm : Bitmap) : Q * Q :=
  let acc := analyze_loops bm in
  let brightness := inject_Z (sumGray acc) / inject_Z (bm_width bm * bm_height bm) in
  let meanLap := inject_Z (lapSum acc) / inject_Z (lapCount acc) in
  let variance := inject_Z (lapSumSq acc) / inject_Z (lapCount acc) - meanLap * meanLap in
  (brightness, variance).

(** ** Worker pool: [runTask] *)

Definition WORKER_COUNT : nat := 2.

(** The module-level state of the pool: [nextWorker], [taskCounter], and
    the ['message'] listeners that are registered, each with the index of
    its worker and the [taskId] it waits for. *)
Record Pool := mkPool {
  nextWorker : nat;
  taskCounter : nat;
  listeners : list (nat * nat)
}.

Definition pool_init : Pool := mkPool 0 0 [].

(** The synchronous part of [runTask]: the task gets the next id and the
    worker at [nextWorker], the index moves on, the listener is registered
    and the message is posted.  The result is the pair of the worker and
    the [taskId]. *)
Definition runTask_submit (p : Pool) : (nat * nat) * Pool :=
  let taskId := S (taskCounter p) in
  let worker := nextWorker p in
  ((worker, taskId),
   mkPool ((nextWorker p + 1) mod WORKER_COUNT) taskId (listeners p ++ [(worker, taskId)])).

(** A ['message'] event of worker [wk] that carries [msgId]: every listener
    of that worker whose [taskId] matches removes itself and settles its
    promise; the others return without effect.  The result lists the tasks
    that are settled. *)
Definition waits_for (wk msgId : nat) (l : nat * nat) : bool :=
  (l.1 =? wk)%nat && (l.2 =? msgId)%nat.

Definition on_message (p : Pool) (wk msgId : nat) : list nat * Pool :=
  (map snd (List.filter (waits_for wk msgId) (listeners p)),
   mkPool (nextWorker p) (taskCounter p)
          (List.filter (fun l => negb (waits_for wk msgId l)) (listeners p))).

(** ** Handler *)

(** The accumulators that the callbacks of the handler update. *)
Record Acc := mkAcc {
  photoData : list ImageAnalysisResult;
  analyzed : nat;
  discarded : nat
}.

(** Phase 1, one URL: [limitIO(async () => { try .. catch { discarded++ } })].
    The array [qualityResults] is in request order whatever the completion
    order, and [discarded++] commutes, so the phase is run in request
    order. *)
Definition fetch_step (w : World) (st : Acc * list (option Fetched))
    (pu : nat * string) : Acc * list (option Fetched) :=
  match fetchWithRetry w pu.1 pu.2 with
  | Ok buffer => (st.1, st.2 ++ [Some (mkFetched pu.1 pu.2 buffer)])
  | Err _ =>
      (mkAcc (photoData st.1) (analyzed st.1) (S (discarded st.1)), st.2 ++ [None])
  end.

(** Phase 2, one image: classification, hashing, and the update of the
    accumulators. *)
Definition classify_step (w : World) (st : Acc) (f : Fetched) : Acc :=
  let discard := mkAcc (photoData st) (analyzed st) (S (discarded st)) in
  match detectLabels w (f_pos f) (f_buffer f) with
  | None => discard
  | Some Labels =>
      match classifyDamage (default [] Labels) with
      | Discard => discard
      | Keep a sev q =>
          match runTask_hash w (f_buffer f) with
          | Err _ => discard
          | Ok h =>
              mkAcc (photoData st ++ [mkImage (f_url f) a sev q h])
                    (S (analyzed st)) (discarded st)
          end
      end
  end.

Record SourceImages := mkSource {
  total : nat;
  src_analyzed : nat;
  src_discarded : nat;
  clusters : nat
}.

Record ResponseBody := mkBody {
  claim_id : string;
  source_images : SourceImages;
  overall_damage_severity : number;
  areas : list AreaResult;
  data_gaps : list string;
  confidence : number;
  generated_at : string
}.

Record Response := mkResponse {
  statusCode : nat;
  body : ResponseBody
}.

(** The request body after [JSON.parse]; [images] is [None] when the field
    is absent or is not an array. *)
Record Request := mkRequest {
  req_claim_id : string;
  images : option (list string);
  req_loss_type : string
}.

(** The two phases that fill the accumulators: 1) the fetches, whose
    results [qualityResults] are filtered into [validImages]; 2) label
    detection, classification and hashing of every valid image, in the
    order of completion. *)
Definition run_phases (w : World) (imgs : list string) : Acc :=
  let st0 := mkAcc [] 0 0 in
  let r1 := fold_left (fetch_step w) (imap pair imgs) (st0, []) in
  let validImages := omap id r1.2 in
  fold_left (classify_step w) (completion w validImages) r1.1.

Definition handler (w : World) (req : Request) : result Response :=
  match images req with
  | None => Err "TypeError: images.map is not a function"
  | Some imgs =>
      (* 1) fetch, 2) Rekognition + classification + hash *)
      let st2 := run_phases w imgs in
      (* 3) clusters and their best image *)
      let groups := groupByHash (photoData st2) in
      let bestImages := bestImagesOf groups in
      (* 4) aggregation per area, 5) overall severity *)
      let finalAreas := finalAreasOf (req_loss_type req) bestImages in
      let overallSeverity := overallSeverityOf bestImages in
      Ok {| statusCode := 200;
            body :=
              {| claim_id := req_claim_id req;
                 source_images :=
                   {| total := length imgs;
                      src_analyzed := analyzed st2;
                      src_discarded := discarded st2;
                      clusters := length groups |};
                 overall_damage_severity := overallSeverity;
                 areas := finalAreas;
                 data_gaps :=
                   if (analyzed st2 <? 3)%nat then ["Very few usable images"%string] else [];
                 confidence := toFixed 2 (random w * ((95 # 100) - (7 # 10)) + (7 # 10));
                 generated_at := now w |} |}
  end.

(** * The vocabulary of the specification

    The definitions of this part follow the words of the specification;
    the theorems of the last part compare them with the embedding above. *)

(** ** Classification *)

(** A label passes when its confidence is at least 50; a name indicates an
    area through one of the three indicator sets; a label is damage
    evidence when it passes and its name contains a damage keyword. *)
Definition passes (L : Label) : bool := num_ge (label_confidence L) 50.

Definition areaIndicator (name : string) : option string :=
  if arr_includes ["roof"; "shingle"]%string name then Some "roof"%string
  else if arr_includes ["garage"; "door"]%string name then Some "garage"%string
  else if arr_includes ["wall"; "siding"; "panel"]%string name then Some "siding"%string
  else None.

Definition area_of_label (L : Label) : option string :=
  if passes L then areaIndicator (label_name L) else None.

Definition isDamageEvidence (L : Label) : bool :=
  passes L && hasDamageKeyword (label_name L).

Definition damageEvidence (labels : list Label) : list Label :=
  List.filter isDamageEvidence labels.

(** The average of the specification: the sum of the confidences of the
    evidence divided by their number, and 0 when there is none. *)
Definition sumOf (ev : list Label) : number :=
  foldr (fun l acc => label_confidence l + acc) 0 ev.

Definition averageConfidence (ev : list Label) : number :=
  match ev with
  | [] => 0
  | _ => sumOf ev / inject_Z (Z.of_nat (length ev))
  end.

(** ** Clustering *)

(** [x] is within distance 3 of [seed]. *)
Definition close (seed x : ImageAnalysisResult) : bool :=
  (hammingDistance (hash seed) (hash x) <=? 3)%nat.

(** The greedy clustering of the specification: the first record seeds a
    cluster that takes every later record within distance 3 of the seed;
    the records left over are clustered in the same way.  [fuel] bounds the
    number of clusters; the length of the list is enough. *)
Fixpoint greedy (fuel : nat) (l : list ImageAnalysisResult)
  : list (list ImageAnalysisResult) :=
  match fuel, l with
  | S fuel', seed :: rest =>
      (seed :: List.filter (close seed) rest)
      :: greedy fuel' (List.filter (fun x => negb (close seed x)) rest)
  | _, _ => []
  end.

Definition greedyClusters (l : list ImageAnalysisResult) := greedy (length l) l.

(** A cluster is its seed followed by records of the input that are within
    distance 3 of the seed. *)
Definition seeded (images : list ImageAnalysisResult) (g : list ImageAnalysisResult) : Prop :=
  exists seed rest,
    g = seed :: rest /\ seed ∈ images /\
    Forall (fun r => r ∈ images /\ (hammingDistance (hash seed) (hash r) <= 3)%nat) rest.

(** The record at position [j] when the loops have not yet put it in a
    cluster, and the list of these records over the positions [js]. *)
Definition sel (images : list ImageAnalysisResult) (visited : list bool) (j : nat)
  : option ImageAnalysisResult :=
  match visited !! j with Some false => images !! j | _ => None end.

Definition pending images visited (js : list nat) : list ImageAnalysisResult :=
  omap (sel images visited) js.

(** ** Representatives and aggregation *)

(** The members of a cluster that have a given quality. *)
Definition quality_is (q : Q) (i : ImageAnalysisResult) : bool := Qeq_bool (quality i) q.

(** The sums of the specification, and the quality-weighted mean. *)
Definition sumQ (l : list number) : number := foldr Qplus 0 l.

Definition weightedMean (imgs : list ImageAnalysisResult) : number :=
  sumQ (map (fun i => severity i * quality i) imgs) / sumQ (map quality imgs).

(** A record as the classifier produces it: a positive quality and a
    severity that is not negative. *)
Definition wellformed (r : ImageAnalysisResult) : Prop :=
  0 < quality r /\ 0 <= severity r.

(** ** The fate of one image *)

(** What becomes of the image at one position of the request. *)
Inductive Outcome :=
| FetchExhausted
| ServiceError
| DiscardedByRule
| HashRejected
| Analyzed (r : ImageAnalysisResult).

Definition outcome_of_fetched (w : World) (f : Fetched) : Outcome :=
  match detectLabels w (f_pos f) (f_buffer f) with
  | None => ServiceError
  | Some Labels =>
      match classifyDamage (default [] Labels) with
      | Discard => DiscardedByRule
      | Keep a sev q =>
          match sha1_hex w (f_buffer f) with
          | None => HashRejected
          | Some d => Analyzed (mkImage (f_url f) a sev q (String.substring 0 16 d))
          end
      end
  end.

Definition fetched (w : World) (pu : nat * string) : option Fetched :=
  match fetchWithRetry w pu.1 pu.2 with
  | Ok buffer => Some (mkFetched pu.1 pu.2 buffer)
  | Err _ => None
  end.

Definition outcome (w : World) (pu : nat * string) : Outcome :=
  match fetched w pu with
  | None => FetchExhausted
  | Some f => outcome_of_fetched w f
  end.

Definition record_of (o : Outcome) : option ImageAnalysisResult :=
  match o with Analyzed r => Some r | _ => None end.

Definition is_analyzed (o : Outcome) : bool :=
  match o with Analyzed _ => true | _ => false end.

Definition count {A} (p : A -> bool) (l : list A) : nat := length (List.filter p l).

Definition is_kind (k o : Outcome) : bool :=
  match k, o with
  | FetchExhausted, FetchExhausted
  | ServiceError, ServiceError
  | DiscardedByRule, DiscardedByRule
  | HashRejected, HashRejected => true
  | _, _ => false
  end.

Definition is_none {A} (o : option A) : bool :=
  match o with None => true | Some _ => false end.

(** The representatives that the handler aggregates. *)
Definition representativesOf (w : World) (imgs : list string) : list ImageAnalysisResult :=
  bestImagesOf (groupByHash (photoData (run_phases w imgs))).

(** * Notions for further properties of the code *)

(** ** Classification *)

(** A label that sets [blurry], and one that sets [dark]. *)
Definition isBlurLabel (L : Label) : bool :=
  passes L && arr_includes ["blur"; "blurry"]%string (label_name L).
Definition isDarkLabel (L : Label) : bool :=
  passes L && arr_includes ["dark"; "shadow"]%string (label_name L).

(** The condition [blurry || dark] after the loop. *)
Definition degraded (labels : list Label) : bool :=
  existsb isBlurLabel labels || existsb isDarkLabel labels.

(** The area set by the last label that sets one. *)
Definition lastArea (labels : list Label) : option string :=
  last (omap area_of_label labels).

(** [avgConfidence] over a list of evidence labels. *)
Definition codeAverage (ev : list Label) : Q :=
  sumConfidence ev /
  inject_Z (Z.of_nat (if (length ev =? 0)%nat then 1%nat else length ev)).

(** Two labels that the classifier cannot tell apart. *)
Definition same_label (L1 L2 : Label) : Prop :=
  label_name L1 = label_name L2 /\ label_confidence L1 = label_confidence L2.

(** ** Clustering and aggregation *)

(** No record is within distance 3 of an earlier one. *)
Fixpoint pairwise_far (l : list ImageAnalysisResult) : Prop :=
  match l with
  | [] => True
  | x :: rest => Forall (fun y => close x y = false) rest /\ pairwise_far rest
  end.

(** The records of one area. *)
Definition in_area (k : string) (i : ImageAnalysisResult) : bool := String.eqb k (area i).

(** A record as the classifier produces it: a positive quality and a
    severity between 0 and 4. *)
Definition in_range (r : ImageAnalysisResult) : Prop :=
  0 < quality r /\ 0 <= severity r /\ severity r <= 4.

(** The two values of [notes]. *)
Definition note_damage : string := "Shingle uplift or material detachment".
Definition note_minor : string := "Minor cosmetic or no visible damage".

(** ** The worker pool *)

(** [n] calls of [runTask] in a row. *)
Fixpoint submit_many (n : nat) (p : Pool) : list (nat * nat) * Pool :=
  match n with
  | O => ([], p)
  | S n' => let r := runTask_submit p in
            let rs := submit_many n' r.2 in
            (r.1 :: rs.1, rs.2)
  end.

(** The states of the pool that calls of [runTask] and replies of the
    workers can produce. *)
Inductive pool_reachable : Pool -> Prop :=
| reach_init : pool_reachable pool_init
| reach_submit p : pool_reachable p -> pool_reachable (runTask_submit p).2
| reach_message p wk msgId : pool_reachable p -> pool_reachable (on_message p wk msgId).2.

(** What holds in every reachable state: the next worker exists, no two
    listeners wait for the same task, and every listener belongs to a
    worker of the pool and waits for a task that was issued. *)
Definition pool_inv (p : Pool) : Prop :=
  (nextWorker p < WORKER_COUNT)%nat /\
  NoDup (map snd (listeners p)) /\
  Forall (fun l => (l.1 < WORKER_COUNT)%nat /\ (1 <= l.2 <= taskCounter p)%nat) (listeners p).

(** ** The [analyze] task *)

(** A bitmap as the image library hands it over: four bytes for every
    pixel, row after row.  On such a bitmap every read of [getGray] inside
    the image is a read inside [data], and the index stays a 32-bit
    number. *)
Definition rgba_bitmap (bm : Bitmap) : Prop :=
  (1 <= bm_width bm)%Z /\ (1 <= bm_height bm)%Z /\
  (4 * (bm_width bm * bm_height bm) < 2 ^ 31)%Z /\
  Z.of_nat (length (bm_data bm)) = (4 * (bm_width bm * bm_height bm))%Z /\
  Forall (fun b => (0 <= b <= 255)%Z) (bm_data bm).

(** The sum of [f] over a list of indices. *)
Definition sum_over (f : Z -> Z) (l : list Z) : Z := foldr (fun x s => (f x + s)%Z) 0%Z l.

(** The pixels the Laplacian is taken at. *)
Definition interior (bm : Bitmap) (x y : Z) : bool :=
  ((0 <? x) && (0 <? y) && (x <? bm_width bm - 1) && (y <? bm_height bm - 1))%Z.

(** What one pixel adds to [lapSum], [lapSumSq] and [count]. *)
Definition lap_term (bm : Bitmap) (y x : Z) : Z :=
  if interior bm x y then conv_at bm x y else 0%Z.
Definition sq_term (bm : Bitmap) (y x : Z) : Z :=
  if interior bm x y then (conv_at bm x y * conv_at bm x y)%Z else 0%Z.
Definition cnt_term (bm : Bitmap) (y x : Z) : Z :=
  if interior bm x y then 1%Z else 0%Z.

(** * Example data *)

Definition roof_then_siding : list Label :=
  [mkLabel (Some "Roof"%string) (Some 99); mkLabel (Some "Tree"%string) (Some 80)] ++
  mkLabel (Some "Siding"%string) (Some 50) :: [mkLabel (Some "Garage"%string) (Some 49)].

Definition hail_and_wind : list Label :=
  [mkLabel (Some "Hail Damage"%string) (Some 90);
   mkLabel (Some "Wind damage"%string) (Some (135 # 2));
   mkLabel (Some "Roof Damage"%string) (Some 30)].

(** Three records that carry the fingerprints of the specification's
    example, and a fourth one that is far from the first. *)
Definition img_A : ImageAnalysisResult := mkImage "A" "roof" 2 1 "0000".
Definition img_B : ImageAnalysisResult := mkImage "B" "roof" 2 1 "0011".
Definition img_C : ImageAnalysisResult := mkImage "C" "roof" 2 1 "0110".
Definition img_D : ImageAnalysisResult := mkImage "D" "roof" 2 1 "1111".

Definition tie_cluster : list ImageAnalysisResult :=
  [mkImage "u1" "roof" 2 (6 # 10) "00"; mkImage "u2" "roof" 3 1 "01";
   mkImage "u3" "roof" 4 1 "02"].

(** The representatives of the specification's example. *)
Definition example_reps : list ImageAnalysisResult :=
  [mkImage "u1" "roof" 2 1 "00"; mkImage "u2" "roof" 4 (6 # 10) "ff"].

(** The bytes served for the image at a position. *)
Definition buffer_at (pos : nat) : Buffer := replicate (S pos) Byte.x00.

(** A world for a request of five images that meets every kind of
    per-image failure: the first URL never answers, the second one answers
    at the third attempt and shows roof damage, the label service fails on
    the third, the fourth shows nothing of interest, the digest fails on
    the fifth. *)
Definition world_example : World :=
  {| http_fetch := fun pos _ attempt =>
       match pos with
       | 0%nat => None
       | 1%nat => if (attempt <? 2)%nat then None else Some (buffer_at pos)
       | _ => Some (buffer_at pos)
       end;
     detectLabels := fun pos _ =>
       match pos with
       | 2%nat => None
       | 3%nat => Some (Some [mkLabel (Some "Tree"%string) (Some 99)])
       | _ => Some (Some [mkLabel (Some "Roof"%string) (Some 90);
                          mkLabel (Some "Roof Damage"%string) (Some 80)])
       end;
     sha1_hex := fun b =>
       if (length b =? 5)%nat then None
       else Some "0123456789abcdef0123456789abcdef01234567"%string;
     completion := fun l => l;
     random := 1 # 2;
     now := "2025-01-01T00:00:00.000Z" |}.

Definition request_example : Request :=
  {| req_claim_id := "CLM-2025-00123";
     images := Some ["u0"; "u1"; "u2"; "u3"; "u4"]%string;
     req_loss_type := "wind" |}.

(** Two images, the first one showing a roof and the second one only hail
    damage; [d0] and [d1] are their digests. *)
Definition world_two (d0 d1 : string) : World :=
  {| http_fetch := fun pos _ _ => Some (buffer_at pos);
     detectLabels := fun pos _ =>
       match pos with
       | 0%nat => Some (Some [mkLabel (Some "Roof"%string) (Some 90)])
       | _ => Some (Some [mkLabel (Some "Hail Damage"%string) (Some 80)])
       end;
     sha1_hex := fun b => if (length b =? 1)%nat then Some d0 else Some d1;
     completion := fun l => l;
     random := 1 # 2;
     now := "2025-01-01T00:00:00.000Z" |}.

Definition request_two : Request :=
  {| req_claim_id := "CLM-2025-00123";
     images := Some ["u0"; "u1"]%string;
     req_loss_type := "hail" |}.

(** Five representatives of one area whose weighted mean, 43/17, is just
    above 2.5, and two whose weighted mean is 2.5. *)
Definition reps_just_above : list ImageAnalysisResult :=
  [mkImage "u1" "roof" 2 1 "00"; mkImage "u2" "roof" 2 (6 # 10) "10";
   mkImage "u3" "roof" 3 (6 # 10) "20"; mkImage "u4" "roof" 3 (6 # 10) "30";
   mkImage "u5" "roof" 3 (6 # 10) "40"].

Definition reps_exactly : list ImageAnalysisResult :=
  [mkImage "u1" "roof" 2 1 "00"; mkImage "u2" "roof" 3 1 "10"].

(** A roof seen through a blurred picture. *)
Definition roof_blurry : list Label :=
  [mkLabel (Some "Roof"%string) (Some 90); mkLabel (Some "Blurry"%string) (Some 60)].

(** A request for the one image that [world_example] never serves. *)
Definition request_unreachable : Request :=
  {| req_claim_id := "CLM-2025-00123";
     images := Some ["u0"]%string;
     req_loss_type := "wind" |}.

(** Three bitmaps of 3 by 3 pixels: one of a single grey level, one with a
    bright centre, and the latter made brighter by 5. *)
Definition bm_flat : Bitmap := mkBitmap 3 3 (replicate 36 7%Z).

Definition bm_ramp : Bitmap :=
  mkBitmap 3 3 (flat_map (fun g => [g; g; g; 255]%Z) [10; 20; 30; 40; 90; 60; 70; 80; 50]%Z).

Definition bm_ramp_brighter : Bitmap :=
  mkBitmap 3 3 (flat_map (fun g => [g; g; g; 255]%Z) [15; 25; 35; 45; 95; 65; 75; 85; 55]%Z).

(** Two representatives as the classifier produces them, with the weighted
    mean 1.2 / 1.6 = 3/4. *)
Definition reps_three_quarters : list ImageAnalysisResult :=
  [mkImage "u1" "roof" 0 1 "00"; mkImage "u2" "roof" 2 (6 # 10) "ff"].

(** Six representatives as the classifier produces them, with the weighted
    mean 10.5 / 4.2 = 5/2. *)
Definition reps_five_halves : list ImageAnalysisResult :=
  [mkImage "u1" "roof" 0 1 "00"; mkImage "u2" "roof" 2 1 "10";
   mkImage "u3" "roof" 2 (6 # 10) "20"; mkImage "u4" "roof" 4 1 "30";
   mkImage "u5" "roof" 4 1 "40"; mkImage "u6" "roof" 3 (6 # 10) "50"].

(** The bytes of the ASCII characters of a string. *)
Definition bytes_of_string (s : string) : Buffer :=
  map (fun c => default Byte.x00 (Byte.of_N (N_of_ascii c))) (list_ascii_of_string s).

(** A world that serves the buffer [bufs pos] for the image at [pos],
    labels it with [labels pos], and computes the digests with SHA-1. *)
Definition world_sha1 (bufs : nat -> Buffer) (labels : nat -> list Label) : World :=
  {| http_fetch := fun pos _ _ => Some (bufs pos);
     detectLabels := fun pos _ => Some (Some (labels pos));
     sha1_hex := fun b => Some (sha1 b);
     completion := fun l => l;
     random := 1 # 2;
     now := "2025-01-01T00:00:00.000Z" |}.

(** A roof first and hail damage without an area second. *)
Definition labels_roof_then_hail (pos : nat) : list Label :=
  match pos with
  | 0%nat => [mkLabel (Some "Roof"%string) (Some 90)]
  | _ => [mkLabel (Some "Hail Damage"%string) (Some 80)]
  end.

(** Two buffers of four bytes whose SHA-1 digests,
    [b7a72e7837e20073...] and [a7a02e7897e20073...], differ at three of
    their first 16 characters. *)
Definition buffers_close (pos : nat) : Buffer :=
  match pos with
  | 0%nat => [Byte.x00; Byte.x01; Byte.x1d; Byte.x38]
  | _ => [Byte.x00; Byte.x4e; Byte.xbf; Byte.xad]
  end.

(** * Properties *)

(** ** The classifier *)

Lemma cls_step_area st L :
  st_area (cls_step st L) =
  match area_of_label L with Some a => Some a | None => st_area st end.
Proof.
  unfold cls_step, area_of_label, passes, num_ge.
  destruct (num_lt (label_confidence L) 50); simpl; [done|].
  unfold areaIndicator, arr_includes; simpl.
  generalize (label_name L); intros n.
  repeat match goal with
         | |- context [String.eqb n ?s] =>
             destruct (String.eqb_spec n s); [subst n; reflexivity|]
         end.
  reflexivity.
Qed.

Lemma cls_step_damage st L :
  st_damageLabels (cls_step st L) =
  st_damageLabels st ++ (if isDamageEvidence L then [L] else []).
Proof.
  unfold cls_step, isDamageEvidence, passes, num_ge.
  destruct (num_lt (label_confidence L) 50); cbn [st_damageLabels negb andb].
  - by rewrite app_nil_r.
  - destruct (hasDamageKeyword (label_name L)); [done|by rewrite app_nil_r].
Qed.

Lemma cls_fold_damage labels st :
  st_damageLabels (fold_left cls_step labels st) =
  st_damageLabels st ++ damageEvidence labels.
Proof.
  revert st; induction labels as [|L labels IH]; intros st; simpl.
  - by rewrite app_nil_r.
  - rewrite IH, cls_step_damage, <- app_assoc. f_equal.
    by destruct (isDamageEvidence L).
Qed.

Lemma cls_fold_area_keep post st :
  Forall (fun L => area_of_label L = None) post ->
  st_area (fold_left cls_step post st) = st_area st.
Proof.
  intros H; revert st; induction H as [|L post HL _ IH]; intros st; simpl; [done|].
  by rewrite IH, cls_step_area, HL.
Qed.

Lemma cls_fold_area_none labels st :
  st_area (fold_left cls_step labels st) = None <->
  st_area st = None /\ Forall (fun L => area_of_label L = None) labels.
Proof.
  revert st; induction labels as [|L labels IH]; intros st; simpl.
  - split; [intros ->; by split|by intros [-> _]].
  - rewrite IH, cls_step_area, Forall_cons.
    destruct (area_of_label L); intuition congruence.
Qed.

Lemma cls_loop_last pre L post a :
  area_of_label L = Some a ->
  Forall (fun L' => area_of_label L' = None) post ->
  st_area (cls_loop (pre ++ L :: post)) = Some a.
Proof.
  intros HL Hpost. unfold cls_loop.
  rewrite fold_left_app; simpl.
  by rewrite cls_fold_area_keep, cls_step_area, HL.
Qed.

Lemma cls_loop_damage labels :
  st_damageLabels (cls_loop labels) = damageEvidence labels.
Proof. unfold cls_loop. by rewrite cls_fold_damage. Qed.

Lemma area_of_label_None L :
  area_of_label L = None <->
  (passes L = true -> areaIndicator (label_name L) = None).
Proof. unfold area_of_label. destruct (passes L); naive_solver. Qed.

Lemma classifyDamage_Discard labels :
  classifyDamage labels = Discard <->
  st_area (cls_loop labels) = None /\ damageEvidence labels = [].
Proof.
  unfold classifyDamage. rewrite cls_loop_damage.
  destruct (st_area (cls_loop labels)) as [a|]; simpl.
  - split; [done|by intros [? _]].
  - destruct (damageEvidence labels); simpl; split; try done. by intros [_ ?].
Qed.

(** C2. The area assigned by [classifyDamage] is the one set by the last
    label, in list order, that passes the confidence floor of 50 and whose
    lowercased name is an area indicator: when such a label [L] indicates
    the area [a] and no label after it passes and indicates an area, the
    image is kept with area [a], whatever stands before [L] and whatever
    the confidences are.  A roof indicator followed by a siding indicator
    as the last match therefore gives siding. *)
Theorem classify_area_last_match (pre post : list Label) (L : Label) (a : string) :
  passes L = true ->
  areaIndicator (label_name L) = Some a ->
  (forall L', L' ∈ post -> passes L' = true -> areaIndicator (label_name L') = None) ->
  st_area (cls_loop (pre ++ L :: post)) = Some a /\
  exists sev q, classifyDamage (pre ++ L :: post) = Keep a sev q.
Proof.
  intros Hp Ha Hpost.
  assert (Hlast : st_area (cls_loop (pre ++ L :: post)) = Some a).
  { apply cls_loop_last.
    - unfold area_of_label. by rewrite Hp.
    - apply Forall_forall. intros L' HL'. apply area_of_label_None. by apply Hpost. }
  split; [done|].
  unfold classifyDamage. rewrite Hlast. simpl. eauto.
Qed.

Lemma classify_area_last_match_witness :
  st_area (cls_loop roof_then_siding) = Some "siding"%string /\
  exists sev q, classifyDamage roof_then_siding = Keep "siding"%string sev q.
Proof.
  apply classify_area_last_match.
  - reflexivity.
  - reflexivity.
  - intros L' HL' Hp. apply list_elem_of_singleton in HL'. subst L'. discriminate Hp.
Defined.

(** The rule applies to every position: an indicator that passes after the
    siding one decides in its turn. *)
Example area_third_indicator :
  classifyDamage
    [mkLabel (Some "Roof"%string) (Some 99); mkLabel (Some "Siding"%string) (Some 60);
     mkLabel (Some "Garage"%string) (Some 55)]
  = Keep "garage"%string 0 1.
Proof. reflexivity. Qed.

(** C4. [classifyDamage] discards exactly when no label that passes the
    confidence floor indicates an area or contains a damage keyword; as soon
    as one passing label does either, the image is kept. *)
Theorem classify_discard_iff (labels : list Label) :
  classifyDamage labels = Discard <->
  (forall L, L ∈ labels -> passes L = true ->
     areaIndicator (label_name L) = None /\ hasDamageKeyword (label_name L) = false).
Proof.
  rewrite classifyDamage_Discard. unfold cls_loop.
  rewrite cls_fold_area_none. simpl. split.
  - intros [[_ Harea] Hdmg] L HL Hp. split.
    + rewrite Forall_forall in Harea.
      exact (proj1 (area_of_label_None L) (Harea L HL) Hp).
    + assert (Hnot : ~ L ∈ damageEvidence labels) by (rewrite Hdmg; apply not_elem_of_nil).
      unfold damageEvidence in Hnot.
      rewrite list_elem_of_In, filter_In, <- list_elem_of_In in Hnot.
      unfold isDamageEvidence in Hnot. rewrite Hp in Hnot. simpl in Hnot.
      destruct (hasDamageKeyword (label_name L)); [|done]. by destruct Hnot.
  - intros H. split; [split; [done|]|].
    + apply Forall_forall. intros L HL. apply area_of_label_None.
      intros Hp. by apply H.
    + unfold damageEvidence.
      induction labels as [|L labels IH]; simpl; [done|].
      assert (HL : isDamageEvidence L = false).
      { unfold isDamageEvidence. destruct (passes L) eqn:Hp; [|done].
        simpl. apply H; [left|done]. }
      rewrite HL. apply IH. intros L' HL'. apply H. by right.
Qed.

Lemma sumConfidence_fold ev x :
  fold_left (fun sum l => sum + label_confidence l) ev x == x + sumOf ev.
Proof.
  revert x; induction ev as [|l ev IH]; intros x; simpl.
  - ring.
  - rewrite IH. ring.
Qed.

Lemma sumConfidence_sumOf ev : sumConfidence ev == sumOf ev.
Proof. unfold sumConfidence. rewrite sumConfidence_fold. ring. Qed.

Lemma passes_confidence L : passes L = true -> 50 <= label_confidence L.
Proof.
  unfold passes, num_ge, num_lt.
  by destruct (Qlt_le_dec (label_confidence L) 50).
Qed.

Lemma damageEvidence_passes labels L :
  L ∈ damageEvidence labels -> passes L = true.
Proof.
  unfold damageEvidence.
  rewrite list_elem_of_In, filter_In. unfold isDamageEvidence.
  intros [_ H]. by apply andb_prop in H as [? _].
Qed.

Lemma sumOf_nonneg ev :
  Forall (fun L => passes L = true) ev -> 0 <= sumOf ev.
Proof.
  induction 1 as [|L ev HL _ IH]; simpl; [apply Qle_refl|].
  apply passes_confidence in HL. lra.
Qed.

Lemma averageConfidence_code ev :
  sumConfidence ev /
  inject_Z (Z.of_nat (if (length ev =? 0)%nat then 1%nat else length ev))
  == averageConfidence ev.
Proof.
  destruct ev as [|l ev]; [reflexivity|].
  unfold averageConfidence. cbn [length Nat.eqb].
  by rewrite sumConfidence_sumOf.
Qed.

Lemma averageConfidence_nonneg ev :
  Forall (fun L => passes L = true) ev -> 0 <= averageConfidence ev.
Proof.
  intros H. destruct ev as [|l ev]; [apply Qle_refl|].
  unfold averageConfidence.
  apply Qle_shift_div_l.
  - change 0 with (inject_Z 0). rewrite <- Zlt_Qlt. simpl; lia.
  - rewrite Qmult_0_l. by apply sumOf_nonneg.
Qed.

Lemma Math_min_4_inject (r : Z) :
  (0 <= r)%Z -> Math_min 4 (inject_Z r) == inject_Z (Z.max 0 (Z.min 4 r)).
Proof.
  intros Hr. unfold Math_min, num_lt.
  destruct (Qlt_le_dec (inject_Z r) 4) as [H|H].
  - change 4 with (inject_Z 4) in H. rewrite <- Zlt_Qlt in H.
    by replace (Z.max 0 (Z.min 4 r)) with r by lia.
  - change 4 with (inject_Z 4) in H. rewrite <- Zle_Qle in H.
    by replace (Z.max 0 (Z.min 4 r)) with 4%Z by lia.
Qed.

(** C3. For a kept image the severity is the average confidence of the
    damage evidence (0 when there is none) divided by 25, rounded to the
    nearest integer [r] (halves go up) and clamped to the range 0..4. *)
Theorem classify_severity (labels : list Label) (a : string) (sev q : number) :
  classifyDamage labels = Keep a sev q ->
  exists r : Z,
    averageConfidence (damageEvidence labels) / 25 - (1 # 2) < inject_Z r /\
    inject_Z r <= averageConfidence (damageEvidence labels) / 25 + (1 # 2) /\
    sev == inject_Z (Z.max 0 (Z.min 4 r)).
Proof.
  unfold classifyDamage. rewrite cls_loop_damage.
  destruct (_ && _); [done|].
  intros [= _ <- _].
  set (ev := damageEvidence labels).
  set (x := averageConfidence ev / 25).
  exists (Qfloor (x + (1 # 2))).
  assert (Hx : 0 <= x).
  { unfold x. apply Qle_shift_div_l; [reflexivity|]. rewrite Qmult_0_l.
    apply averageConfidence_nonneg, Forall_forall.
    intros L. apply damageEvidence_passes. }
  pose proof (Qfloor_le (x + (1 # 2))) as Hlo.
  pose proof (Qlt_floor (x + (1 # 2))) as Hhi.
  rewrite inject_Z_plus in Hhi.
  split; [|split].
  - change (inject_Z 1) with 1 in Hhi. lra.
  - done.
  - unfold Math_round.
    assert (Heq : sumConfidence ev /
              inject_Z (Z.of_nat (if (length ev =? 0)%nat then 1%nat else length ev)) / 25
              + (1 # 2) == x + (1 # 2)).
    { unfold x. by rewrite averageConfidence_code. }
    rewrite Heq. apply Math_min_4_inject.
    change 0%Z with (Qfloor 0). apply Qfloor_resp_le. lra.
Qed.

Lemma classify_severity_witness :
  exists r : Z,
    averageConfidence (damageEvidence hail_and_wind) / 25 - (1 # 2) < inject_Z r /\
    inject_Z r <= averageConfidence (damageEvidence hail_and_wind) / 25 + (1 # 2) /\
    3 == inject_Z (Z.max 0 (Z.min 4 r)).
Proof.
  apply (classify_severity hail_and_wind "unknown"%string 3 1).
  reflexivity.
Defined.

Lemma classify_unknown labels :
  (forall L, L ∈ labels -> passes L = true -> areaIndicator (label_name L) = None) ->
  (exists L, L ∈ labels /\ passes L = true /\ hasDamageKeyword (label_name L) = true) ->
  exists sev q, classifyDamage labels = Keep "unknown"%string sev q.
Proof.
  intros Hnone (L & HL & Hp & Hd).
  assert (Harea : st_area (cls_loop labels) = None).
  { unfold cls_loop. apply cls_fold_area_none. split; [done|].
    apply Forall_forall. intros L' HL'. apply area_of_label_None. by apply Hnone. }
  assert (Hev : L ∈ damageEvidence labels).
  { unfold damageEvidence. apply list_elem_of_In, filter_In. split.
    - by apply list_elem_of_In.
    - unfold isDamageEvidence. by rewrite Hp, Hd. }
  unfold classifyDamage. rewrite Harea, cls_loop_damage.
  destruct (damageEvidence labels) as [|e ev]; [by apply not_elem_of_nil in Hev|].
  simpl. eauto.
Qed.

Lemma Math_round_nonneg x : 0 <= x -> 0 <= Math_round x.
Proof.
  intros Hx. unfold Math_round.
  change 0 with (inject_Z 0). rewrite <- Zle_Qle.
  change 0%Z with (Qfloor 0). apply Qfloor_resp_le. lra.
Qed.

Lemma classifyDamage_wellformed labels a sev q :
  classifyDamage labels = Keep a sev q -> 0 < q /\ 0 <= sev.
Proof.
  unfold classifyDamage. rewrite cls_loop_damage.
  destruct (_ && _); [done|]. intros [= _ <- <-]. split.
  - by destruct (_ || _).
  - unfold Math_min, num_lt. destruct (Qlt_le_dec _ 4); [|done].
    apply Math_round_nonneg.
    rewrite averageConfidence_code.
    apply Qle_shift_div_l; [reflexivity|]. rewrite Qmult_0_l.
    apply averageConfidence_nonneg, Forall_forall.
    intros L. apply damageEvidence_passes.
Qed.

(** ** The clusterer *)

(** An invariant of a [fold_left] loop. *)
Lemma fold_left_invariant {St X} (P : St -> Prop) (f : St -> X -> St) (l : list X) (s : St) :
  P s -> (forall s x, x ∈ l -> P s -> P (f s x)) -> P (fold_left f l s).
Proof.
  revert s; induction l as [|x l IH]; intros s Hs Hf; simpl; [done|].
  apply IH.
  - apply Hf; [left|done].
  - intros s' y Hy. apply Hf. by right.
Qed.

Lemma group_inner_seeded images i xi js st :
  images !! i = Some xi ->
  (exists rest, st.1 = xi :: rest /\
     Forall (fun r => r ∈ images /\ (hammingDistance (hash xi) (hash r) <= 3)%nat) rest) ->
  exists rest, (fold_left (group_inner images i) js st).1 = xi :: rest /\
     Forall (fun r => r ∈ images /\ (hammingDistance (hash xi) (hash r) <= 3)%nat) rest.
Proof.
  intros Hi Hst.
  apply (fold_left_invariant
           (fun st => exists rest, st.1 = xi :: rest /\
              Forall (fun r => r ∈ images /\
                        (hammingDistance (hash xi) (hash r) <= 3)%nat) rest));
    [done|].
  clear st Hst. intros st j _ (rest & Hg & Hrest).
  unfold group_inner. rewrite Hi.
  destruct (images !! j) as [xj|] eqn:Hj; [|by eauto].
  destruct (st.2 !! j) as [vj|]; [|by eauto].
  destruct (negb vj && _) eqn:Hc; [|by eauto].
  apply andb_prop in Hc as [_ Hd]. apply Nat.leb_le in Hd.
  exists (rest ++ [xj]). simpl. rewrite Hg. split; [done|].
  apply Forall_app. split; [done|].
  apply Forall_singleton. split; [|done].
  by apply list_elem_of_lookup_2 with j.
Qed.

Lemma groupByHash_seeded images g :
  g ∈ groupByHash images -> seeded images g.
Proof.
  unfold groupByHash.
  revert g. apply Forall_forall.
  apply (fold_left_invariant (fun st => Forall (seeded images) st.1)).
  { simpl. constructor. }
  intros st i _ Hst. unfold group_outer.
  destruct (st.2 !! i) as [[|]|]; try done.
  destruct (images !! i) as [xi|] eqn:Hi; [|done].
  simpl. apply Forall_app. split; [done|].
  apply Forall_singleton.
  destruct (group_inner_seeded images i xi
              (seq (i + 1) (length images - (i + 1))) ([xi], <[i:=true]> (st.2)) Hi)
    as (rest & Hg & Hrest).
  { exists []. by split. }
  exists xi, rest. split; [done|]. split; [|done].
  by apply list_elem_of_lookup_2 with i.
Qed.

(** [groupByHash] computes the greedy clustering: the records that the
    loops have not yet put in a cluster, [pending], are the argument of the
    recursive call of [greedy]. *)
Lemma pending_cons images visited j js :
  pending images visited (j :: js) =
  match sel images visited j with
  | Some x => x :: pending images visited js
  | None => pending images visited js
  end.
Proof. reflexivity. Qed.

Lemma pending_agree images v1 v2 (js : list nat) :
  (forall j, j ∈ js -> v1 !! j = v2 !! j) ->
  pending images v1 js = pending images v2 js.
Proof.
  intros H. unfold pending. apply list_omap_ext.
  induction js as [|j js IH]; constructor.
  - unfold sel. rewrite (H j); [done|left].
  - apply IH. intros k Hk. apply H. by right.
Qed.

Lemma group_inner_sel images i xi j g v :
  images !! i = Some xi ->
  group_inner images i (g, v) j =
  match sel images v j with
  | Some xj => if close xi xj then (g ++ [xj], <[j:=true]> v) else (g, v)
  | None => (g, v)
  end.
Proof.
  intros Hi. unfold group_inner, sel, close. rewrite Hi. cbn [fst snd].
  destruct (images !! j) as [xj|], (v !! j) as [[|]|]; done.
Qed.

Lemma group_inner_spec images i xi js :
  images !! i = Some xi ->
  NoDup js ->
  forall g v,
  exists v',
    fold_left (group_inner images i) js (g, v) =
      (g ++ List.filter (close xi) (pending images v js), v') /\
    length v' = length v /\
    (forall k, k ∉ js -> v' !! k = v !! k) /\
    pending images v' js =
      List.filter (fun x => negb (close xi x)) (pending images v js).
Proof.
  intros Hi Hnd. induction Hnd as [|j js Hj Hnd IH]; intros g v.
  { exists v. simpl. by rewrite app_nil_r. }
  cbn [fold_left]. rewrite (group_inner_sel images i xi j g v Hi), !pending_cons.
  destruct (sel images v j) as [xj|] eqn:Hsel.
  - destruct (close xi xj) eqn:Hclose.
    + destruct (IH (g ++ [xj]) (<[j:=true]> v)) as (v' & Hfold & Hlen & Hout & Hpend).
      assert (Hagree : pending images (<[j:=true]> v) js = pending images v js).
      { apply pending_agree. intros k Hk. apply list_lookup_insert_ne. by intros ->. }
      rewrite Hagree in Hfold, Hpend.
      assert (Hjv : v !! j = Some false).
      { unfold sel in Hsel. by destruct (v !! j) as [[|]|]. }
      exists v'. split; [|split; [|split]].
      * rewrite Hfold. cbn [List.filter]. rewrite Hclose, <- app_assoc. done.
      * by rewrite Hlen, length_insert.
      * intros k Hk. apply not_elem_of_cons in Hk as [Hkj Hk].
        rewrite (Hout k Hk). by apply list_lookup_insert_ne.
      * rewrite pending_cons. unfold sel at 1.
        rewrite (Hout j Hj), list_lookup_insert_eq
          by (by apply lookup_lt_Some in Hjv).
        cbn [List.filter]. by rewrite Hclose.
    + destruct (IH g v) as (v' & Hfold & Hlen & Hout & Hpend).
      exists v'. split; [|split; [|split]].
      * rewrite Hfold. cbn [List.filter]. by rewrite Hclose.
      * done.
      * intros k Hk. apply not_elem_of_cons in Hk as [_ Hk]. by apply Hout.
      * rewrite pending_cons. unfold sel at 1.
        rewrite (Hout j Hj). fold (sel images v j). rewrite Hsel.
        cbn [List.filter]. rewrite Hclose. cbn [negb]. by rewrite Hpend.
  - destruct (IH g v) as (v' & Hfold & Hlen & Hout & Hpend).
    exists v'. split; [done|]. split; [done|]. split.
    + intros k Hk. apply not_elem_of_cons in Hk as [_ Hk]. by apply Hout.
    + rewrite pending_cons. unfold sel at 1.
      rewrite (Hout j Hj). fold (sel images v j). by rewrite Hsel.
Qed.

Lemma group_outer_spec images d :
  forall k v groups fuel,
    (k + d = length images)%nat ->
    (length (pending images v (seq k d)) <= fuel)%nat ->
    (fold_left (group_outer images) (seq k d) (groups, v)).1 =
    groups ++ greedy fuel (pending images v (seq k d)).
Proof.
  induction d as [|d IH]; intros k v groups fuel Hk Hfuel.
  { simpl. destruct fuel; by rewrite app_nil_r. }
  cbn [seq fold_left] in Hfuel |- *. rewrite pending_cons in Hfuel |- *.
  unfold group_outer at 2. cbn [fst snd]. unfold sel in Hfuel |- *.
  destruct (v !! k) as [[|]|] eqn:Hvk;
    try (apply IH; [lia|done]).
  destruct (images !! k) as [xk|] eqn:Hik;
    [|apply IH; [lia|done]].
  replace (k + 1)%nat with (S k) by lia.
  replace (length images - S k)%nat with d by lia.
  destruct (group_inner_spec images k xk (seq (S k) d) Hik (NoDup_seq _ _)
              [xk] (<[k:=true]> v)) as (v' & Hfold & Hlen & Hout & Hpend).
  assert (Hagree : pending images (<[k:=true]> v) (seq (S k) d)
                   = pending images v (seq (S k) d)).
  { apply pending_agree. intros j Hj. apply list_lookup_insert_ne.
    apply elem_of_seq in Hj. lia. }
  rewrite Hagree in Hfold, Hpend. rewrite Hfold. cbn [fst snd].
  destruct fuel as [|fuel]; [simpl in Hfuel; lia|].
  rewrite (IH (S k) v' _ fuel); [|lia|].
  - rewrite Hpend. cbn [greedy app]. by rewrite <- app_assoc.
  - rewrite Hpend. simpl in Hfuel.
    etrans; [apply filter_length_le|]. lia.
Qed.

Lemma omap_lookup_seq {A} (pre l : list A) :
  omap (fun j => (pre ++ l) !! j) (seq (length pre) (length l)) = l.
Proof.
  revert pre; induction l as [|x l IH]; intros pre; [done|].
  cbn [length seq]. cbn [omap list_omap]. rewrite list_lookup_middle by done.
  f_equal. specialize (IH (pre ++ [x])).
  rewrite <- app_assoc, length_app in IH. cbn [app length] in IH.
  rewrite Nat.add_1_r in IH. exact IH.
Qed.

Lemma pending_initial images :
  pending images (replicate (length images) false) (seq 0 (length images)) = images.
Proof.
  unfold pending.
  rewrite <- (omap_lookup_seq [] images) at 4.
  apply list_omap_ext. apply Forall_Forall2_diag, Forall_forall. intros j _.
  unfold sel. simpl.
  destruct (decide (j < length images)%nat) as [Hlt|Hge].
  - by rewrite lookup_replicate_2.
  - rewrite (proj1 (lookup_replicate_None _ _ _)) by lia.
    symmetry. apply lookup_ge_None. lia.
Qed.

Lemma groupByHash_greedy images : groupByHash images = greedyClusters images.
Proof.
  unfold groupByHash, greedyClusters.
  rewrite (group_outer_spec images (length images) 0%nat _ [] (length images));
    rewrite ?pending_initial; simpl; done.
Qed.

Lemma filter_split_Permutation {A} (p : A -> bool) (l : list A) :
  Permutation (List.filter p l ++ List.filter (fun x => negb (p x)) l) l.
Proof.
  induction l as [|x l IH]; simpl; [done|].
  destruct (p x); simpl.
  - by constructor.
  - rewrite <- Permutation_middle. by constructor.
Qed.

Lemma greedy_partition fuel l :
  (length l <= fuel)%nat -> Permutation (concat (greedy fuel l)) l.
Proof.
  revert l; induction fuel as [|fuel IH]; intros l Hl.
  - destruct l; [done|simpl in Hl; lia].
  - destruct l as [|seed rest]; [done|]. simpl in Hl |- *.
    constructor. rewrite IH.
    + apply filter_split_Permutation.
    + etrans; [apply filter_length_le|]. lia.
Qed.

Lemma greedy_nonempty fuel l g : g ∈ greedy fuel l -> g <> [].
Proof.
  revert l; induction fuel as [|fuel IH]; intros l Hg; simpl in Hg.
  - destruct l; by apply not_elem_of_nil in Hg.
  - destruct l as [|seed rest]; [by apply not_elem_of_nil in Hg|].
    apply elem_of_cons in Hg as [->|Hg]; [done|]. by apply IH in Hg.
Qed.

(** Every record is in one cluster, and no cluster is empty. *)
Lemma groupByHash_partition images :
  Permutation (concat (groupByHash images)) images.
Proof. rewrite groupByHash_greedy. by apply greedy_partition. Qed.

Lemma groupByHash_nonempty images g : g ∈ groupByHash images -> g <> [].
Proof. rewrite groupByHash_greedy. apply greedy_nonempty. Qed.

(** C5, as stated, fails: [0110] differs from [0000] in two positions, not
    four, so C joins the cluster seeded by A and there is one cluster. *)
Lemma cluster_example_single :
  hammingDistance (hash img_A) (hash img_C) = 2%nat /\
  groupByHash [img_A; img_B; img_C] = [[img_A; img_B; img_C]] /\
  groupByHash [img_A; img_B; img_C] <> [[img_A; img_B]; [img_C]].
Proof. split; [reflexivity|]. split; [reflexivity|discriminate]. Qed.

(** C5, amended. Clustering is single-pass greedy: [groupByHash] computes
    the greedy clustering, in which every cluster is its seed followed by
    the records within distance 3 of the seed; closeness to another member
    does not count.  For A=0000, B=0011, C=0110 all three records are
    within distance 2 of the seed A and form one cluster; with the third
    fingerprint 1111 (distance 2 from B, distance 4 from A) the clusters
    are {A,B} and the singleton of the third record. *)
Theorem cluster_by_seed_distance :
  (forall images, groupByHash images = greedyClusters images) /\
  (forall images g, g ∈ groupByHash images -> seeded images g) /\
  groupByHash [img_A; img_B; img_C] = [[img_A; img_B; img_C]] /\
  hammingDistance (hash img_A) (hash img_D) = 4%nat /\
  hammingDistance (hash img_B) (hash img_D) = 2%nat /\
  hammingDistance (hash img_D) (hash img_B) = 2%nat /\
  groupByHash [img_A; img_B; img_D] = [[img_A; img_B]; [img_D]].
Proof.
  split; [apply groupByHash_greedy|].
  split; [apply groupByHash_seeded|].
  repeat split; reflexivity.
Qed.

(** ** Representative selection *)

(** [array_sort] by descending quality is a sort: it permutes its argument,
    its result is in descending order of quality, and members of equal
    quality keep their relative order. *)
Lemma sort_insert_Permutation {A} (cmp : A -> A -> Q) x l :
  Permutation (sort_insert cmp x l) (x :: l).
Proof.
  induction l as [|y l IH]; simpl; [done|].
  destruct (num_lt 0 (cmp x y)); [|done].
  rewrite IH. apply perm_swap.
Qed.

Lemma array_sort_Permutation {A} (cmp : A -> A -> Q) l :
  Permutation (array_sort cmp l) l.
Proof.
  induction l as [|x l IH]; simpl; [done|].
  unfold array_sort in *. simpl. rewrite sort_insert_Permutation. by constructor.
Qed.

Lemma sort_insert_sorted x l :
  StronglySorted (fun a b => quality b <= quality a) l ->
  StronglySorted (fun a b => quality b <= quality a) (sort_insert by_quality x l).
Proof.
  induction 1 as [|y l Hl IH Hy]; simpl.
  - repeat constructor.
  - unfold num_lt, by_quality at 1.
    destruct (Qlt_le_dec 0 (quality y - quality x)) as [Hlt|Hle].
    + constructor; [done|].
      rewrite Forall_forall in Hy |- *. intros z Hz.
      rewrite sort_insert_Permutation in Hz.
      apply elem_of_cons in Hz as [->|Hz]; [lra|]. by apply Hy.
    + constructor; [by constructor|].
      constructor; [lra|].
      rewrite Forall_forall in Hy |- *. intros z Hz. specialize (Hy z Hz). lra.
Qed.

Lemma array_sort_sorted l :
  StronglySorted (fun a b => quality b <= quality a) (array_sort by_quality l).
Proof.
  induction l as [|x l IH]; [constructor|].
  unfold array_sort in *. cbn [foldr]. by apply sort_insert_sorted.
Qed.

Lemma sort_insert_stable q x l :
  List.filter (quality_is q) (sort_insert by_quality x l) =
  List.filter (quality_is q) (x :: l).
Proof.
  induction l as [|y l IH]; [done|].
  cbn [sort_insert]. unfold num_lt, by_quality at 1.
  destruct (Qlt_le_dec 0 (quality y - quality x)) as [Hlt|Hle]; [|done].
  cbn [List.filter] in IH |- *. rewrite IH.
  unfold quality_is.
  destruct (Qeq_bool (quality x) q) eqn:Hx; [|done].
  destruct (Qeq_bool (quality y) q) eqn:Hy; [|done].
  apply Qeq_bool_iff in Hx, Hy. exfalso. lra.
Qed.

Lemma array_sort_stable q l :
  List.filter (quality_is q) (array_sort by_quality l) = List.filter (quality_is q) l.
Proof.
  induction l as [|x l IH]; [done|].
  unfold array_sort in *. cbn [foldr]. rewrite sort_insert_stable.
  cbn [List.filter]. by rewrite IH.
Qed.

Lemma head_sort_insert {A} (cmp : A -> A -> number) (x : A) (l : list A) :
  head (sort_insert cmp x l) =
  match head l with
  | None => Some x
  | Some y => if num_lt 0 (cmp x y) then Some y else Some x
  end.
Proof. destruct l as [|y l]; simpl; [done|]. by destruct (num_lt 0 (cmp x y)). Qed.

Lemma representative_cons x g :
  representative (x :: g) =
  match representative g with
  | None => Some x
  | Some y => if num_lt 0 (quality y - quality x) then Some y else Some x
  end.
Proof. unfold representative, array_sort. simpl. apply head_sort_insert. Qed.

Lemma representative_member g r : representative g = Some r -> r ∈ g.
Proof.
  unfold representative. intros H.
  rewrite <- (array_sort_Permutation by_quality g).
  destruct (array_sort by_quality g); simplify_eq/=. left.
Qed.

(** C6. The representative of a non-empty cluster is a member of maximal
    quality, and every member that stands before it in the cluster has a
    strictly smaller quality: among the members of maximal quality it is
    the earliest one.  The sort that selects it keeps the members of equal
    quality in their original order. *)
Theorem representative_max_first (g : list ImageAnalysisResult) :
  g <> [] ->
  (exists pre r post,
     g = pre ++ r :: post /\
     representative g = Some r /\
     (forall m, m ∈ g -> quality m <= quality r) /\
     (forall m, m ∈ pre -> quality m < quality r)) /\
  (forall q, List.filter (quality_is q) (array_sort by_quality g)
             = List.filter (quality_is q) g).
Proof.
  intros Hne. split; [|intros q; apply array_sort_stable].
  induction g as [|x g IH]; [done|].
  rewrite representative_cons.
  destruct g as [|y g'].
  { exists [], x, []. simpl. repeat split; [|intros m Hm; by apply not_elem_of_nil in Hm].
    intros m Hm. apply list_elem_of_singleton in Hm. subst m. apply Qle_refl. }
  destruct IH as (pre & r & post & Hg & Hr & Hmax & Hpre); [done|].
  rewrite Hr. unfold num_lt.
  destruct (Qlt_le_dec 0 (quality r - quality x)) as [Hlt|Hle].
  - exists (x :: pre), r, post. rewrite Hg. repeat split.
    + intros m Hm. rewrite <- Hg in Hm. apply elem_of_cons in Hm as [->|Hm].
      * lra.
      * by apply Hmax.
    + intros m Hm. apply elem_of_cons in Hm as [->|Hm].
      * lra.
      * by apply Hpre.
  - exists [], x, (y :: g'). repeat split.
    + intros m Hm. apply elem_of_cons in Hm as [->|Hm].
      * apply Qle_refl.
      * specialize (Hmax m Hm). lra.
    + intros m Hm. by apply not_elem_of_nil in Hm.
Qed.

Lemma representative_max_first_witness :
  (exists pre r post,
     tie_cluster = pre ++ r :: post /\
     representative tie_cluster = Some r /\
     (forall m, m ∈ tie_cluster -> quality m <= quality r) /\
     (forall m, m ∈ pre -> quality m < quality r)) /\
  (forall q, List.filter (quality_is q) (array_sort by_quality tie_cluster)
             = List.filter (quality_is q) tie_cluster).
Proof. apply representative_max_first. discriminate. Defined.

(** In [tie_cluster] the second and the third member share the maximal
    quality; the second one is selected. *)
Example representative_tie :
  option_map url (representative tie_cluster) = Some "u2"%string.
Proof. reflexivity. Qed.

(** ** The aggregator *)

(** Two positions of a list hold elements that satisfy [p] exactly when the
    filtered list has two elements. *)
Lemma filter_length_ge1 {A} (p : A -> bool) (l : list A) :
  (1 <= length (List.filter p l))%nat <->
  exists i a, l !! i = Some a /\ p a = true.
Proof.
  induction l as [|x l IH]; simpl.
  - split; [lia|]. by intros (i & a & H & _).
  - destruct (p x) eqn:Hx; simpl.
    + split; [|lia]. intros _. by exists 0%nat, x.
    + rewrite IH. split.
      * intros (i & a & H & Ha). by exists (S i), a.
      * intros ([|i] & a & H & Ha); simpl in H; [congruence|by exists i, a].
Qed.

Lemma filter_length_ge2 {A} (p : A -> bool) (l : list A) :
  (2 <= length (List.filter p l))%nat <->
  exists i j a b, (i < j)%nat /\ l !! i = Some a /\ l !! j = Some b /\
                  p a = true /\ p b = true.
Proof.
  induction l as [|x l IH]; simpl.
  - split; [lia|]. by intros (i & j & a & b & _ & H & _).
  - destruct (p x) eqn:Hx; simpl.
    + split.
      * intros H. assert (H1 : (1 <= length (List.filter p l))%nat) by lia.
        apply filter_length_ge1 in H1 as (k & c & Hk & Hc).
        exists 0%nat, (S k), x, c. repeat split; [lia|done..].
      * intros (i & [|j] & a & b & Hij & Hi & Hj & Ha & Hb); [lia|].
        simpl in Hj.
        assert (H1 : (1 <= length (List.filter p l))%nat); [|lia].
        apply filter_length_ge1. by exists j, b.
    + rewrite IH. split.
      * intros (i & j & a & b & Hij & Hi & Hj & Ha & Hb).
        exists (S i), (S j), a, b. repeat split; [lia|done..].
      * intros ([|i] & [|j] & a & b & Hij & Hi & Hj & Ha & Hb);
          simpl in Hi, Hj; try lia; [congruence|].
        exists i, j, a, b. repeat split; [lia|done..].
Qed.

Lemma num_ge_iff x y : num_ge x y = true <-> y <= x.
Proof.
  unfold num_ge, num_lt. destruct (Qlt_le_dec x y) as [H|H]; simpl.
  - split; [done|]. intros H'. exfalso. lra.
  - by split.
Qed.

(** C8. [damage_confirmed] is true exactly when two distinct
    representatives of the area have a severity of at least 2. *)
Theorem damage_confirmed_iff (loss_type : string)
    (entry : string * list ImageAnalysisResult) :
  damage_confirmed (areaResult loss_type entry) = true <->
  exists i j a b,
    (i < j)%nat /\ entry.2 !! i = Some a /\ entry.2 !! j = Some b /\
    2 <= severity a /\ 2 <= severity b.
Proof.
  unfold areaResult; cbn [damage_confirmed].
  rewrite Nat.leb_le, filter_length_ge2.
  split; intros (i & j & a & b & Hij & Hi & Hj & Ha & Hb);
    exists i, j, a, b; repeat split; try done;
    first [by apply num_ge_iff | by apply num_ge_iff in Ha | by apply num_ge_iff in Hb].
Qed.

Example damage_confirmed_one :
  damage_confirmed
    (areaResult "wind" ("roof"%string,
       [mkImage "u1" "roof" 3 1 "00"; mkImage "u2" "roof" 1 1 "ff"])) = false.
Proof. reflexivity. Qed.

Example damage_confirmed_two :
  damage_confirmed
    (areaResult "wind" ("roof"%string,
       [mkImage "u1" "roof" 3 1 "00"; mkImage "u2" "roof" 1 1 "ff";
        mkImage "u3" "roof" 2 (6 # 10) "77"])) = true.
Proof. reflexivity. Qed.

Lemma fold_left_sumQ {A} (f : A -> number) (l : list A) (x : number) :
  fold_left (fun sum i => sum + f i) l x == x + sumQ (map f l).
Proof.
  revert x; induction l as [|a l IH]; intros x; simpl.
  - ring.
  - rewrite IH. ring.
Qed.

Lemma totalWeightOf_sumQ imgs : totalWeightOf imgs == sumQ (map quality imgs).
Proof. unfold totalWeightOf. rewrite fold_left_sumQ. ring. Qed.

Lemma weightedSumOf_sumQ imgs :
  weightedSumOf imgs == sumQ (map (fun i => severity i * quality i) imgs).
Proof.
  unfold weightedSumOf.
  rewrite (fold_left_sumQ (fun i => severity i * quality i)). ring.
Qed.

Lemma weightedMean_code imgs :
  weightedSumOf imgs / totalWeightOf imgs == weightedMean imgs.
Proof. unfold weightedMean. by rewrite weightedSumOf_sumQ, totalWeightOf_sumQ. Qed.

Lemma sumQ_quality_pos imgs :
  imgs <> [] -> Forall (fun i => 0 < quality i) imgs -> 0 < sumQ (map quality imgs).
Proof.
  intros Hne H. induction H as [|i imgs Hi Himgs IH]; [done|]. simpl.
  destruct imgs as [|j imgs'].
  - simpl. lra.
  - assert (0 < sumQ (map quality (j :: imgs'))) by (by apply IH). lra.
Qed.



(** [toFixed 1] on a number that is not negative. *)
Lemma toFixed1_nonneg x :
  0 <= x ->
  toFixed 1 x = inject_Z (Qfloor (x * 10 + (1 # 2))) / 10.
Proof.
  intros Hx. unfold toFixed, num_lt.
  destruct (Qlt_le_dec x 0) as [H|H]; [exfalso; lra|reflexivity].
Qed.

Lemma areaMap_push_new m x :
  exists imgs, (area x, imgs) ∈ areaMap_push m x /\ x ∈ imgs.
Proof.
  induction m as [|[k imgs] m IH]; simpl.
  - exists [x]. split; apply list_elem_of_singleton; done.
  - destruct (String.eqb_spec k (area x)) as [->|Hne].
    + exists (imgs ++ [x]). split; [left|].
      apply elem_of_app. right. by apply list_elem_of_singleton.
    + destruct IH as (imgs' & Hin & Hx). exists imgs'. split; [by right|done].
Qed.

Lemma areaMap_push_old m x k imgs r :
  (k, imgs) ∈ m -> r ∈ imgs ->
  exists imgs', (k, imgs') ∈ areaMap_push m x /\ r ∈ imgs'.
Proof.
  induction m as [|[k0 imgs0] m IH]; simpl; intros Hin Hr.
  - by apply not_elem_of_nil in Hin.
  - apply elem_of_cons in Hin as [[= -> ->]|Hin].
    + destruct (String.eqb k0 (area x)).
      * exists (imgs0 ++ [x]). split; [left|]. apply elem_of_app. by left.
      * exists imgs0. split; [left|done].
    + destruct (String.eqb k0 (area x)).
      * exists imgs. split; [by right|done].
      * destruct (IH Hin Hr) as (imgs' & Hin' & Hr'). exists imgs'. split; [by right|done].
Qed.

Lemma areaMapOf_covers bestImages r :
  r ∈ bestImages ->
  exists imgs, (area r, imgs) ∈ areaMapOf bestImages /\ r ∈ imgs.
Proof.
  unfold areaMapOf. generalize (@nil (string * list ImageAnalysisResult)).
  induction bestImages as [|x l IH]; intros m Hr; simpl.
  - by apply not_elem_of_nil in Hr.
  - apply elem_of_cons in Hr as [->|Hr]; [|by apply IH].
    destruct (areaMap_push_new m x) as (imgs & Hin & Hx).
    clear IH. revert Hin Hx. generalize (areaMap_push m x) as m'. revert imgs.
    induction l as [|y l IH]; intros imgs m' Hin Hx; simpl; [by exists imgs|].
    destruct (areaMap_push_old m' y (area x) imgs x Hin Hx) as (imgs' & Hin' & Hx').
    by apply (IH imgs').
Qed.

Lemma finalAreas_of_representative loss_type bestImages r :
  r ∈ bestImages ->
  exists ar, ar ∈ finalAreasOf loss_type bestImages /\ ar_area ar = area r.
Proof.
  intros Hr. destruct (areaMapOf_covers bestImages r Hr) as (imgs & Hin & _).
  exists (areaResult loss_type (area r, imgs)). split; [|done].
  unfold finalAreasOf. apply list_elem_of_In, in_map, list_elem_of_In, Hin.
Qed.

Lemma areaMap_push_entries m x k imgs :
  (k, imgs) ∈ areaMap_push m x ->
  (k, imgs) ∈ m \/
  (k = area x /\ exists old, imgs = old ++ [x] /\ (old = [] \/ (k, old) ∈ m)).
Proof.
  induction m as [|[k0 imgs0] m IH]; simpl; intros H.
  - apply list_elem_of_singleton in H as [= -> ->]. right. split; [done|].
    exists []. by split; [|left].
  - destruct (String.eqb_spec k0 (area x)) as [Heq|Hne].
    + apply elem_of_cons in H as [[= -> ->]|H].
      * right. split; [done|]. exists imgs0. split; [done|]. right. left.
      * left. by right.
    + apply elem_of_cons in H as [[= -> ->]|H].
      * left. left.
      * destruct (IH H) as [Hin|(-> & old & -> & [->|Hold])].
        -- left. by right.
        -- right. split; [done|]. exists []. by split; [|left].
        -- right. split; [done|]. exists old. split; [done|]. right. by right.
Qed.

Lemma areaMapOf_entries bestImages k imgs :
  (k, imgs) ∈ areaMapOf bestImages ->
  imgs <> [] /\ forall y, y ∈ imgs -> y ∈ bestImages /\ area y = k.
Proof.
  unfold areaMapOf. revert k imgs.
  apply (fold_left_invariant
           (fun m => forall k imgs, (k, imgs) ∈ m ->
              imgs <> [] /\ forall y, y ∈ imgs -> y ∈ bestImages /\ area y = k)).
  { intros k imgs H. by apply not_elem_of_nil in H. }
  intros m x Hx Hm k imgs H.
  apply areaMap_push_entries in H as [H|(-> & old & -> & Hold)]; [by apply Hm|].
  split; [by destruct old|].
  intros y Hy. apply elem_of_app in Hy as [Hy|Hy].
  - destruct Hold as [->|Hold]; [by apply not_elem_of_nil in Hy|].
    by apply (Hm _ _ Hold).
  - apply list_elem_of_singleton in Hy. by subst y.
Qed.

(** ** The handler *)

(** The response is made of the accumulators left by the two phases. *)
Lemma handler_run_phases w req imgs :
  images req = Some imgs ->
  exists resp,
    handler w req = Ok resp /\
    statusCode resp = 200%nat /\
    total (source_images (body resp)) = length imgs /\
    src_analyzed (source_images (body resp)) = analyzed (run_phases w imgs) /\
    src_discarded (source_images (body resp)) = discarded (run_phases w imgs) /\
    clusters (source_images (body resp)) =
      length (groupByHash (photoData (run_phases w imgs))) /\
    areas (body resp) =
      finalAreasOf (req_loss_type req)
        (bestImagesOf (groupByHash (photoData (run_phases w imgs)))).
Proof.
  intros Himgs. unfold handler. rewrite Himgs.
  eexists. split; [reflexivity|]. by repeat split.
Qed.

Lemma fetch_step_fetched w st pu :
  fetch_step w st pu =
  match fetched w pu with
  | Some f => (st.1, st.2 ++ [Some f])
  | None => (mkAcc (photoData st.1) (analyzed st.1) (S (discarded st.1)), st.2 ++ [None])
  end.
Proof. unfold fetch_step, fetched. by destruct (fetchWithRetry w pu.1 pu.2). Qed.

Lemma fetch_phase w l acc rs :
  fold_left (fetch_step w) l (acc, rs) =
  (mkAcc (photoData acc) (analyzed acc)
     (discarded acc + count (fun pu => is_none (fetched w pu)) l),
   rs ++ map (fetched w) l).
Proof.
  revert acc rs; induction l as [|pu l IH]; intros acc rs; simpl.
  - rewrite app_nil_r. unfold count; simpl. rewrite Nat.add_0_r. by destruct acc.
  - rewrite fetch_step_fetched. unfold count. simpl.
    destruct (fetched w pu) as [f|]; simpl;
      rewrite IH; unfold count; simpl; rewrite <- app_assoc; simpl;
      f_equal; f_equal; lia.
Qed.

Lemma classify_step_outcome w st f :
  classify_step w st f =
  match outcome_of_fetched w f with
  | Analyzed r => mkAcc (photoData st ++ [r]) (S (analyzed st)) (discarded st)
  | _ => mkAcc (photoData st) (analyzed st) (S (discarded st))
  end.
Proof.
  unfold classify_step, outcome_of_fetched, runTask_hash, worker_onmessage, hashBuffer.
  destruct (detectLabels w (f_pos f) (f_buffer f)) as [Labels|]; [|done].
  destruct (classifyDamage (default [] Labels)); [done|].
  by destruct (sha1_hex w (f_buffer f)).
Qed.

Lemma classify_phase w l st :
  fold_left (classify_step w) l st =
  mkAcc (photoData st ++ omap (fun f => record_of (outcome_of_fetched w f)) l)
        (analyzed st + count (fun f => is_analyzed (outcome_of_fetched w f)) l)
        (discarded st + count (fun f => negb (is_analyzed (outcome_of_fetched w f))) l).
Proof.
  revert st; induction l as [|f l IH]; intros st; simpl.
  - unfold count; simpl. rewrite app_nil_r, !Nat.add_0_r. by destruct st.
  - rewrite IH, classify_step_outcome. unfold count. simpl.
    destruct (outcome_of_fetched w f); simpl; rewrite <- ?app_assoc; simpl;
      f_equal; lia.
Qed.

Lemma count_Permutation {A} (p : A -> bool) (l1 l2 : list A) :
  Permutation l1 l2 -> count p l1 = count p l2.
Proof.
  unfold count. induction 1 as [|x l1 l2 _ IH|x y l|l1 l2 l3 _ IH1 _ IH2]; simpl.
  - done.
  - destruct (p x); simpl; lia.
  - destruct (p x), (p y); simpl; lia.
  - lia.
Qed.

Lemma count_split {A} (p : A -> bool) (l : list A) :
  (count p l + count (fun x => negb (p x)) l = length l)%nat.
Proof.
  unfold count. induction l as [|x l IH]; simpl; [done|].
  destruct (p x); simpl; lia.
Qed.

Lemma count_fetched w (p : Outcome -> bool) (l : list (nat * string)) :
  count (fun f => p (outcome_of_fetched w f)) (omap (fetched w) l) =
  count (fun pu => negb (is_none (fetched w pu)) && p (outcome w pu)) l.
Proof.
  unfold count, outcome. induction l as [|pu l IH]; simpl; [done|].
  destruct (fetched w pu) as [f|]; simpl; [|exact IH].
  destruct (p (outcome_of_fetched w f)); simpl; [f_equal|]; exact IH.
Qed.

Lemma omap_fetched_records w (l : list (nat * string)) :
  omap (fun f => record_of (outcome_of_fetched w f)) (omap (fetched w) l) =
  omap (fun pu => record_of (outcome w pu)) l.
Proof.
  unfold outcome. induction l as [|pu l IH]; simpl; [done|].
  destruct (fetched w pu) as [f|]; simpl; [|exact IH].
  destruct (record_of (outcome_of_fetched w f)); [f_equal|]; exact IH.
Qed.

Lemma omap_id_map {A B} (f : A -> option B) (l : list A) :
  omap id (map f l) = omap f l.
Proof.
  induction l as [|x l IH]; simpl; [done|].
  destruct (f x); simpl; [f_equal|]; exact IH.
Qed.

Lemma count_analyzed_outcome w (l : list (nat * string)) :
  count (fun pu => negb (is_none (fetched w pu)) && is_analyzed (outcome w pu)) l =
  count (fun pu => is_analyzed (outcome w pu)) l.
Proof.
  unfold count, outcome. induction l as [|pu l IH]; simpl; [done|].
  destruct (fetched w pu) as [f|]; simpl; [|exact IH].
  destruct (is_analyzed (outcome_of_fetched w f)); simpl; [f_equal|]; exact IH.
Qed.

Lemma count_discarded_outcome w (l : list (nat * string)) :
  (count (fun pu => is_none (fetched w pu)) l +
   count (fun pu => negb (is_none (fetched w pu)) &&
                    negb (is_analyzed (outcome w pu))) l)%nat =
  count (fun pu => negb (is_analyzed (outcome w pu))) l.
Proof.
  unfold count, outcome. induction l as [|pu l IH]; simpl; [done|].
  destruct (fetched w pu) as [f|]; simpl; [|by rewrite IH].
  destruct (is_analyzed (outcome_of_fetched w f)); simpl; [exact IH|].
  rewrite <- IH. lia.
Qed.

(** The accumulators after the two phases, in terms of the outcome of each
    position of the request. *)
Lemma run_phases_spec w imgs :
  fair w ->
  analyzed (run_phases w imgs) =
    count (fun pu => is_analyzed (outcome w pu)) (imap pair imgs) /\
  discarded (run_phases w imgs) =
    count (fun pu => negb (is_analyzed (outcome w pu))) (imap pair imgs) /\
  Permutation (photoData (run_phases w imgs))
    (omap (fun pu => record_of (outcome w pu)) (imap pair imgs)).
Proof.
  intros Hfair. unfold run_phases.
  rewrite fetch_phase. cbn [fst snd app]. rewrite omap_id_map.
  rewrite classify_phase. cbn [photoData analyzed discarded app].
  pose proof (Hfair (omap (fetched w) (imap pair imgs))) as Hperm.
  rewrite !(count_Permutation _ _ _ Hperm).
  rewrite (count_fetched w is_analyzed).
  rewrite (count_fetched w (fun o => negb (is_analyzed o))).
  rewrite !Nat.add_0_l.
  rewrite count_analyzed_outcome, count_discarded_outcome.
  split; [done|]. split; [done|].
  rewrite <- omap_fetched_records. by apply omap_Permutation.
Qed.

(** C1. For every request with an images array, the counts of the response
    satisfy analyzed + discarded = total, where total is the length of the
    array: every position of the array is counted once, as analyzed when
    its image survives fetch, classification and hashing, and as discarded
    otherwise. *)
Theorem counts_add_up (w : World) (req : Request) (imgs : list string) :
  fair w ->
  images req = Some imgs ->
  exists resp,
    handler w req = Ok resp /\
    total (source_images (body resp)) = length imgs /\
    (src_analyzed (source_images (body resp)) +
     src_discarded (source_images (body resp)) =
     total (source_images (body resp)))%nat /\
    src_analyzed (source_images (body resp)) =
      count (fun pu => is_analyzed (outcome w pu)) (imap pair imgs) /\
    src_discarded (source_images (body resp)) =
      count (fun pu => negb (is_analyzed (outcome w pu))) (imap pair imgs).
Proof.
  intros Hfair Himgs.
  destruct (handler_run_phases w req imgs Himgs)
    as (resp & Hresp & _ & Htot & Han & Hdis & _).
  destruct (run_phases_spec w imgs Hfair) as (Ha & Hd & _).
  exists resp. rewrite Htot, Han, Hdis, Ha, Hd.
  repeat split; try done.
  rewrite count_split. apply length_imap.
Qed.

Lemma world_example_fair : fair world_example.
Proof. intros l. reflexivity. Qed.

Lemma counts_add_up_witness :
  exists resp,
    handler world_example request_example = Ok resp /\
    total (source_images (body resp)) = 5%nat /\
    (src_analyzed (source_images (body resp)) +
     src_discarded (source_images (body resp)) =
     total (source_images (body resp)))%nat /\
    src_analyzed (source_images (body resp)) = 1%nat /\
    src_discarded (source_images (body resp)) = 4%nat.
Proof.
  apply (counts_add_up world_example request_example
           ["u0"; "u1"; "u2"; "u3"; "u4"]%string).
  - intros l. reflexivity.
  - reflexivity.
Defined.

Lemma count_failures_by_kind {A} (f : A -> Outcome) (l : list A) :
  count (fun x => negb (is_analyzed (f x))) l =
  (count (fun x => is_kind FetchExhausted (f x)) l +
   count (fun x => is_kind ServiceError (f x)) l +
   count (fun x => is_kind DiscardedByRule (f x)) l +
   count (fun x => is_kind HashRejected (f x)) l)%nat.
Proof.
  unfold count. induction l as [|x l IH]; simpl; [done|].
  destruct (f x); simpl in *; lia.
Qed.

(** C9. A per-image failure never fails the request.  Whatever the fetches,
    the label service, the classification rule and the hashing do, a
    request that has an images array gets a response with status 200; each
    fetch that exhausts its retries, each failed service call, each discard
    by rule and each rejected hashing task adds one to [discarded], and the
    clusters and areas of the response are computed from the records of
    exactly the other images, each of which is in one cluster. *)
Theorem per_image_failure_is_discard (w : World) (req : Request) (imgs : list string) :
  fair w ->
  images req = Some imgs ->
  exists resp records,
    handler w req = Ok resp /\
    statusCode resp = 200%nat /\
    src_discarded (source_images (body resp)) =
      (count (fun pu => is_kind FetchExhausted (outcome w pu)) (imap pair imgs) +
       count (fun pu => is_kind ServiceError (outcome w pu)) (imap pair imgs) +
       count (fun pu => is_kind DiscardedByRule (outcome w pu)) (imap pair imgs) +
       count (fun pu => is_kind HashRejected (outcome w pu)) (imap pair imgs))%nat /\
    src_analyzed (source_images (body resp)) = length records /\
    Permutation records (omap (fun pu => record_of (outcome w pu)) (imap pair imgs)) /\
    Permutation (concat (groupByHash records)) records /\
    clusters (source_images (body resp)) = length (groupByHash records) /\
    areas (body resp) =
      finalAreasOf (req_loss_type req) (bestImagesOf (groupByHash records)).
Proof.
  intros Hfair Himgs.
  destruct (handler_run_phases w req imgs Himgs)
    as (resp & Hresp & Hstatus & _ & Han & Hdis & Hcl & Hareas).
  destruct (run_phases_spec w imgs Hfair) as (Ha & Hd & Hperm).
  exists resp, (photoData (run_phases w imgs)).
  rewrite Hdis, Hd, Han, Ha, <- count_failures_by_kind.
  repeat split; try done; [|apply groupByHash_partition].
  rewrite (Permutation_length Hperm). unfold count.
  generalize (imap pair imgs). intros l.
  induction l as [|pu l IH]; simpl; [done|].
  destruct (outcome w pu); simpl; first [exact IH | f_equal; exact IH].
Qed.

Lemma per_image_failure_is_discard_witness :
  exists resp records,
    handler world_example request_example = Ok resp /\
    statusCode resp = 200%nat /\
    src_discarded (source_images (body resp)) = (1 + 1 + 1 + 1)%nat /\
    src_analyzed (source_images (body resp)) = length records /\
    Permutation records
      [mkImage "u1" "roof" 3 1 "0123456789abcdef"] /\
    Permutation (concat (groupByHash records)) records /\
    clusters (source_images (body resp)) = length (groupByHash records) /\
    areas (body resp) = finalAreasOf "wind" (bestImagesOf (groupByHash records)).
Proof.
  apply (per_image_failure_is_discard world_example request_example
           ["u0"; "u1"; "u2"; "u3"; "u4"]%string).
  - intros l. reflexivity.
  - reflexivity.
Defined.

(** The only request-level error: a body without an images array. *)
Example handler_missing_images w :
  handler w (mkRequest "c" None "wind") = Err "TypeError: images.map is not a function".
Proof. reflexivity. Qed.

(** ** The area entries of a response *)

Lemma outcome_wellformed w pu r :
  outcome w pu = Analyzed r -> wellformed r.
Proof.
  unfold outcome, outcome_of_fetched.
  destruct (fetched w pu) as [f|]; [|done].
  destruct (detectLabels w (f_pos f) (f_buffer f)) as [Labels|]; [|done].
  destruct (classifyDamage (default [] Labels)) as [|a sev q] eqn:Hcls; [done|].
  destruct (sha1_hex w (f_buffer f)); [|done].
  intros [= <-]. by apply classifyDamage_wellformed in Hcls.
Qed.

Lemma photoData_wellformed w imgs r :
  fair w -> r ∈ photoData (run_phases w imgs) -> wellformed r.
Proof.
  intros Hfair Hr.
  destruct (run_phases_spec w imgs Hfair) as (_ & _ & Hperm).
  rewrite Hperm in Hr. apply list_elem_of_omap in Hr as (pu & _ & Hpu).
  apply (outcome_wellformed w pu).
  by destruct (outcome w pu); simplify_eq/=.
Qed.

Lemma bestImages_member images r :
  r ∈ bestImagesOf (groupByHash images) -> r ∈ images.
Proof.
  unfold bestImagesOf. intros H.
  apply list_elem_of_omap in H as (g & Hg & Hr).
  apply representative_member in Hr.
  rewrite <- (groupByHash_partition images).
  apply list_elem_of_In, in_concat. exists g. by split; apply list_elem_of_In.
Qed.

(** Every area entry of a response aggregates a non-empty list of
    representatives of that area, all of them well-formed. *)
Lemma response_areas w req imgs resp ar :
  fair w ->
  images req = Some imgs ->
  handler w req = Ok resp ->
  ar ∈ areas (body resp) ->
  exists reps,
    ar = areaResult (req_loss_type req) (ar_area ar, reps) /\
    reps <> [] /\
    Forall (fun r => r ∈ representativesOf w imgs /\ area r = ar_area ar /\ wellformed r) reps.
Proof.
  intros Hfair Himgs Hresp Har.
  destruct (handler_run_phases w req imgs Himgs)
    as (resp' & Hresp' & _ & _ & _ & _ & _ & Hareas).
  rewrite Hresp in Hresp'. injection Hresp' as <-.
  rewrite Hareas in Har. unfold finalAreasOf in Har.
  apply list_elem_of_fmap in Har as ([k reps] & -> & Hin).
  apply areaMapOf_entries in Hin as (Hne & Hreps).
  exists reps. split; [done|]. split; [done|].
  apply Forall_forall. intros r Hr. destruct (Hreps r Hr) as (Hbest & Harea).
  split; [done|]. split; [done|].
  apply (photoData_wellformed w imgs); [done|]. by apply bestImages_member.
Qed.

(** * Further properties of the code *)

(** ** [hammingDistance] *)

Lemma hamming_fold_S (f : nat -> bool) (l : list nat) (acc : nat) :
  fold_left (fun dist i => if f i then dist else S dist) l (S acc) =
  S (fold_left (fun dist i => if f i then dist else S dist) l acc).
Proof.
  revert acc; induction l as [|i l IH]; intros acc; simpl; [done|].
  destruct (f i); by rewrite IH.
Qed.

Lemma hamming_fold_shift (f : nat -> bool) (k n acc : nat) :
  fold_left (fun dist i => if f i then dist else S dist) (seq (S k) n) acc =
  fold_left (fun dist i => if f (S i) then dist else S dist) (seq k n) acc.
Proof.
  revert k acc; induction n as [|n IH]; intros k acc; simpl; [done|].
  by rewrite IH.
Qed.

Lemma hammingDistance_nil b : hammingDistance "" b = 0%nat.
Proof. reflexivity. Qed.

Lemma hammingDistance_cons c a d b :
  hammingDistance (String c a) (String d b) =
  ((if bool_decide (c = d) then 0 else 1) + hammingDistance a b)%nat.
Proof.
  unfold hammingDistance. cbn [String.length seq fold_left String.get].
  rewrite (hamming_fold_shift
             (fun i => bool_decide (String.get i (String c a) = String.get i (String d b)))).
  cbn [String.get].
  destruct (bool_decide (c = d)) eqn:Hcd.
  - apply bool_decide_eq_true in Hcd. subst d.
    by rewrite bool_decide_eq_true_2.
  - apply bool_decide_eq_false in Hcd.
    rewrite bool_decide_eq_false_2 by congruence.
    by rewrite (hamming_fold_S (fun i => bool_decide (String.get i a = String.get i b))).
Qed.

Lemma hammingDistance_cons_nil c a :
  hammingDistance (String c a) "" = S (hammingDistance a "").
Proof.
  unfold hammingDistance. cbn [String.length seq fold_left String.get].
  rewrite bool_decide_eq_false_2 by done.
  rewrite (hamming_fold_shift
             (fun i => bool_decide (String.get i (String c a) = String.get i ""))).
  rewrite (hamming_fold_S
             (fun i => bool_decide (String.get (S i) (String c a) = String.get (S i) ""))).
  done.
Qed.

Lemma hammingDistance_le_length a b : (hammingDistance a b <= String.length a)%nat.
Proof.
  revert b; induction a as [|c a IH]; intros b; [done|].
  destruct b as [|d b].
  - rewrite hammingDistance_cons_nil. simpl. specialize (IH ""). lia.
  - rewrite hammingDistance_cons. simpl. specialize (IH b). case_bool_decide; lia.
Qed.

Lemma hammingDistance_empty_r a : hammingDistance a "" = String.length a.
Proof.
  induction a as [|c a IH]; [done|].
  rewrite hammingDistance_cons_nil. simpl. by rewrite IH.
Qed.

Lemma hammingDistance_zero_prefix a b :
  hammingDistance a b = 0%nat <-> String.prefix a b = true.
Proof.
  revert b; induction a as [|c a IH]; intros b.
  - by destruct b.
  - destruct b as [|d b].
    + rewrite hammingDistance_cons_nil. simpl. split; [lia|done].
    + rewrite hammingDistance_cons. simpl.
      destruct (Ascii.ascii_dec c d) as [->|Hne].
      * rewrite bool_decide_eq_true_2 by done. simpl. apply IH.
      * rewrite bool_decide_eq_false_2 by done. split; [lia|done].
Qed.

Lemma hammingDistance_self a : hammingDistance a a = 0%nat.
Proof.
  induction a as [|c a IH]; [done|].
  rewrite hammingDistance_cons, bool_decide_eq_true_2 by done. exact IH.
Qed.

Lemma hammingDistance_sym a b :
  String.length a = String.length b -> hammingDistance a b = hammingDistance b a.
Proof.
  revert b; induction a as [|c a IH]; intros [|d b] Hlen; simpl in Hlen; try done.
  rewrite !hammingDistance_cons. rewrite (IH b) by lia.
  destruct (Ascii.ascii_dec c d) as [->|Hne].
  - done.
  - rewrite !bool_decide_eq_false_2 by congruence. done.
Qed.

Lemma hammingDistance_eq a b :
  String.length a = String.length b -> hammingDistance a b = 0%nat -> a = b.
Proof.
  revert b; induction a as [|c a IH]; intros [|d b] Hlen; simpl in Hlen; try done.
  rewrite hammingDistance_cons. intros H.
  destruct (Ascii.ascii_dec c d) as [->|Hne].
  - rewrite bool_decide_eq_true_2 in H by done. f_equal. apply IH; [lia|exact H].
  - rewrite bool_decide_eq_false_2 in H by done. simpl in H. lia.
Qed.

Lemma hammingDistance_triangle a b c :
  String.length a = String.length b ->
  (hammingDistance a c <= hammingDistance a b + hammingDistance b c)%nat.
Proof.
  revert b c; induction a as [|x a IH]; intros [|y b] c Hlen; simpl in Hlen; try done.
  destruct c as [|z c].
  - rewrite !hammingDistance_cons_nil, hammingDistance_cons.
    specialize (IH b "" ltac:(lia)). lia.
  - rewrite !hammingDistance_cons.
    specialize (IH b c ltac:(lia)).
    repeat case_bool_decide; subst; try lia. congruence.
Qed.

Lemma hammingDistance_app_r a b c :
  (String.length a <= String.length b)%nat ->
  hammingDistance a (b ++ c) = hammingDistance a b.
Proof.
  revert b; induction a as [|x a IH]; intros b Hlen; [done|].
  destruct b as [|y b]; simpl in Hlen; [lia|].
  change (String y b +:+ c) with (String y (b +:+ c)).
  rewrite !hammingDistance_cons. f_equal. apply IH. lia.
Qed.

Lemma hammingDistance_app_l a b c :
  (String.length b <= String.length a)%nat ->
  hammingDistance (a ++ c) b = (hammingDistance a b + String.length c)%nat.
Proof.
  revert b; induction a as [|x a IH]; intros b Hlen.
  - destruct b; simpl in Hlen; [|lia]. simpl. apply hammingDistance_empty_r.
  - change (String x a +:+ c) with (String x (a +:+ c)). destruct b as [|y b].
    + rewrite !hammingDistance_cons_nil, (IH ""), hammingDistance_empty_r by (simpl; lia).
      lia.
    + rewrite !hammingDistance_cons, IH by (simpl in Hlen; lia). lia.
Qed.

(** X11. On strings of the same length [hammingDistance] is a metric: it is
    0 exactly for equal strings, it is symmetric, it obeys the triangle
    inequality, and it is at most the length of the strings. *)
Theorem hammingDistance_metric (a b c : string) :
  String.length a = String.length b ->
  String.length b = String.length c ->
  (hammingDistance a b = 0%nat <-> a = b) /\
  hammingDistance a b = hammingDistance b a /\
  (hammingDistance a c <= hammingDistance a b + hammingDistance b c)%nat /\
  (hammingDistance a b <= String.length a)%nat.
Proof.
  intros Hab Hbc. repeat split.
  - by apply hammingDistance_eq.
  - intros ->. apply hammingDistance_self.
  - by apply hammingDistance_sym.
  - by apply hammingDistance_triangle.
  - apply hammingDistance_le_length.
Qed.

Lemma hammingDistance_metric_witness :
  (hammingDistance "0000" "0011" = 0%nat <-> "0000"%string = "0011"%string) /\
  hammingDistance "0000" "0011" = hammingDistance "0011" "0000" /\
  (hammingDistance "0000" "0110" <=
   hammingDistance "0000" "0011" + hammingDistance "0011" "0110")%nat /\
  (hammingDistance "0000" "0011" <= String.length "0000")%nat.
Proof.
  apply (hammingDistance_metric "0000" "0011" "0110"); reflexivity.
Defined.

(** X12. [hammingDistance] walks over the positions of its first argument
    only.  What the second string has beyond the length of the first is
    ignored, every position the first string has beyond the second counts
    as a difference, and the distance is 0 exactly when the first string
    is a prefix of the second; so a string and a proper extension of it
    are at distance 0 one way round and not the other. *)
Theorem hammingDistance_first_argument (a b c : string) :
  String.length a = String.length b ->
  hammingDistance a (b +:+ c) = hammingDistance a b /\
  hammingDistance (a +:+ c) b = (hammingDistance a b + String.length c)%nat /\
  (hammingDistance a (a +:+ c) = 0%nat /\ hammingDistance (a +:+ c) a = String.length c) /\
  forall a' b', hammingDistance a' b' = 0%nat <-> String.prefix a' b' = true.
Proof.
  intros Hab. split; [apply hammingDistance_app_r; lia|].
  split; [apply hammingDistance_app_l; lia|].
  split; [|apply hammingDistance_zero_prefix].
  split.
  - rewrite hammingDistance_app_r by lia. apply hammingDistance_self.
  - rewrite hammingDistance_app_l by lia. by rewrite hammingDistance_self.
Qed.

Lemma hammingDistance_first_argument_witness :
  hammingDistance "0000" ("0011" +:+ "ab") = hammingDistance "0000" "0011" /\
  hammingDistance ("0000" +:+ "ab") "0011" =
    (hammingDistance "0000" "0011" + String.length "ab")%nat /\
  (hammingDistance "0000" ("0000" +:+ "ab") = 0%nat /\
   hammingDistance ("0000" +:+ "ab") "0000" = String.length "ab") /\
  forall a' b', hammingDistance a' b' = 0%nat <-> String.prefix a' b' = true.
Proof.
  apply (hammingDistance_first_argument "0000" "0011" "ab"). reflexivity.
Defined.

(** ** [groupByHash] *)

Lemma greedy_member fuel l g x : g ∈ greedy fuel l -> x ∈ g -> x ∈ l.
Proof.
  revert l; induction fuel as [|fuel IH]; intros l Hg Hx; simpl in Hg.
  - destruct l; by apply not_elem_of_nil in Hg.
  - destruct l as [|seed rest]; [by apply not_elem_of_nil in Hg|].
    apply elem_of_cons in Hg as [->|Hg].
    + apply elem_of_cons in Hx as [->|Hx]; [left|right].
      apply list_elem_of_In, filter_In in Hx as [Hx _]. by apply list_elem_of_In.
    + right. specialize (IH _ Hg Hx).
      apply list_elem_of_In, filter_In in IH as [IH _]. by apply list_elem_of_In.
Qed.

Lemma close_same_hash seed x y : hash x = hash y -> close seed x = close seed y.
Proof. unfold close. by intros ->. Qed.

Lemma close_seed_same_hash seed y : hash seed = hash y -> close seed y = true.
Proof.
  unfold close. intros <-. rewrite hammingDistance_self. done.
Qed.

Lemma greedy_same_hash fuel l g x y :
  (length l <= fuel)%nat ->
  g ∈ greedy fuel l -> x ∈ g -> y ∈ l -> hash x = hash y -> y ∈ g.
Proof.
  revert l; induction fuel as [|fuel IH]; intros l Hfuel Hg Hx Hy Hh.
  - destruct l; by apply not_elem_of_nil in Hg.
  - destruct l as [|seed rest]; [by apply not_elem_of_nil in Hg|].
    simpl in Hg, Hfuel.
    apply elem_of_cons in Hg as [->|Hg].
    + apply elem_of_cons in Hy as [->|Hy]; [left|]. right.
      apply list_elem_of_In, filter_In. split; [by apply list_elem_of_In|].
      apply elem_of_cons in Hx as [->|Hx].
      * by apply close_seed_same_hash.
      * apply list_elem_of_In, filter_In in Hx as [_ Hx].
        by rewrite <- (close_same_hash seed x y).
    + assert (Hxr : x ∈ List.filter (fun x => negb (close seed x)) rest)
        by (by apply (greedy_member fuel _ g)).
      apply list_elem_of_In, filter_In in Hxr as [_ Hxc].
      apply (IH (List.filter (fun x => negb (close seed x)) rest)); try done.
      * etrans; [apply filter_length_le|]. lia.
      * apply list_elem_of_In, filter_In.
        apply elem_of_cons in Hy as [->|Hy].
        -- rewrite (close_seed_same_hash seed x) in Hxc by done. done.
        -- split; [by apply list_elem_of_In|].
           by rewrite <- (close_same_hash seed x y).
Qed.

Lemma filter_sublist {A} (p : A -> bool) (l : list A) : sublist (List.filter p l) l.
Proof.
  induction l as [|x l IH]; simpl; [done|].
  destruct (p x); by constructor.
Qed.

Lemma greedy_sublist fuel l g : g ∈ greedy fuel l -> sublist g l.
Proof.
  revert l; induction fuel as [|fuel IH]; intros l Hg; simpl in Hg.
  - destruct l; by apply not_elem_of_nil in Hg.
  - destruct l as [|seed rest]; [by apply not_elem_of_nil in Hg|].
    apply elem_of_cons in Hg as [->|Hg].
    + constructor. apply filter_sublist.
    + apply sublist_cons. etrans; [by apply IH|]. apply filter_sublist.
Qed.

Lemma greedy_length fuel l : (length (greedy fuel l) <= length l)%nat.
Proof.
  revert l; induction fuel as [|fuel IH]; intros l; simpl.
  - destruct l; simpl; lia.
  - destruct l as [|seed rest]; simpl; [lia|].
    specialize (IH (List.filter (fun x => negb (close seed x)) rest)).
    pose proof (filter_length_le (fun x => negb (close seed x)) rest). lia.
Qed.

Lemma filter_all {A} (p : A -> bool) (l : list A) :
  Forall (fun x => p x = true) l -> List.filter p l = l.
Proof. induction 1 as [|x l Hx _ IH]; simpl; [done|]. by rewrite Hx, IH. Qed.

Lemma filter_none {A} (p : A -> bool) (l : list A) :
  Forall (fun x => p x = false) l -> List.filter p l = [].
Proof. induction 1 as [|x l Hx _ IH]; simpl; [done|]. by rewrite Hx. Qed.

Lemma greedy_pairwise_far fuel l :
  (length l <= fuel)%nat -> pairwise_far l -> greedy fuel l = map (fun x => [x]) l.
Proof.
  revert l; induction fuel as [|fuel IH]; intros l Hfuel Hfar.
  - destruct l; [done|simpl in Hfuel; lia].
  - destruct l as [|seed rest]; [done|]. simpl in *. destruct Hfar as [Hseed Hrest].
    rewrite (filter_none (close seed)) by done.
    rewrite (filter_all (fun x => negb (close seed x))).
    + rewrite IH; [done|lia|done].
    + eapply Forall_impl; [exact Hseed|]. by intros x ->.
Qed.

Lemma greedy_all_close fuel seed rest :
  Forall (fun y => close seed y = true) rest ->
  greedy (S fuel) (seed :: rest) = [seed :: rest].
Proof.
  intros H. simpl. rewrite (filter_all (close seed)) by done.
  rewrite (filter_none (fun x => negb (close seed x))).
  - by destruct fuel.
  - eapply Forall_impl; [exact H|]. by intros x ->.
Qed.

Lemma filter_eq_Forall {A} (p : A -> bool) (l : list A) :
  List.filter p l = l -> Forall (fun x => p x = true) l.
Proof.
  induction l as [|x l IH]; intros H; [constructor|].
  cbn [List.filter] in H. destruct (p x) eqn:Hp.
  - injection H as H. constructor; [done|by apply IH].
  - pose proof (filter_length_le p l) as Hlen. rewrite H in Hlen.
    cbn [length] in Hlen. lia.
Qed.

Lemma filter_nil_Forall {A} (p : A -> bool) (l : list A) :
  List.filter p l = [] -> Forall (fun x => p x = false) l.
Proof.
  induction l as [|x l IH]; intros H; [constructor|].
  cbn [List.filter] in H. destruct (p x) eqn:Hp; [done|].
  constructor; [done|by apply IH].
Qed.

Lemma greedy_singletons fuel : forall l,
  (length l <= fuel)%nat ->
  greedy fuel l = map (fun x => [x]) l -> pairwise_far l.
Proof.
  induction fuel as [|fuel IH]; intros l Hl H.
  - destruct l; [done|simpl in Hl; lia].
  - destruct l as [|seed rest]; [done|].
    cbn [greedy map] in H. injection H as Hclose Hrest.
    apply filter_nil_Forall in Hclose.
    assert (Hkeep : List.filter (fun x => negb (close seed x)) rest = rest).
    { apply filter_all. eapply Forall_impl; [exact Hclose|].
      intros x Hx. cbn beta in Hx |- *. by rewrite Hx. }
    rewrite Hkeep in Hrest. split; [done|].
    apply IH; [simpl in Hl; lia|done].
Qed.

(** X13. Records with the same fingerprint are never separated: when a
    record is in a cluster, every record of the input with the same
    fingerprint is in that cluster too. *)
Theorem groupByHash_same_hash (images g : list ImageAnalysisResult)
    (x y : ImageAnalysisResult) :
  g ∈ groupByHash images -> x ∈ g -> y ∈ images -> hash x = hash y -> y ∈ g.
Proof.
  rewrite groupByHash_greedy. unfold greedyClusters. intros Hg Hx Hy Hh.
  by apply (greedy_same_hash (length images) images g x y).
Qed.

Lemma groupByHash_same_hash_witness :
  mkImage "A2" "siding" 3 (6 # 10) "0000" ∈
    [img_A; mkImage "A2" "siding" 3 (6 # 10) "0000"].
Proof.
  apply (groupByHash_same_hash
           [img_A; img_D; mkImage "A2" "siding" 3 (6 # 10) "0000"]
           [img_A; mkImage "A2" "siding" 3 (6 # 10) "0000"]
           img_A (mkImage "A2" "siding" 3 (6 # 10) "0000")).
  - apply list_elem_of_here.
  - apply list_elem_of_here.
  - apply list_elem_of_further, list_elem_of_further, list_elem_of_here.
  - reflexivity.
Defined.

(** X14. [groupByHash] rearranges the records into clusters and loses
    none: the clusters put end to end are a permutation of the input, no
    cluster is empty, every cluster lists its records in the order of the
    input, there are at most as many clusters as records and at least one
    when there is a record, and the first cluster starts with the first
    record. *)
Theorem groupByHash_keeps_order (images : list ImageAnalysisResult) :
  Permutation (concat (groupByHash images)) images /\
  Forall (fun g => g <> [] /\ sublist g images) (groupByHash images) /\
  (length (groupByHash images) <= length images)%nat /\
  (images <> [] -> groupByHash images <> []) /\
  head (concat (groupByHash images)) = head images.
Proof.
  split; [apply groupByHash_partition|].
  split.
  { apply Forall_forall. intros g Hg. split; [by eapply groupByHash_nonempty|].
    rewrite groupByHash_greedy in Hg. by eapply greedy_sublist. }
  rewrite groupByHash_greedy. unfold greedyClusters.
  split; [apply greedy_length|]. split.
  - destruct images; [done|]. intros _. cbn [length greedy]. done.
  - destruct images; done.
Qed.

(** X15. The two extreme results of [groupByHash].  Every record is alone
    in its cluster exactly when no record is within distance 3 of an
    earlier one, and there is one cluster with all the records exactly
    when every record is within distance 3 of the first one. *)
Theorem groupByHash_extremes (seed : ImageAnalysisResult)
    (rest : list ImageAnalysisResult) :
  (groupByHash (seed :: rest) = map (fun x => [x]) (seed :: rest) <->
   pairwise_far (seed :: rest)) /\
  (groupByHash (seed :: rest) = [seed :: rest] <->
   Forall (fun y => close seed y = true) rest) /\
  groupByHash [] = [].
Proof.
  rewrite groupByHash_greedy. unfold greedyClusters. split; [split|split; [split|done]].
  - by apply greedy_singletons.
  - by apply greedy_pairwise_far.
  - cbn [length greedy]. intros H. injection H as H _. by apply filter_eq_Forall.
  - apply greedy_all_close.
Qed.

(** ** [classifyDamage] *)

Lemma cls_step_blurry st L :
  st_blurry (cls_step st L) = st_blurry st || isBlurLabel L.
Proof.
  unfold cls_step, isBlurLabel, passes, num_ge.
  destruct (num_lt (label_confidence L) 50); cbn [st_blurry negb andb].
  - by rewrite orb_false_r.
  - destruct (arr_includes _ (label_name L)), (st_blurry st); done.
Qed.

Lemma cls_step_dark st L :
  st_dark (cls_step st L) = st_dark st || isDarkLabel L.
Proof.
  unfold cls_step, isDarkLabel, passes, num_ge.
  destruct (num_lt (label_confidence L) 50); cbn [st_dark negb andb].
  - by rewrite orb_false_r.
  - destruct (arr_includes _ (label_name L)), (st_dark st); done.
Qed.

Lemma cls_fold_blurry labels st :
  st_blurry (fold_left cls_step labels st) = st_blurry st || existsb isBlurLabel labels.
Proof.
  revert st; induction labels as [|L labels IH]; intros st; simpl.
  - by rewrite orb_false_r.
  - by rewrite IH, cls_step_blurry, orb_assoc.
Qed.

Lemma cls_fold_dark labels st :
  st_dark (fold_left cls_step labels st) = st_dark st || existsb isDarkLabel labels.
Proof.
  revert st; induction labels as [|L labels IH]; intros st; simpl.
  - by rewrite orb_false_r.
  - by rewrite IH, cls_step_dark, orb_assoc.
Qed.

Lemma cls_fold_area labels st :
  st_area (fold_left cls_step labels st) =
  match lastArea labels with Some a => Some a | None => st_area st end.
Proof.
  unfold lastArea.
  revert st; induction labels as [|L labels IH]; intros st; [done|].
  cbn [fold_left]. rewrite IH, cls_step_area. cbn [omap list_omap].
  destruct (area_of_label L) as [a|]; [|done].
  change (list_omap _ _ area_of_label labels) with (omap area_of_label labels).
  destruct (omap area_of_label labels) as [|b l] eqn:E; [done|].
  cbn [last]. change (last (b :: l)) with (last (b :: l)).
  destruct (proj2 (last_is_Some (b :: l)) ltac:(done)) as [c Hc].
  by rewrite Hc.
Qed.

(** The result of [classifyDamage] in the words of the specification. *)
Lemma classifyDamage_normal labels :
  classifyDamage labels =
  if bool_decide (lastArea labels = None) && (length (damageEvidence labels) =? 0)%nat
  then Discard
  else Keep (default "unknown"%string (lastArea labels))
            (Math_min 4 (Math_round (codeAverage (damageEvidence labels) / 25)))
            (if degraded labels then 6 # 10 else 1).
Proof.
  unfold classifyDamage, degraded, codeAverage.
  rewrite cls_loop_damage. unfold cls_loop.
  rewrite cls_fold_area, cls_fold_blurry, cls_fold_dark. simpl.
  by destruct (lastArea labels).
Qed.

Lemma omap_area_filter_passes labels :
  omap area_of_label (List.filter passes labels) = omap area_of_label labels.
Proof.
  induction labels as [|L labels IH]; [done|]. cbn [List.filter].
  destruct (passes L) eqn:Hp.
  - cbn [omap list_omap]. destruct (area_of_label L); [f_equal|]; exact IH.
  - cbn [omap list_omap].
    assert (HL : area_of_label L = None) by (unfold area_of_label; by rewrite Hp).
    rewrite HL. exact IH.
Qed.

Lemma filter_filter_passes (p : Label -> bool) labels :
  List.filter (fun L => passes L && p L) (List.filter passes labels) =
  List.filter (fun L => passes L && p L) labels.
Proof.
  induction labels as [|L labels IH]; [done|]. cbn [List.filter].
  destruct (passes L) eqn:Hp; cbn [List.filter andb]; rewrite ?Hp; cbn [andb].
  - destruct (p L); [f_equal|]; exact IH.
  - exact IH.
Qed.

Lemma existsb_filter_passes (p : Label -> bool) labels :
  existsb (fun L => passes L && p L) (List.filter passes labels) =
  existsb (fun L => passes L && p L) labels.
Proof.
  induction labels as [|L labels IH]; [done|]. cbn [List.filter].
  destruct (passes L) eqn:Hp; cbn [existsb]; rewrite ?Hp; cbn [andb orb].
  - by rewrite IH.
  - exact IH.
Qed.

(** X1. Labels under the confidence floor of 50 play no part: dropping them
    from the list leaves the whole result of [classifyDamage] unchanged,
    the discard decision, the area, the severity and the quality score. *)
Theorem classify_ignores_low_confidence labels :
  classifyDamage (List.filter passes labels) = classifyDamage labels.
Proof.
  rewrite !classifyDamage_normal.
  unfold lastArea, degraded, damageEvidence, isDamageEvidence, isBlurLabel, isDarkLabel.
  rewrite omap_area_filter_passes.
  rewrite (filter_filter_passes (fun L => hasDamageKeyword (label_name L))).
  rewrite (existsb_filter_passes (fun L => arr_includes ["blur"; "blurry"]%string (label_name L))).
  rewrite (existsb_filter_passes (fun L => arr_includes ["dark"; "shadow"]%string (label_name L))).
  done.
Qed.

Lemma same_label_passes L1 L2 : same_label L1 L2 -> passes L1 = passes L2.
Proof. unfold passes. by intros [_ ->]. Qed.

Lemma same_label_area L1 L2 : same_label L1 L2 -> area_of_label L1 = area_of_label L2.
Proof.
  intros H. unfold area_of_label. rewrite (same_label_passes _ _ H).
  destruct H as [-> _]. done.
Qed.

Lemma same_label_evidence L1 L2 :
  same_label L1 L2 -> isDamageEvidence L1 = isDamageEvidence L2.
Proof.
  intros H. unfold isDamageEvidence. rewrite (same_label_passes _ _ H).
  destruct H as [-> _]. done.
Qed.

Lemma same_label_blur L1 L2 : same_label L1 L2 -> isBlurLabel L1 = isBlurLabel L2.
Proof.
  intros H. unfold isBlurLabel. rewrite (same_label_passes _ _ H).
  destruct H as [-> _]. done.
Qed.

Lemma same_label_dark L1 L2 : same_label L1 L2 -> isDarkLabel L1 = isDarkLabel L2.
Proof.
  intros H. unfold isDarkLabel. rewrite (same_label_passes _ _ H).
  destruct H as [-> _]. done.
Qed.

Lemma same_labels_components l1 l2 :
  Forall2 same_label l1 l2 ->
  omap area_of_label l1 = omap area_of_label l2 /\
  Forall2 same_label (damageEvidence l1) (damageEvidence l2) /\
  existsb isBlurLabel l1 = existsb isBlurLabel l2 /\
  existsb isDarkLabel l1 = existsb isDarkLabel l2.
Proof.
  induction 1 as [|L1 L2 l1 l2 HL _ (IHa & IHe & IHb & IHd)]; [by repeat split|].
  cbn [omap list_omap existsb]. unfold damageEvidence in *. cbn [List.filter].
  rewrite (same_label_area _ _ HL), (same_label_evidence _ _ HL),
    (same_label_blur _ _ HL), (same_label_dark _ _ HL).
  repeat split.
  - destruct (area_of_label L2); [f_equal|]; exact IHa.
  - destruct (isDamageEvidence L2); [constructor|]; done.
  - by rewrite IHb.
  - by rewrite IHd.
Qed.

Lemma same_labels_sum ev1 ev2 (x : Q) :
  Forall2 same_label ev1 ev2 ->
  fold_left (fun sum l => sum + label_confidence l) ev1 x =
  fold_left (fun sum l => sum + label_confidence l) ev2 x.
Proof.
  intros H; revert x; induction H as [|L1 L2 l1 l2 [_ HL] _ IH]; intros x; [done|].
  simpl. rewrite HL. apply IH.
Qed.

(** X2. [classifyDamage] reads a label only through its lowercased name and
    its confidence: two label lists that agree position by position on
    [(L.Name || '').toLowerCase()] and on [L.Confidence || 0] get the same
    result.  In particular the letter case of a name, a missing name
    against an empty one and a missing confidence against 0 make no
    difference. *)
Theorem classify_depends_on_name_and_confidence l1 l2 :
  Forall2 same_label l1 l2 -> classifyDamage l1 = classifyDamage l2.
Proof.
  intros H. rewrite !classifyDamage_normal.
  destruct (same_labels_components l1 l2 H) as (Ha & He & Hb & Hd).
  unfold lastArea, degraded, codeAverage, sumConfidence.
  rewrite Ha, Hb, Hd, (Forall2_length _ _ _ He), (same_labels_sum _ _ 0 He).
  done.
Qed.

Lemma classify_depends_on_name_and_confidence_witness :
  classifyDamage [mkLabel (Some "ROOF Damage"%string) (Some 90); mkLabel None (Some 80)] =
  classifyDamage [mkLabel (Some "roof damage"%string) (Some 90);
                  mkLabel (Some ""%string) (Some 80)].
Proof.
  apply (classify_depends_on_name_and_confidence
           [mkLabel (Some "ROOF Damage"%string) (Some 90); mkLabel None (Some 80)]
           [mkLabel (Some "roof damage"%string) (Some 90);
            mkLabel (Some ""%string) (Some 80)]).
  repeat constructor.
Defined.

Lemma sumConfidence_Permutation ev1 ev2 :
  Permutation ev1 ev2 -> sumConfidence ev1 == sumConfidence ev2.
Proof.
  rewrite !sumConfidence_sumOf.
  induction 1 as [|x l1 l2 _ IH|x y l|l1 l2 l3 _ IH1 _ IH2]; simpl.
  - reflexivity.
  - by rewrite IH.
  - ring.
  - by rewrite IH1.
Qed.

Lemma filter_Permutation {A} (p : A -> bool) (l1 l2 : list A) :
  Permutation l1 l2 -> Permutation (List.filter p l1) (List.filter p l2).
Proof.
  induction 1 as [|x l1 l2 _ IH|x y l|l1 l2 l3 _ IH1 _ IH2]; simpl.
  - done.
  - destruct (p x); [by constructor|done].
  - destruct (p x), (p y); try done. apply perm_swap.
  - by etrans.
Qed.

Lemma existsb_Permutation {A} (p : A -> bool) (l1 l2 : list A) :
  Permutation l1 l2 -> existsb p l1 = existsb p l2.
Proof.
  induction 1 as [|x l1 l2 _ IH|x y l|l1 l2 l3 _ IH1 _ IH2]; simpl.
  - done.
  - by rewrite IH.
  - by destruct (p x), (p y).
  - by etrans.
Qed.

Lemma lastArea_None labels : lastArea labels = None <-> omap area_of_label labels = [].
Proof.
  unfold lastArea. destruct (omap area_of_label labels) as [|a l] eqn:E; [done|].
  split; [|done]. intros H.
  destruct (proj2 (last_is_Some (a :: l)) ltac:(done)) as [c Hc]. congruence.
Qed.

Lemma Math_round_comp x y : x == y -> Math_round x = Math_round y.
Proof. intros H. unfold Math_round. by rewrite H. Qed.

(** X3. The order of the labels matters for the area only: two lists with
    the same labels in another order are both discarded or both kept, and
    when they are kept they get the same severity and the same quality
    score (the sum of the confidences being taken in exact arithmetic). *)
Theorem classify_order_independent l1 l2 :
  Permutation l1 l2 ->
  match classifyDamage l1, classifyDamage l2 with
  | Discard, Discard => True
  | Keep _ s1 q1, Keep _ s2 q2 => s1 = s2 /\ q1 = q2
  | _, _ => False
  end.
Proof.
  intros H. rewrite !classifyDamage_normal.
  assert (He : Permutation (damageEvidence l1) (damageEvidence l2))
    by (by apply filter_Permutation).
  assert (Ha : lastArea l1 = None <-> lastArea l2 = None).
  { rewrite !lastArea_None.
    pose proof (omap_Permutation area_of_label _ _ H) as Hp.
    split; intros E; rewrite E in Hp.
    - by apply Permutation_nil_l in Hp.
    - by apply Permutation_nil_r in Hp. }
  unfold degraded.
  rewrite (existsb_Permutation isBlurLabel _ _ H), (existsb_Permutation isDarkLabel _ _ H).
  rewrite (Permutation_length He).
  assert (Hs : Math_round (codeAverage (damageEvidence l1) / 25)
             = Math_round (codeAverage (damageEvidence l2) / 25)).
  { apply Math_round_comp. unfold codeAverage.
    by rewrite (Permutation_length He), (sumConfidence_Permutation _ _ He). }
  rewrite Hs.
  destruct (lastArea l1) as [a1|], (lastArea l2) as [a2|]; simpl;
    try (destruct (length (damageEvidence l2) =? 0)%nat; done).
  - by destruct Ha as [_ Ha]; specialize (Ha eq_refl).
  - by destruct Ha as [Ha _]; specialize (Ha eq_refl).
Qed.

Lemma classify_order_independent_witness :
  match classifyDamage hail_and_wind, classifyDamage (rev hail_and_wind) with
  | Discard, Discard => True
  | Keep _ s1 q1, Keep _ s2 q2 => s1 = s2 /\ q1 = q2
  | _, _ => False
  end.
Proof.
  apply (classify_order_independent hail_and_wind (rev hail_and_wind)).
  apply Permutation_rev.
Defined.

Lemma sumOf_ge_50 ev :
  Forall (fun L => passes L = true) ev ->
  50 * inject_Z (Z.of_nat (length ev)) <= sumOf ev.
Proof.
  induction 1 as [|L ev HL _ IH]; [by vm_compute|].
  cbn [length sumOf foldr]. fold (sumOf ev).
  apply passes_confidence in HL.
  rewrite Nat2Z.inj_succ, <- Z.add_1_r, inject_Z_plus.
  change (inject_Z 1) with 1. lra.
Qed.

Lemma codeAverage_ge_50 ev :
  ev <> [] -> Forall (fun L => passes L = true) ev -> 50 <= codeAverage ev.
Proof.
  intros Hne Hp. unfold codeAverage.
  destruct ev as [|L ev]; [done|]. cbn [length Nat.eqb].
  rewrite sumConfidence_sumOf.
  apply Qle_shift_div_l.
  - change 0 with (inject_Z 0). rewrite <- Zlt_Qlt. simpl; lia.
  - by apply (sumOf_ge_50 (L :: ev)).
Qed.

(** X4. The severity of a kept image is never 1: it is 0 exactly when no
    damage evidence was collected, and 2, 3 or 4 otherwise, because every
    evidence label has a confidence of at least 50. *)
Theorem severity_never_one labels a sev q :
  classifyDamage labels = Keep a sev q ->
  (damageEvidence labels = [] /\ sev = 0) \/
  (damageEvidence labels <> [] /\ (sev = 2 \/ sev = 3 \/ sev = 4)).
Proof.
  rewrite classifyDamage_normal. destruct (_ && _); [done|].
  intros [= _ <- _].
  destruct (damageEvidence labels) as [|L ev] eqn:Hev; [by left|right].
  split; [done|].
  assert (Havg : 50 <= codeAverage (L :: ev)).
  { apply codeAverage_ge_50; [done|]. rewrite <- Hev.
    apply Forall_forall. intros L'. apply damageEvidence_passes. }
  set (x := codeAverage (L :: ev) / 25) in *.
  assert (Hx : 2 <= x) by (unfold x; apply Qle_shift_div_l; lra).
  unfold Math_round, Math_min, num_lt.
  assert (Hr : (2 <= Qfloor (x + (1 # 2)))%Z).
  { change 2%Z with (Qfloor 2). apply Qfloor_resp_le. lra. }
  destruct (Qlt_le_dec (inject_Z (Qfloor (x + (1 # 2)))) 4) as [Hlt|Hge]; [|by right; right].
  change 4 with (inject_Z 4) in Hlt. rewrite <- Zlt_Qlt in Hlt.
  assert (Hcases : Qfloor (x + (1 # 2)) = 2%Z \/ Qfloor (x + (1 # 2)) = 3%Z) by lia.
  destruct Hcases as [-> | ->]; [by left|by right; left].
Qed.

Lemma severity_never_one_witness :
  (damageEvidence hail_and_wind = [] /\ 3 = 0) \/
  (damageEvidence hail_and_wind <> [] /\ (3 = 2 \/ 3 = 3 \/ 3 = 4)).
Proof.
  apply (severity_never_one hail_and_wind "unknown" 3 1). reflexivity.
Defined.

(** X5. The quality score of a kept image takes two values only: it is 0.6
    when some label of confidence at least 50 is named blur, blurry, dark or
    shadow (in any letter case), and 1 when there is no such label. *)
Theorem quality_score_degraders labels a sev q :
  classifyDamage labels = Keep a sev q ->
  (q = 6 # 10 /\
   exists L, L ∈ labels /\ passes L = true /\
             arr_includes ["blur"; "blurry"; "dark"; "shadow"]%string (label_name L) = true) \/
  (q = 1 /\
   forall L, L ∈ labels -> passes L = true ->
             arr_includes ["blur"; "blurry"; "dark"; "shadow"]%string (label_name L) = false).
Proof.
  rewrite classifyDamage_normal. destruct (_ && _); [done|].
  intros [= _ _ <-]. unfold degraded.
  destruct (existsb isBlurLabel labels || existsb isDarkLabel labels) eqn:Hd.
  - left. split; [done|].
    apply orb_prop in Hd as [Hd|Hd]; apply existsb_exists in Hd as (L & HL & HLp);
      exists L; (split; [by apply list_elem_of_In|]);
      apply andb_prop in HLp as [Hp Hn]; (split; [done|]).
    + unfold arr_includes in *. simpl in *.
      destruct (String.eqb (label_name L) "blur"), (String.eqb (label_name L) "blurry"); done.
    + unfold arr_includes in *. simpl in *.
      destruct (String.eqb (label_name L) "dark"), (String.eqb (label_name L) "shadow");
        try done; by rewrite !orb_true_r.
  - right. split; [done|]. intros L HL Hp.
    apply orb_false_elim in Hd as [Hb Hk].
    assert (HLb : isBlurLabel L = false).
    { destruct (isBlurLabel L) eqn:E; [|done].
      rewrite <- Hb. symmetry. apply existsb_exists. exists L.
      split; [by apply list_elem_of_In|done]. }
    assert (HLd : isDarkLabel L = false).
    { destruct (isDarkLabel L) eqn:E; [|done].
      rewrite <- Hk. symmetry. apply existsb_exists. exists L.
      split; [by apply list_elem_of_In|done]. }
    unfold isBlurLabel, isDarkLabel in *. rewrite Hp in *. simpl in *.
    unfold arr_includes in *. simpl in *.
    destruct (String.eqb (label_name L) "blur"), (String.eqb (label_name L) "blurry"),
      (String.eqb (label_name L) "dark"), (String.eqb (label_name L) "shadow"); done.
Qed.

Lemma quality_score_degraders_witness :
  ((6 # 10) = 6 # 10 /\
   exists L, L ∈ roof_blurry /\ passes L = true /\
             arr_includes ["blur"; "blurry"; "dark"; "shadow"]%string (label_name L) = true) \/
  ((6 # 10) = 1 /\
   forall L, L ∈ roof_blurry -> passes L = true ->
             arr_includes ["blur"; "blurry"; "dark"; "shadow"]%string (label_name L) = false).
Proof.
  apply (quality_score_degraders roof_blurry "roof" 0 (6 # 10)). reflexivity.
Defined.

Lemma prefix_includes b s : String.prefix b s = true -> str_includes s b = true.
Proof. destruct s; simpl; by intros ->. Qed.

Lemma prefix_app_includes a b s :
  String.prefix (a +:+ b) s = true -> str_includes s b = true.
Proof.
  revert s; induction a as [|c a IH]; intros s H.
  - by apply prefix_includes.
  - destruct s as [|d s]; [done|].
    change (String c a +:+ b) with (String c (a +:+ b)) in H. simpl in H.
    destruct (Ascii.ascii_dec c d); [|done].
    simpl. rewrite (IH s H). by rewrite orb_true_r.
Qed.

Lemma includes_app a b s :
  str_includes s (a +:+ b) = true -> str_includes s b = true.
Proof.
  induction s as [|d s IH]; simpl.
  - rewrite orb_false_r. intros H.
    exact (prefix_app_includes a b "" H).
  - intros H. apply orb_prop in H as [H|H].
    + exact (prefix_app_includes a b (String d s) H).
    + rewrite (IH H). by rewrite orb_true_r.
Qed.

(** X6. Three of the six damage keywords decide the test: a name contains
    one of the keywords exactly when it contains [damage],
    [shingle uplift] or [material detachment]; the keywords [wind damage],
    [hail damage] and [roof damage] never add a match. *)
Theorem damage_keywords_redundant name :
  hasDamageKeyword name =
  str_includes name "damage" || str_includes name "shingle uplift" ||
  str_includes name "material detachment".
Proof.
  unfold hasDamageKeyword, damageKeywords. cbn [existsb].
  pose proof (includes_app "wind " "damage" name) as Hw.
  pose proof (includes_app "hail " "damage" name) as Hh.
  pose proof (includes_app "roof " "damage" name) as Hr.
  change ("wind " +:+ "damage")%string with "wind damage"%string in Hw.
  change ("hail " +:+ "damage")%string with "hail damage"%string in Hh.
  change ("roof " +:+ "damage")%string with "roof damage"%string in Hr.
  destruct (str_includes name "damage") eqn:Hd; [done|].
  destruct (str_includes name "wind damage"); [by specialize (Hw eq_refl)|].
  destruct (str_includes name "hail damage"); [by specialize (Hh eq_refl)|].
  destruct (str_includes name "roof damage"); [by specialize (Hr eq_refl)|].
  simpl. by rewrite !orb_false_r.
Qed.

(** ** [fetchWithRetry] *)

Lemma fetch_loop_S attempt retries i n :
  fetch_loop attempt retries i (S n) =
  match attempt i with
  | Some b => Ok b
  | None => if (i =? retries - 1)%nat then Err "Fetch failed"
            else fetch_loop attempt retries (S i) n
  end.
Proof. reflexivity. Qed.

Lemma fetch_loop_spec attempt retries n : forall i,
  (i + S n = retries)%nat ->
  match fetch_loop attempt retries i (S n) with
  | Ok b => exists k, (i <= k < retries)%nat /\ attempt k = Some b /\
                      forall j, (i <= j < k)%nat -> attempt j = None
  | Err msg => msg = "Fetch failed"%string /\
               forall j, (i <= j < retries)%nat -> attempt j = None
  end.
Proof.
  induction n as [|n IH]; intros i Hi; rewrite fetch_loop_S.
  - destruct (attempt i) as [b|] eqn:Hb.
    + exists i. repeat split; [lia..|done|intros j Hj; lia].
    + replace (i =? retries - 1)%nat with true by (symmetry; apply Nat.eqb_eq; lia).
      split; [done|]. intros j Hj. by replace j with i by lia.
  - destruct (attempt i) as [b|] eqn:Hb.
    + exists i. repeat split; [lia..|done|intros j Hj; lia].
    + replace (i =? retries - 1)%nat with false by (symmetry; apply Nat.eqb_neq; lia).
      specialize (IH (S i) ltac:(lia)).
      destruct (fetch_loop attempt retries (S i) (S n)) as [b|msg].
      * destruct IH as (k & Hk & Hkb & Hbefore).
        exists k. repeat split; [lia..|done|].
        intros j Hj. destruct (decide (j = i)) as [->|Hne]; [done|]. apply Hbefore. lia.
      * destruct IH as (-> & Hall). split; [done|].
        intros j Hj. destruct (decide (j = i)) as [->|Hne]; [done|]. apply Hall. lia.
Qed.

Lemma fetch_loop_ext a1 a2 retries n : forall i,
  (forall j, (i <= j < i + n)%nat -> a1 j = a2 j) ->
  fetch_loop a1 retries i n = fetch_loop a2 retries i n.
Proof.
  induction n as [|n IH]; intros i H; [done|]. rewrite !fetch_loop_S.
  rewrite <- (H i) by lia. destruct (a1 i); [done|].
  destruct (i =? retries - 1)%nat; [done|]. apply IH. intros j Hj. apply H. lia.
Qed.

(** X7. [fetchWithRetry] as the handler calls it makes at most three
    attempts: it returns the body of the first attempt that succeeds, and no
    attempt is made after it; it fails, with the message [Fetch failed],
    exactly when the three attempts fail. *)
Theorem fetchWithRetry_three_attempts (w : World) (pos : nat) (u : string) :
  match fetchWithRetry w pos u with
  | Ok b => exists k, (k < 3)%nat /\ http_fetch w pos u k = Some b /\
                      forall j, (j < k)%nat -> http_fetch w pos u j = None
  | Err msg => msg = "Fetch failed"%string /\
               forall j, (j < 3)%nat -> http_fetch w pos u j = None
  end.
Proof.
  unfold fetchWithRetry.
  pose proof (fetch_loop_spec (http_fetch w pos u) 3 2 0%nat eq_refl) as H.
  destruct (fetch_loop (http_fetch w pos u) 3 0 3) as [b|msg].
  - destruct H as (k & Hk & Hb & Hbefore).
    exists k. repeat split; [lia|done|]. intros j Hj. apply Hbefore. lia.
  - destruct H as (-> & Hall). split; [done|]. intros j Hj. apply Hall. lia.
Qed.

(** X8. The retry loop for any number [retries] of attempts: the result is
    the first success among the attempts [0 .. retries - 1]; when all of
    them fail the error is [Fetch failed], and [Unreachable] when
    [retries] is 0, the only way to reach the last line of the function.
    Attempts from [retries] on are never made: the result does not depend
    on them. *)
Theorem fetch_retries_first_success (attempt : nat -> option Buffer) (retries : nat) :
  match fetch_loop attempt retries 0 retries with
  | Ok b => exists k, (k < retries)%nat /\ attempt k = Some b /\
                      forall j, (j < k)%nat -> attempt j = None
  | Err msg =>
      (forall j, (j < retries)%nat -> attempt j = None) /\
      msg = (if (retries =? 0)%nat then "Unreachable" else "Fetch failed")%string
  end /\
  (forall attempt',
     (forall j, (j < retries)%nat -> attempt j = attempt' j) ->
     fetch_loop attempt' retries 0 retries = fetch_loop attempt retries 0 retries).
Proof.
  split.
  - destruct retries as [|n].
    + simpl. split; [intros j Hj; lia|done].
    + pose proof (fetch_loop_spec attempt (S n) n 0%nat eq_refl) as H.
      destruct (fetch_loop attempt (S n) 0 (S n)) as [b|msg].
      * destruct H as (k & Hk & Hb & Hbefore).
        exists k. repeat split; [lia|done|]. intros j Hj. apply Hbefore. lia.
      * destruct H as (-> & Hall). split; [|done]. intros j Hj. apply Hall. lia.
  - intros attempt' H. apply fetch_loop_ext. intros j Hj. symmetry. apply H. lia.
Qed.

(** ** [runTask] *)

Lemma pool_inv_reachable p : pool_reachable p -> pool_inv p.
Proof.
  induction 1 as [|p _ (Hw & Hnd & Hall)|p wk msgId _ (Hw & Hnd & Hall)].
  - repeat split; simpl; [unfold WORKER_COUNT; lia|constructor|constructor].
  - unfold runTask_submit, pool_inv. cbn [snd nextWorker taskCounter listeners].
    repeat split.
    + apply Nat.mod_upper_bound. done.
    + rewrite map_app. cbn [map snd]. apply NoDup_app. split; [done|]. split.
      * intros t Ht Ht'. apply list_elem_of_singleton in Ht'. subst t.
        apply list_elem_of_fmap in Ht as (l & Hl & Hin).
        rewrite Forall_forall in Hall. specialize (Hall l Hin). lia.
      * apply NoDup_singleton.
    + apply Forall_app. split.
      * eapply Forall_impl; [exact Hall|]. intros l [? ?]. split; [done|lia].
      * apply Forall_singleton. cbn [fst snd]. split; [done|lia].
  - unfold on_message, pool_inv. cbn [snd nextWorker taskCounter listeners].
    repeat split.
    + done.
    + clear Hall. induction (listeners p) as [|l ls IH]; simpl; [constructor|].
      apply NoDup_cons in Hnd as [Hl Hls].
      destruct (negb (waits_for wk msgId l)); simpl; [|by apply IH].
      constructor; [|by apply IH].
      intros Hin. apply Hl. apply list_elem_of_fmap in Hin as (l' & Hl' & Hin).
      apply list_elem_of_fmap. exists l'. split; [done|].
      apply list_elem_of_In, filter_In in Hin as [Hin _]. by apply list_elem_of_In.
    + apply Forall_forall. intros l Hl.
      apply list_elem_of_In, filter_In in Hl as [Hl _].
      rewrite Forall_forall in Hall. apply Hall. by apply list_elem_of_In.
Qed.

Lemma submit_many_nth n : forall p i,
  (nextWorker p < WORKER_COUNT)%nat -> (i < n)%nat ->
  (submit_many n p).1 !! i = Some ((nextWorker p + i) mod WORKER_COUNT, taskCounter p + i + 1)%nat.
Proof.
  induction n as [|n IH]; intros p i Hp Hi; [lia|].
  cbn [submit_many fst snd]. destruct i as [|i].
  - cbn [lookup list_lookup]. unfold runTask_submit. cbn [fst].
    rewrite Nat.add_0_r, Nat.mod_small by done. f_equal. f_equal. lia.
  - change (((runTask_submit p).1 :: (submit_many n (runTask_submit p).2).1) !! S i)
      with ((submit_many n (runTask_submit p).2).1 !! i).
    rewrite IH; [|by apply Nat.mod_upper_bound|lia].
    unfold runTask_submit. cbn [snd nextWorker taskCounter].
    f_equal. f_equal; [|lia].
    rewrite Nat.Div0.add_mod_idemp_l. f_equal. lia.
Qed.

(** X9. Tasks go to the workers in turn and get fresh identifiers: from any
    state that calls of [runTask] and replies can reach, the [i]-th of [n]
    further calls goes to worker [(nextWorker + i) mod WORKER_COUNT] with
    the identifier [taskCounter + i + 1], which no registered listener is
    waiting for. *)
Theorem pool_round_robin (p : Pool) (n i : nat) :
  pool_reachable p ->
  (i < n)%nat ->
  (submit_many n p).1 !! i =
    Some ((nextWorker p + i) mod WORKER_COUNT, taskCounter p + i + 1)%nat /\
  (taskCounter p + i + 1)%nat ∉ map snd (listeners p).
Proof.
  intros Hp Hi. destruct (pool_inv_reachable p Hp) as (Hw & _ & Hall).
  split; [by apply submit_many_nth|].
  intros Hin. apply list_elem_of_fmap in Hin as (l & Hl & Hin).
  rewrite Forall_forall in Hall. specialize (Hall l Hin). lia.
Qed.

Lemma pool_round_robin_witness :
  (submit_many 3 pool_init).1 !! 2%nat = Some (0, 3)%nat /\
  3%nat ∉ map snd (listeners pool_init).
Proof.
  apply (pool_round_robin pool_init 3 2).
  - constructor.
  - lia.
Defined.

Lemma waits_for_iff wk t l : waits_for wk t l = true <-> l = (wk, t).
Proof.
  unfold waits_for. destruct l as [w i]. simpl.
  rewrite andb_true_iff, !Nat.eqb_eq. split; [by intros [-> ->]|by intros [= -> ->]].
Qed.

Lemma filter_waits_for wk t ls :
  NoDup (map snd ls) ->
  List.filter (waits_for wk t) ls = if bool_decide ((wk, t) ∈ ls) then [(wk, t)] else [].
Proof.
  induction ls as [|l ls IH]; intros Hnd; [done|].
  cbn [map] in Hnd. apply NoDup_cons in Hnd as [Hl Hnd]. cbn [List.filter].
  destruct (waits_for wk t l) eqn:Hwait.
  - apply waits_for_iff in Hwait. subst l.
    rewrite bool_decide_eq_true_2 by left. f_equal.
    rewrite (IH Hnd), bool_decide_eq_false_2; [done|].
    intros Hin. apply Hl. apply list_elem_of_fmap. by exists (wk, t).
  - rewrite (IH Hnd).
    assert (Hne : l <> (wk, t)).
    { intros ->. assert (waits_for wk t (wk, t) = true) by (by apply waits_for_iff).
      congruence. }
    destruct (bool_decide ((wk, t) ∈ ls)) eqn:Hin.
    + apply bool_decide_eq_true in Hin. rewrite bool_decide_eq_true_2; [done|by right].
    + apply bool_decide_eq_false in Hin. rewrite bool_decide_eq_false_2; [done|].
      intros H. apply elem_of_cons in H as [H|H]; [congruence|done].
Qed.

(** X10. A reply settles the task it names and no other: in a reachable
    state of the pool, a message of worker [wk] with the identifier [t]
    settles the task [t] when a listener of that worker waits for it and
    nothing otherwise, it removes that listener and keeps every other one,
    and the same message a second time settles nothing. *)
Theorem pool_reply_correlation (p : Pool) (wk t : nat) :
  pool_reachable p ->
  (on_message p wk t).1 = (if bool_decide ((wk, t) ∈ listeners p) then [t] else []) /\
  (forall l, l ∈ listeners (on_message p wk t).2 <-> l ∈ listeners p /\ l <> (wk, t)) /\
  (on_message (on_message p wk t).2 wk t).1 = [].
Proof.
  intros Hp. destruct (pool_inv_reachable p Hp) as (_ & Hnd & _).
  assert (Hkeep : forall l, l ∈ listeners (on_message p wk t).2 <->
                            l ∈ listeners p /\ l <> (wk, t)).
  { intros l. unfold on_message. cbn [snd listeners].
    rewrite list_elem_of_In, filter_In, <- list_elem_of_In.
    rewrite negb_true_iff. split; intros [Hin Hw]; (split; [done|]).
    - intros ->. assert (waits_for wk t (wk, t) = true) by (by apply waits_for_iff).
      congruence.
    - destruct (waits_for wk t l) eqn:E; [|done]. by apply waits_for_iff in E. }
  split; [|split; [done|]].
  - unfold on_message. cbn [fst]. rewrite (filter_waits_for wk t _ Hnd).
    by destruct (bool_decide _).
  - destruct (pool_inv_reachable _ (reach_message p wk t Hp)) as (_ & Hnd' & _).
    unfold on_message at 1. cbn [fst]. rewrite (filter_waits_for wk t _ Hnd').
    rewrite bool_decide_eq_false_2; [done|]. intros Hin. by apply Hkeep in Hin as [_ ?].
Qed.

Lemma pool_reply_correlation_witness :
  (on_message (submit_many 3 pool_init).2 1 2).1 = [2%nat] /\
  (forall l, l ∈ listeners (on_message (submit_many 3 pool_init).2 1 2).2 <->
             l ∈ listeners (submit_many 3 pool_init).2 /\ l <> (1, 2)%nat) /\
  (on_message (on_message (submit_many 3 pool_init).2 1 2).2 1 2).1 = [].
Proof.
  apply (pool_reply_correlation (submit_many 3 pool_init).2 1 2).
  do 3 apply reach_submit. apply reach_init.
Defined.

(** ** Representatives and areas *)

Lemma representative_is_Some g : g <> [] -> exists r, representative g = Some r.
Proof.
  intros Hne. unfold representative.
  destruct (array_sort by_quality g) as [|r l] eqn:E; [|by exists r].
  pose proof (array_sort_Permutation by_quality g) as Hp. rewrite E in Hp.
  by apply Permutation_nil_l in Hp.
Qed.

Lemma bestImagesOf_Forall2 groups :
  Forall (fun g => g <> []) groups ->
  Forall2 (fun g r => representative g = Some r /\ r ∈ g) groups (bestImagesOf groups).
Proof.
  unfold bestImagesOf. induction 1 as [|g groups Hg _ IH]; [constructor|].
  cbn [omap list_omap]. destruct (representative_is_Some g Hg) as [r Hr].
  rewrite Hr. constructor; [|exact IH]. split; [done|by apply representative_member].
Qed.

(** X16. [bestImages] holds one record for each cluster, in the order of
    the clusters: the [k]-th entry is the representative of the [k]-th
    cluster, a member of that cluster and so a record of the input; no
    cluster is left without a representative. *)
Theorem one_representative_per_cluster (images : list ImageAnalysisResult) :
  Forall2 (fun g r => representative g = Some r /\ r ∈ g /\ r ∈ images)
          (groupByHash images) (bestImagesOf (groupByHash images)) /\
  length (bestImagesOf (groupByHash images)) = length (groupByHash images).
Proof.
  assert (H : Forall2 (fun g r => representative g = Some r /\ r ∈ g)
                (groupByHash images) (bestImagesOf (groupByHash images))).
  { apply bestImagesOf_Forall2, Forall_forall. intros g. apply groupByHash_nonempty. }
  split; [|symmetry; by eapply Forall2_length].
  apply Forall2_same_length_lookup. split; [by eapply Forall2_length|].
  intros i g r Hg Hr.
  destruct (Forall2_lookup_lr _ _ _ _ _ _ H Hg Hr) as [Hrep Hin].
  split; [done|]. split; [done|].
  rewrite <- (groupByHash_partition images).
  apply list_elem_of_In, in_concat. exists g.
  split; apply list_elem_of_In; [by eapply list_elem_of_lookup_2|done].
Qed.

Lemma areaMap_push_keys m x :
  map fst (areaMap_push m x) =
  if bool_decide (area x ∈ map fst m) then map fst m else map fst m ++ [area x].
Proof.
  induction m as [|[k imgs] m IH]; [done|]. cbn [areaMap_push].
  destruct (String.eqb_spec k (area x)) as [->|Hne].
  - cbn [map fst]. rewrite bool_decide_eq_true_2; [done|left].
  - cbn [map fst]. rewrite IH.
    destruct (bool_decide (area x ∈ map fst m)) eqn:E.
    + apply bool_decide_eq_true in E. rewrite bool_decide_eq_true_2; [done|by right].
    + apply bool_decide_eq_false in E. rewrite bool_decide_eq_false_2; [done|].
      intros H. apply elem_of_cons in H as [H|H]; [congruence|done].
Qed.

Lemma areaMap_push_lookup m x k imgs :
  NoDup (map fst m) ->
  (k, imgs) ∈ areaMap_push m x <->
  (k <> area x /\ (k, imgs) ∈ m) \/
  (k = area x /\
   ((exists old, (k, old) ∈ m /\ imgs = old ++ [x]) \/
    ((k ∉ map fst m) /\ imgs = [x]))).
Proof.
  induction m as [|[k0 imgs0] m IH]; intros Hnd.
  - cbn [areaMap_push]. rewrite list_elem_of_singleton. split.
    + intros [= -> ->]. right. split; [done|]. right. split; [apply not_elem_of_nil|done].
    + intros [[_ H]|[-> [(old & H & _)|[_ ->]]]]; try by apply not_elem_of_nil in H. done.
  - cbn [map fst] in Hnd. apply NoDup_cons in Hnd as [Hk0 Hnd].
    cbn [areaMap_push].
    destruct (String.eqb_spec k0 (area x)) as [->|Hne].
    + rewrite !elem_of_cons. split.
      * intros [[= -> ->]|H].
        -- right. split; [done|]. left. exists imgs0. split; [left|done].
        -- left. split; [|by right]. intros ->. apply Hk0.
           apply list_elem_of_fmap. by exists (area x, imgs).
      * intros [[Hk [[= -> ->]|H]]|[-> [(old & Hold & ->)|[Hnot ->]]]]; try done.
        -- by right.
        -- apply elem_of_cons in Hold as [[= ->]|Hold]; [by left|].
           exfalso. apply Hk0. apply list_elem_of_fmap. by exists (area x, old).
        -- exfalso. apply Hnot. cbn [map fst]. left.
    + rewrite !elem_of_cons, (IH Hnd). cbn [map fst]. split.
      * intros [[= -> ->]|[[Hk H]|[-> [(old & Hold & ->)|[Hnot ->]]]]].
        -- left. split; [done|by left].
        -- left. split; [done|by right].
        -- right. split; [done|]. left. exists old. split; [by right|done].
        -- right. split; [done|]. right. split; [|done].
           intros H. apply elem_of_cons in H as [H|H]; [congruence|done].
      * intros [[Hk [[= -> ->]|H]]|[-> [(old & Hold & ->)|[Hnot ->]]]].
        -- by left.
        -- right. left. done.
        -- right. right. split; [done|]. left. exists old. split; [|done].
           apply elem_of_cons in Hold as [[= ? ?]|Hold]; [congruence|done].
        -- right. right. split; [done|]. right. split; [|done].
           intros H. apply Hnot. by right.
Qed.

Lemma areaMapOf_snoc l x : areaMapOf (l ++ [x]) = areaMap_push (areaMapOf l) x.
Proof. unfold areaMapOf. by rewrite fold_left_app. Qed.

Lemma filter_in_area_snoc k l x :
  List.filter (in_area k) (l ++ [x]) =
  List.filter (in_area k) l ++ (if String.eqb k (area x) then [x] else []).
Proof. rewrite List.filter_app. by unfold in_area at 2; simpl; destruct (String.eqb k (area x)). Qed.

Lemma areaMapOf_spec best :
  NoDup (map fst (areaMapOf best)) /\
  forall k imgs, (k, imgs) ∈ areaMapOf best <->
                 imgs <> [] /\ imgs = List.filter (in_area k) best.
Proof.
  induction best as [|x l (Hnd & IH)] using rev_ind.
  - split; [constructor|]. intros k imgs. split.
    + intros H. by apply not_elem_of_nil in H.
    + by intros [H ->].
  - rewrite areaMapOf_snoc. split.
    + rewrite areaMap_push_keys. destruct (bool_decide _) eqn:E; [done|].
      apply bool_decide_eq_false in E. apply NoDup_app. split; [done|].
      split; [|apply NoDup_singleton].
      intros k' Hk Hk'. apply list_elem_of_singleton in Hk'. congruence.
    + intros k imgs. rewrite (areaMap_push_lookup _ _ _ _ Hnd), filter_in_area_snoc.
      split.
      * intros [[Hk H]|[-> [(old & Hold & ->)|[Hnot ->]]]].
        -- apply IH in H as [Hne ->].
           destruct (String.eqb_spec k (area x)); [done|]. by rewrite app_nil_r.
        -- apply IH in Hold as [_ ->]. rewrite String.eqb_refl.
           split; [|done]. by destruct (List.filter _ l).
        -- rewrite String.eqb_refl. split; [done|].
           destruct (List.filter (in_area (area x)) l) as [|y ys] eqn:E; [done|].
           exfalso. apply Hnot. apply list_elem_of_fmap.
           exists (area x, y :: ys). split; [done|]. apply IH. by rewrite E.
      * intros [Hne ->].
        destruct (String.eqb_spec k (area x)) as [Heq|Hk].
        -- right. split; [done|].
           destruct (List.filter (in_area k) l) as [|y ys] eqn:E.
           ++ right. split; [|done]. intros Hin.
              apply list_elem_of_fmap in Hin as ([k' imgs'] & Hk' & Hin). simpl in Hk'. subst k'.
              apply IH in Hin as [Hne' Heq']. rewrite E in Heq'. done.
           ++ left. exists (y :: ys). split; [|done]. apply IH. by rewrite E.
        -- left. split; [done|]. rewrite app_nil_r in *. by apply IH.
Qed.

Lemma areaMap_keys_areas best k :
  k ∈ map fst (areaMapOf best) -> k ∈ map area best.
Proof.
  intros Hk. apply list_elem_of_fmap in Hk as ([k' imgs] & -> & Hin). simpl.
  apply areaMapOf_spec in Hin as [Hne ->].
  destruct (List.filter (in_area k') best) as [|y ys] eqn:E; [done|].
  assert (Hy : In y (List.filter (in_area k') best)) by (rewrite E; left; done).
  apply filter_In in Hy as [Hy Hk']. unfold in_area in Hk'.
  apply String.eqb_eq in Hk'. subst k'.
  apply list_elem_of_fmap. exists y. split; [done|by apply list_elem_of_In].
Qed.

Lemma finalAreas_names loss_type best :
  map ar_area (finalAreasOf loss_type best) = map fst (areaMapOf best).
Proof.
  unfold finalAreasOf. rewrite map_map. done.
Qed.

Lemma finalAreas_elem loss_type best ar :
  ar ∈ finalAreasOf loss_type best <->
  exists k, List.filter (in_area k) best <> [] /\
            ar = areaResult loss_type (k, List.filter (in_area k) best).
Proof.
  destruct (areaMapOf_spec best) as [_ Hspec].
  unfold finalAreasOf. rewrite list_elem_of_fmap. split.
  - intros ([k imgs] & -> & Hin). apply Hspec in Hin as [Hne ->]. by exists k.
  - intros (k & Hne & ->). exists (k, List.filter (in_area k) best).
    split; [done|]. by apply Hspec.
Qed.

(** X17. The area entries partition the representatives by area name: no
    two entries have the same name, the entries are exactly the aggregates
    of the non-empty groups of all the representatives with one area name
    (in their original order), every representative is covered by the
    entry of its area, and there are at most as many entries as
    representatives. *)
Theorem areas_partition_representatives (loss_type : string)
    (best : list ImageAnalysisResult) :
  NoDup (map ar_area (finalAreasOf loss_type best)) /\
  (forall ar, ar ∈ finalAreasOf loss_type best <->
     exists k, List.filter (in_area k) best <> [] /\
               ar = areaResult loss_type (k, List.filter (in_area k) best)) /\
  (forall r, r ∈ best -> area r ∈ map ar_area (finalAreasOf loss_type best)) /\
  (length (finalAreasOf loss_type best) <= length best)%nat.
Proof.
  destruct (areaMapOf_spec best) as [Hnd Hspec].
  split; [by rewrite finalAreas_names|]. split; [|split].
  - intros ar. apply finalAreas_elem.
  - intros r Hr. destruct (finalAreas_of_representative loss_type best r Hr) as (ar & Har & <-).
    apply list_elem_of_fmap. by exists ar.
  - rewrite <- (length_map ar_area), finalAreas_names, <- (length_map area best).
    apply NoDup_incl_length.
    + by apply NoDup_ListNoDup.
    + intros k Hk. apply list_elem_of_In. apply areaMap_keys_areas. by apply list_elem_of_In.
Qed.


Lemma toFixed1_bracket x :
  0 <= x ->
  exists n : Z, toFixed 1 x = inject_Z n / 10 /\
                x * 10 - (1 # 2) < inject_Z n /\ inject_Z n <= x * 10 + (1 # 2).
Proof.
  intros Hx. rewrite toFixed1_nonneg by done.
  exists (Qfloor (x * 10 + (1 # 2))). split; [done|].
  pose proof (Qfloor_le (x * 10 + (1 # 2))) as Hlo.
  pose proof (Qlt_floor (x * 10 + (1 # 2))) as Hhi.
  rewrite inject_Z_plus in Hhi. change (inject_Z 1) with 1 in Hhi.
  split; [lra|done].
Qed.

Lemma toFixed1_integer (z : Z) x :
  (0 <= z)%Z -> x == inject_Z z -> toFixed 1 x == inject_Z z.
Proof.
  intros Hz Hx.
  assert (H0 : 0 <= x).
  { rewrite Hx. change 0 with (inject_Z 0). by rewrite <- Zle_Qle. }
  rewrite toFixed1_nonneg by done.
  assert (Hfl : Qfloor (x * 10 + (1 # 2)) = (z * 10)%Z).
  { rewrite Hx.
    assert (Hlo : (z * 10 <= Qfloor (inject_Z z * 10 + (1 # 2)))%Z).
    { rewrite <- (Qfloor_Z (z * 10)). apply Qfloor_resp_le.
      rewrite inject_Z_mult. change (inject_Z 10) with 10. lra. }
    assert (Hhi : (Qfloor (inject_Z z * 10 + (1 # 2)) < z * 10 + 1)%Z).
    { rewrite Zlt_Qlt.
      eapply Qle_lt_trans; [apply Qfloor_le|].
      rewrite inject_Z_plus, inject_Z_mult.
      change (inject_Z 10) with 10. change (inject_Z 1) with 1. lra. }
    lia. }
  rewrite Hfl, inject_Z_mult. change (inject_Z 10) with 10. field.
Qed.

Lemma in_range_wellformed r : in_range r -> wellformed r.
Proof. by intros (? & ? & _). Qed.




Lemma weightedMean_uniform imgs (s : Q) :
  imgs <> [] -> Forall (fun i => 0 < quality i) imgs ->
  Forall (fun i => severity i == s) imgs ->
  weightedMean imgs == s.
Proof.
  intros Hne Hq Hs. unfold weightedMean.
  assert (Hsum : sumQ (map (fun i => severity i * quality i) imgs)
                 == s * sumQ (map quality imgs)).
  { clear Hne Hq. induction Hs as [|i imgs Hi _ IH]; simpl; [ring|].
    rewrite IH, Hi. ring. }
  rewrite Hsum. field.
  pose proof (sumQ_quality_pos imgs Hne Hq). lra.
Qed.

Lemma overallSeverityOf_nonempty imgs :
  imgs <> [] ->
  overallSeverityOf imgs = toFixed 1 (weightedSumOf imgs / totalWeightOf imgs).
Proof. intros H. unfold overallSeverityOf. by destruct imgs. Qed.

(** X18. When all the records of a non-empty group have the same severity,
    a whole number as [classifyDamage] produces it, and positive qualities,
    both the area's [avg_severity] and the overall severity over these
    records are that number: neither the weights nor the rounding to one
    decimal change it. *)
Theorem uniform_severity_reported (loss_type k : string)
    (imgs : list ImageAnalysisResult) (z : Z) :
  imgs <> [] ->
  Forall (fun i => 0 < quality i) imgs ->
  (0 <= z)%Z ->
  Forall (fun i => severity i == inject_Z z) imgs ->
  avg_severity (areaResult loss_type (k, imgs)) == inject_Z z /\
  overallSeverityOf imgs == inject_Z z.
Proof.
  intros Hne Hq Hz Hs.
  assert (Hmean : weightedSumOf imgs / totalWeightOf imgs == inject_Z z).
  { rewrite weightedMean_code. by apply weightedMean_uniform. }
  split.
  - unfold areaResult; cbn [avg_severity snd]. by apply toFixed1_integer.
  - rewrite overallSeverityOf_nonempty by done. by apply toFixed1_integer.
Qed.

Lemma uniform_severity_reported_witness :
  avg_severity (areaResult "wind" ("roof"%string,
     [mkImage "u1" "roof" 3 1 "00"; mkImage "u2" "roof" 3 (6 # 10) "ff"])) == inject_Z 3 /\
  overallSeverityOf [mkImage "u1" "roof" 3 1 "00"; mkImage "u2" "roof" 3 (6 # 10) "ff"]
    == inject_Z 3.
Proof.
  apply (uniform_severity_reported "wind" "roof"
           [mkImage "u1" "roof" 3 1 "00"; mkImage "u2" "roof" 3 (6 # 10) "ff"] 3).
  - discriminate.
  - repeat constructor.
  - lia.
  - repeat constructor.
Defined.

(** ** The response of the handler *)

Lemma handler_body w req imgs :
  images req = Some imgs ->
  handler w req =
  Ok {| statusCode := 200;
        body :=
          {| claim_id := req_claim_id req;
             source_images :=
               {| total := length imgs;
                  src_analyzed := analyzed (run_phases w imgs);
                  src_discarded := discarded (run_phases w imgs);
                  clusters := length (groupByHash (photoData (run_phases w imgs))) |};
             overall_damage_severity := overallSeverityOf (representativesOf w imgs);
             areas := finalAreasOf (req_loss_type req) (representativesOf w imgs);
             data_gaps :=
               if (analyzed (run_phases w imgs) <? 3)%nat
               then ["Very few usable images"%string] else [];
             confidence := toFixed 2 (random w * ((95 # 100) - (7 # 10)) + (7 # 10));
             generated_at := now w |} |}.
Proof. intros H. unfold handler. by rewrite H. Qed.

Lemma analyzed_photoData w imgs :
  fair w -> analyzed (run_phases w imgs) = length (photoData (run_phases w imgs)).
Proof.
  intros Hfair. destruct (run_phases_spec w imgs Hfair) as (Ha & _ & Hperm).
  rewrite Ha, (Permutation_length Hperm). unfold count.
  generalize (imap pair imgs). intros l.
  induction l as [|pu l IH]; simpl; [done|].
  destruct (outcome w pu); simpl; first [exact IH | f_equal; exact IH].
Qed.

Lemma photoData_outcome w imgs r :
  fair w -> r ∈ photoData (run_phases w imgs) ->
  exists pos u, imgs !! pos = Some u /\ outcome w (pos, u) = Analyzed r.
Proof.
  intros Hfair Hr. destruct (run_phases_spec w imgs Hfair) as (_ & _ & Hperm).
  rewrite Hperm in Hr. apply list_elem_of_omap in Hr as ([pos u] & Hin & Hpu).
  apply list_elem_of_lookup in Hin as [i Hi].
  rewrite list_lookup_imap in Hi.
  destruct (imgs !! i) as [u'|] eqn:Hu; [|done]. simpl in Hi. injection Hi as <- <-.
  exists i, u'. split; [done|].
  by destruct (outcome w (i, u')); simplify_eq/=.
Qed.

Lemma Math_min_le4 x : Math_min 4 x <= 4.
Proof.
  unfold Math_min, num_lt. destruct (Qlt_le_dec x 4); [lra|apply Qle_refl].
Qed.

Lemma classifyDamage_le4 labels a sev q : classifyDamage labels = Keep a sev q -> sev <= 4.
Proof.
  unfold classifyDamage. destruct (_ && _); [done|]. intros [= _ <- _].
  apply Math_min_le4.
Qed.

(** What the record of an analyzed image is made of. *)
Lemma outcome_Analyzed w pos u r :
  outcome w (pos, u) = Analyzed r ->
  url r = u /\ in_range r /\
  exists buffer d, fetchWithRetry w pos u = Ok buffer /\
                   sha1_hex w buffer = Some d /\ hash r = String.substring 0 16 d.
Proof.
  unfold outcome, fetched, outcome_of_fetched. cbn [fst snd].
  destruct (fetchWithRetry w pos u) as [buffer|]; [|done]. cbn [f_pos f_buffer f_url].
  destruct (detectLabels w pos buffer) as [Labels|]; [|done].
  destruct (classifyDamage (default [] Labels)) as [|a sev q] eqn:Hcls; [done|].
  destruct (sha1_hex w buffer) as [d|] eqn:Hd; [|done].
  intros [= <-]. cbn [url hash]. split; [done|]. split.
  - destruct (classifyDamage_wellformed _ _ _ _ Hcls) as [Hq Hs].
    split; [done|]. split; [done|]. by apply classifyDamage_le4 in Hcls.
  - by exists buffer, d.
Qed.

Lemma representativesOf_photoData w imgs r :
  r ∈ representativesOf w imgs -> r ∈ photoData (run_phases w imgs).
Proof. apply bestImages_member. Qed.





(** X21. The images an area entry lists come from the request: the entry
    lists between one and three URLs, and each of them is a URL of the
    request that is the representative of a cluster and was classified
    into the area of the entry. *)
Theorem representative_images_from_request (w : World) (req : Request)
    (imgs : list string) (resp : Response) (ar : AreaResult) :
  fair w ->
  images req = Some imgs ->
  handler w req = Ok resp ->
  ar ∈ areas (body resp) ->
  (1 <= length (representative_images ar) <= 3)%nat /\
  forall u, u ∈ representative_images ar ->
    u ∈ imgs /\
    exists r, r ∈ representativesOf w imgs /\ url r = u /\ area r = ar_area ar.
Proof.
  intros Hfair Himgs Hresp Har.
  rewrite (handler_body w req imgs Himgs) in Hresp. injection Hresp as <-.
  cbn [body areas] in Har.
  apply finalAreas_elem in Har as (k & Hne & ->).
  unfold areaResult; cbn [representative_images ar_area fst snd].
  split.
  - rewrite length_take, length_map.
    destruct (List.filter (in_area k) (representativesOf w imgs)); [done|].
    cbn [length]. lia.
  - intros u Hu. apply elem_of_take in Hu as (i & Hu & _).
    apply list_elem_of_lookup_2 in Hu.
    apply list_elem_of_fmap in Hu as (r & -> & Hr).
    apply list_elem_of_In, filter_In in Hr as [Hr Hk].
    apply list_elem_of_In in Hr. unfold in_area in Hk. apply String.eqb_eq in Hk.
    split; [|by exists r].
    destruct (photoData_outcome w imgs r Hfair (representativesOf_photoData _ _ _ Hr))
      as (pos & u & Hu & Hout).
    apply outcome_Analyzed in Hout as (-> & _).
    by apply list_elem_of_lookup_2 in Hu.
Qed.

Lemma representative_images_from_request_witness :
  exists resp ar,
    handler world_example request_example = Ok resp /\
    ar ∈ areas (body resp) /\
    ((1 <= length (representative_images ar) <= 3)%nat /\
     forall u, u ∈ representative_images ar ->
       u ∈ ["u0"; "u1"; "u2"; "u3"; "u4"]%string /\
       exists r, r ∈ representativesOf world_example ["u0"; "u1"; "u2"; "u3"; "u4"]%string /\
                 url r = u /\ area r = ar_area ar).
Proof.
  eexists. eexists. split; [reflexivity|]. split; [apply list_elem_of_here|].
  eapply (representative_images_from_request world_example request_example
            ["u0"; "u1"; "u2"; "u3"; "u4"]%string).
  - intros l. reflexivity.
  - reflexivity.
  - reflexivity.
  - apply list_elem_of_here.
Defined.

Lemma omap_length_le {A B} (f : A -> option B) (l : list A) :
  (length (omap f l) <= length l)%nat.
Proof.
  induction l as [|x l IH]; [done|]. cbn [omap list_omap].
  destruct (f x); cbn [length]; [apply le_n_S|apply le_S]; exact IH.
Qed.

(** X22. The counts of a response are ordered: there are at most as many
    area entries as clusters, as many clusters as analyzed images, and as
    many analyzed images as images in the request; there is no cluster
    exactly when no image was analyzed; the area entries have distinct
    names; and [data_gaps] is empty exactly when at least three images
    were analyzed. *)
Theorem response_counts (w : World) (req : Request) (resp : Response) :
  fair w ->
  handler w req = Ok resp ->
  let s := source_images (body resp) in
  (length (areas (body resp)) <= clusters s)%nat /\
  (clusters s <= src_analyzed s)%nat /\
  (src_analyzed s <= total s)%nat /\
  (clusters s = 0%nat <-> src_analyzed s = 0%nat) /\
  NoDup (map ar_area (areas (body resp))) /\
  (data_gaps (body resp) = [] <-> (3 <= src_analyzed s)%nat).
Proof.
  intros Hfair Hresp.
  destruct (images req) as [imgs|] eqn:Himgs; [|by unfold handler in Hresp; rewrite Himgs in Hresp].
  rewrite (handler_body w req imgs Himgs) in Hresp. injection Hresp as <-.
  cbn [body source_images areas clusters src_analyzed total data_gaps].
  pose proof (analyzed_photoData w imgs Hfair) as Han.
  destruct (run_phases_spec w imgs Hfair) as (Ha & Hd & _).
  pose proof (count_split (fun pu => is_analyzed (outcome w pu)) (imap pair imgs)) as Hsplit.
  rewrite length_imap in Hsplit.
  set (pd := photoData (run_phases w imgs)) in *.
  pose proof (groupByHash_greedy pd) as Hg.
  assert (Hcl : (length (groupByHash pd) <= length pd)%nat)
    by (rewrite Hg; apply greedy_length).
  destruct (areaMapOf_spec (representativesOf w imgs)) as [Hnd _].
  split; [|split; [|split; [|split; [|split]]]].
  - unfold finalAreasOf. rewrite length_map.
    rewrite <- (length_map fst).
    etrans.
    + apply (NoDup_incl_length (l' := map area (representativesOf w imgs)));
        [by apply NoDup_ListNoDup|].
      intros k Hk. apply list_elem_of_In, areaMap_keys_areas. by apply list_elem_of_In.
    + rewrite length_map. unfold representativesOf. fold pd.
      unfold bestImagesOf. apply omap_length_le.
  - lia.
  - lia.
  - rewrite Han. split.
    + intros H0. destruct pd as [|r l] eqn:E; [done|].
      exfalso. destruct (groupByHash (r :: l)) eqn:E2; [|done].
      pose proof (groupByHash_partition (r :: l)) as Hp. rewrite E2 in Hp.
      by apply Permutation_nil_l in Hp.
    + intros H0. destruct pd; [done|done].
  - by rewrite finalAreas_names.
  - destruct (analyzed (run_phases w imgs) <? 3)%nat eqn:E.
    + apply Nat.ltb_lt in E. split; [done|lia].
    + apply Nat.ltb_ge in E. split; [done|done].
Qed.

Lemma response_counts_witness :
  exists resp,
    handler world_example request_example = Ok resp /\
    let s := source_images (body resp) in
    (length (areas (body resp)) <= clusters s)%nat /\
    (clusters s <= src_analyzed s)%nat /\
    (src_analyzed s <= total s)%nat /\
    (clusters s = 0%nat <-> src_analyzed s = 0%nat) /\
    NoDup (map ar_area (areas (body resp))) /\
    (data_gaps (body resp) = [] <-> (3 <= src_analyzed s)%nat).
Proof.
  eexists. split; [reflexivity|].
  apply (response_counts world_example request_example).
  - intros l. reflexivity.
  - reflexivity.
Defined.

(** X23. When no image of the request gets through fetch, classification
    and hashing, the response is fixed up to [confidence]: status 200, all
    images counted as discarded, no cluster, overall severity 0, no area
    entry, and the data gap [Very few usable images]. *)
Theorem nothing_analyzed_response (w : World) (req : Request) (imgs : list string) :
  fair w ->
  images req = Some imgs ->
  (forall pos u, imgs !! pos = Some u -> is_analyzed (outcome w (pos, u)) = false) ->
  handler w req =
  Ok {| statusCode := 200;
        body :=
          {| claim_id := req_claim_id req;
             source_images :=
               {| total := length imgs; src_analyzed := 0;
                  src_discarded := length imgs; clusters := 0 |};
             overall_damage_severity := 0;
             areas := [];
             data_gaps := ["Very few usable images"%string];
             confidence := toFixed 2 (random w * ((95 # 100) - (7 # 10)) + (7 # 10));
             generated_at := now w |} |}.
Proof.
  intros Hfair Himgs Hnone.
  rewrite (handler_body w req imgs Himgs).
  destruct (run_phases_spec w imgs Hfair) as (Ha & Hd & Hperm).
  assert (Hall : forall pu, pu ∈ imap pair imgs -> is_analyzed (outcome w pu) = false).
  { intros [pos u] Hin. apply list_elem_of_lookup in Hin as [i Hi].
    rewrite list_lookup_imap in Hi.
    destruct (imgs !! i) as [u'|] eqn:Hu; [|done]. simpl in Hi. injection Hi as <- <-.
    by apply Hnone. }
  assert (Hcount : count (fun pu => is_analyzed (outcome w pu)) (imap pair imgs) = 0%nat).
  { unfold count. revert Hall. generalize (imap pair imgs). intros l Hl.
    induction l as [|pu l IH]; [done|]. simpl.
    rewrite (Hl pu) by left. apply IH. intros pu' Hpu'. apply Hl. by right. }
  assert (Hpd : photoData (run_phases w imgs) = []).
  { apply Permutation_nil_r. rewrite Hperm.
    revert Hall. generalize (imap pair imgs). intros l Hl.
    induction l as [|pu l IH]; [done|]. cbn [omap list_omap].
    specialize (Hl pu ltac:(left)) as Hpu.
    destruct (outcome w pu); try done; apply IH; intros pu' Hpu'; apply Hl; by right. }
  pose proof (count_split (fun pu => is_analyzed (outcome w pu)) (imap pair imgs)) as Hsplit.
  rewrite length_imap in Hsplit.
  unfold representativesOf. rewrite Hpd, Ha, Hd, Hcount.
  replace (count (fun pu => negb (is_analyzed (outcome w pu))) (imap pair imgs))
    with (length imgs) by lia.
  reflexivity.
Qed.

Lemma nothing_analyzed_response_witness :
  handler world_example request_unreachable =
  Ok {| statusCode := 200;
        body :=
          {| claim_id := "CLM-2025-00123";
             source_images :=
               {| total := 1; src_analyzed := 0; src_discarded := 1; clusters := 0 |};
             overall_damage_severity := 0;
             areas := [];
             data_gaps := ["Very few usable images"%string];
             confidence := toFixed 2 ((1 # 2) * ((95 # 100) - (7 # 10)) + (7 # 10));
             generated_at := "2025-01-01T00:00:00.000Z" |} |}.
Proof.
  apply (nothing_analyzed_response world_example request_unreachable ["u0"]%string).
  - intros l. reflexivity.
  - reflexivity.
  - intros [|pos] u H; [|done]. injection H as <-. reflexivity.
Defined.



Lemma substring_length n s :
  String.length (String.substring 0 n s) = Nat.min n (String.length s).
Proof.
  revert s; induction n as [|n IH]; intros s.
  - by destruct s.
  - destruct s as [|c s]; [done|]. simpl. by rewrite IH.
Qed.

(** X25. When the digest primitive returns the 40 hexadecimal characters of
    SHA-1, every analyzed image carries a fingerprint of 16 characters, so
    that between the records the handler clusters the distance is
    symmetric and is 0 only between equal fingerprints. *)
Theorem fingerprints_fixed_length (w : World) (imgs : list string)
    (r1 r2 : ImageAnalysisResult) :
  fair w ->
  (forall b d, sha1_hex w b = Some d -> String.length d = 40%nat) ->
  r1 ∈ photoData (run_phases w imgs) ->
  r2 ∈ photoData (run_phases w imgs) ->
  String.length (hash r1) = 16%nat /\
  hammingDistance (hash r1) (hash r2) = hammingDistance (hash r2) (hash r1) /\
  (hammingDistance (hash r1) (hash r2) = 0%nat -> hash r1 = hash r2).
Proof.
  intros Hfair Hsha H1 H2.
  assert (Hlen : forall r, r ∈ photoData (run_phases w imgs) -> String.length (hash r) = 16%nat).
  { intros r Hr.
    destruct (photoData_outcome w imgs r Hfair Hr) as (pos & u & _ & Hout).
    apply outcome_Analyzed in Hout as (_ & _ & buffer & d & _ & Hd & ->).
    rewrite substring_length, (Hsha _ _ Hd). done. }
  split; [by apply Hlen|]. split.
  - apply hammingDistance_sym. by rewrite !Hlen.
  - apply hammingDistance_eq. by rewrite !Hlen.
Qed.

Lemma fingerprints_fixed_length_witness :
  String.length (hash (mkImage "u0" "roof" 0 1 "0123456789abcdef")) = 16%nat /\
  hammingDistance (hash (mkImage "u0" "roof" 0 1 "0123456789abcdef"))
                  (hash (mkImage "u1" "unknown" 3 1 "0123456789abcdee")) =
  hammingDistance (hash (mkImage "u1" "unknown" 3 1 "0123456789abcdee"))
                  (hash (mkImage "u0" "roof" 0 1 "0123456789abcdef")) /\
  (hammingDistance (hash (mkImage "u0" "roof" 0 1 "0123456789abcdef"))
                   (hash (mkImage "u1" "unknown" 3 1 "0123456789abcdee")) = 0%nat ->
   hash (mkImage "u0" "roof" 0 1 "0123456789abcdef") =
   hash (mkImage "u1" "unknown" 3 1 "0123456789abcdee")).
Proof.
  apply (fingerprints_fixed_length
           (world_two "0123456789abcdef0123456789abcdef01234567"
                      "0123456789abcdee0123456789abcdef01234567")
           ["u0"; "u1"]%string).
  - intros l. reflexivity.
  - intros b d H. unfold world_two in H. cbn [sha1_hex] in H.
    destruct (length b =? 1)%nat; injection H as <-; reflexivity.
  - apply list_elem_of_here.
  - apply list_elem_of_further, list_elem_of_here.
Defined.

(** ** The [analyze] task of the worker *)

Lemma sum_over_app f l1 l2 : sum_over f (l1 ++ l2) = (sum_over f l1 + sum_over f l2)%Z.
Proof. induction l1 as [|x l1 IH]; simpl; [done|]. rewrite IH. lia. Qed.

Lemma sum_over_ext f g l :
  (forall x, x ∈ l -> f x = g x) -> sum_over f l = sum_over g l.
Proof.
  induction l as [|x l IH]; intros H; simpl; [done|].
  rewrite (H x) by left. rewrite IH; [done|]. intros z Hz. apply H. by right.
Qed.

Lemma sum_over_const c l : sum_over (fun _ => c) l = (c * Z.of_nat (length l))%Z.
Proof. induction l as [|x l IH]; simpl; [lia|]. rewrite IH. lia. Qed.

Lemma sum_over_bounds f lo hi l :
  (forall x, x ∈ l -> lo <= f x <= hi)%Z ->
  (lo * Z.of_nat (length l) <= sum_over f l <= hi * Z.of_nat (length l))%Z.
Proof.
  induction l as [|x l IH]; intros H; simpl; [lia|].
  specialize (H x ltac:(left)) as Hx.
  assert (Hl : (lo * Z.of_nat (length l) <= sum_over f l <= hi * Z.of_nat (length l))%Z).
  { apply IH. intros z Hz. apply H. by right. }
  lia.
Qed.

Lemma upto_elem n x : x ∈ upto n <-> (0 <= x < n)%Z.
Proof.
  unfold upto. rewrite list_elem_of_fmap. split.
  - intros (k & -> & Hk). apply elem_of_seq in Hk. lia.
  - intros Hx. exists (Z.to_nat x). split; [lia|]. apply elem_of_seq. lia.
Qed.

Lemma upto_length n : (0 <= n)%Z -> Z.of_nat (length (upto n)) = n.
Proof. intros Hn. unfold upto. rewrite length_map, length_seq. lia. Qed.

(** The accumulators of the loops as sums over the pixels. *)
Lemma analyze_row bm y xs acc :
  fold_left (analyze_pixel bm y) xs acc =
  mkAnalyze
    (sumGray acc + sum_over (fun x => getGray bm x y) xs)
    (lapSum acc + sum_over (lap_term bm y) xs)
    (lapSumSq acc + sum_over (sq_term bm y) xs)
    (lapCount acc + sum_over (cnt_term bm y) xs).
Proof.
  revert acc; induction xs as [|x xs IH]; intros acc; simpl.
  - destruct acc; simpl. f_equal; lia.
  - rewrite IH. unfold analyze_pixel, lap_term, sq_term, cnt_term.
    fold (interior bm x y).
    destruct (interior bm x y); simpl; f_equal; lia.
Qed.

Lemma analyze_rows bm ys acc :
  fold_left (fun acc y => fold_left (analyze_pixel bm y) (upto (bm_width bm)) acc) ys acc =
  mkAnalyze
    (sumGray acc +
     sum_over (fun y => sum_over (fun x => getGray bm x y) (upto (bm_width bm))) ys)
    (lapSum acc + sum_over (fun y => sum_over (lap_term bm y) (upto (bm_width bm))) ys)
    (lapSumSq acc + sum_over (fun y => sum_over (sq_term bm y) (upto (bm_width bm))) ys)
    (lapCount acc + sum_over (fun y => sum_over (cnt_term bm y) (upto (bm_width bm))) ys).
Proof.
  revert acc; induction ys as [|y ys IH]; intros acc; simpl.
  - destruct acc; simpl. f_equal; lia.
  - rewrite IH, analyze_row. simpl. f_equal; lia.
Qed.

Lemma conv_at_neighbours bm x y :
  conv_at bm x y =
  (getGray bm x (y - 1) + getGray bm (x - 1) y - 4 * getGray bm x y
   + getGray bm (x + 1) y + getGray bm x (y + 1))%Z.
Proof.
  unfold conv_at. simpl.
  replace (x + -1)%Z with (x - 1)%Z by lia. replace (y + -1)%Z with (y - 1)%Z by lia.
  rewrite !Z.add_0_r. lia.
Qed.

Lemma count_inner (w : Z) (n : nat) :
  sum_over (fun x => if ((0 <? x) && (x <? w - 1))%Z then 1 else 0)%Z
           (map Z.of_nat (seq 0 n))
  = Z.max 0 (Z.min (Z.of_nat n) (w - 1) - 1).
Proof.
  induction n as [|n IH]; [simpl; lia|].
  rewrite seq_S, map_app, sum_over_app, IH. simpl.
  destruct (0 <? Z.of_nat n)%Z eqn:E1; destruct (Z.of_nat n <? w - 1)%Z eqn:E2; simpl;
    rewrite ?Z.ltb_lt, ?Z.ltb_ge in E1, E2; lia.
Qed.

Lemma cnt_row bm y :
  (0 <= bm_width bm)%Z ->
  sum_over (cnt_term bm y) (upto (bm_width bm)) =
  (if ((0 <? y) && (y <? bm_height bm - 1))%Z then Z.max 0 (bm_width bm - 2) else 0)%Z.
Proof.
  intros Hw.
  destruct ((0 <? y) && (y <? bm_height bm - 1))%Z eqn:Ey.
  - rewrite (sum_over_ext _ (fun x => if ((0 <? x) && (x <? bm_width bm - 1))%Z then 1 else 0)%Z).
    + unfold upto. rewrite count_inner. lia.
    + intros x _. unfold cnt_term, interior.
      apply andb_prop in Ey as [-> ->]. by destruct (0 <? x)%Z, (x <? bm_width bm - 1)%Z.
  - rewrite (sum_over_ext _ (fun _ => 0%Z)).
    + rewrite sum_over_const. lia.
    + intros x _. unfold cnt_term, interior.
      destruct (0 <? x)%Z, (0 <? y)%Z, (x <? bm_width bm - 1)%Z, (y <? bm_height bm - 1)%Z;
        simpl in *; done.
Qed.

Lemma cnt_total bm :
  (0 <= bm_width bm)%Z -> (0 <= bm_height bm)%Z ->
  lapCount (analyze_loops bm) =
  (Z.max 0 (bm_width bm - 2) * Z.max 0 (bm_height bm - 2))%Z.
Proof.
  intros Hw Hh. unfold analyze_loops. rewrite analyze_rows. cbn [lapCount].
  rewrite (sum_over_ext _
    (fun y => Z.max 0 (bm_width bm - 2) *
              (if ((0 <? y) && (y <? bm_height bm - 1))%Z then 1 else 0))%Z).
  - assert (Hc : forall c l,
      sum_over (fun y => c * (if ((0 <? y) && (y <? bm_height bm - 1))%Z then 1 else 0))%Z l
      = (c * sum_over (fun y => if ((0 <? y) && (y <? bm_height bm - 1))%Z then 1 else 0)%Z l)%Z).
    { intros c l. induction l as [|y l IH]; simpl; [lia|]. rewrite IH. lia. }
    rewrite Hc. unfold upto. rewrite count_inner. lia.
  - intros y _. rewrite cnt_row by done. destruct (_ && _)%Z; lia.
Qed.

(** For a bitmap that holds four bytes per pixel, [getGray] reads the first
    byte of the pixel. *)
Lemma getGray_data bm x y :
  (0 <= x < bm_width bm)%Z -> (0 <= y < bm_height bm)%Z ->
  (4 * (bm_width bm * bm_height bm) < 2 ^ 31)%Z ->
  getGray bm x y = default 0%Z (bm_data bm !! Z.to_nat (4 * (y * bm_width bm + x))).
Proof.
  intros Hx Hy Hsmall. unfold getGray.
  replace ((x <? 0) || (y <? 0) || (x >=? bm_width bm) || (y >=? bm_height bm))%Z
    with false.
  2:{ symmetry. rewrite !orb_false_iff, !Z.ltb_ge, Z.geb_leb, Z.geb_leb, !Z.leb_gt. lia. }
  assert (Hidx : to_int32 (Z.shiftl (y * bm_width bm + x) 2) = (4 * (y * bm_width bm + x))%Z).
  { rewrite Z.shiftl_mul_pow2 by lia. unfold to_int32.
    assert (0 <= y * bm_width bm + x < bm_width bm * bm_height bm)%Z by nia.
    rewrite Z.mod_small; lia. }
  rewrite Hidx. replace (4 * (y * bm_width bm + x) <? 0)%Z with false; [done|].
  symmetry. apply Z.ltb_ge. nia.
Qed.

Lemma getGray_byte bm x y :
  Forall (fun b => (0 <= b <= 255)%Z) (bm_data bm) -> (0 <= getGray bm x y <= 255)%Z.
Proof.
  intros Hb. unfold getGray.
  destruct (_ || _ || _ || _)%Z; [lia|].
  destruct (_ <? 0)%Z; [lia|].
  destruct (bm_data bm !! _) as [b|] eqn:E; simpl; [|lia].
  rewrite Forall_forall in Hb. apply Hb. by eapply list_elem_of_lookup_2.
Qed.

(** X26. On an image of one grey level [g], at least three pixels wide and
    high, [analyze] reports the brightness [g] and the sharpness 0; the
    number of pixels the Laplacian is taken at is
    [(width - 2) * (height - 2)], which is positive, so that neither
    quotient divides by 0. *)
Theorem analyze_uniform_image (bm : Bitmap) (g : Z) :
  rgba_bitmap bm ->
  (3 <= bm_width bm)%Z -> (3 <= bm_height bm)%Z ->
  (forall x y, (0 <= x < bm_width bm)%Z -> (0 <= y < bm_height bm)%Z ->
               getGray bm x y = g) ->
  (analyze_bitmap bm).1 == inject_Z g /\
  (analyze_bitmap bm).2 == 0 /\
  lapCount (analyze_loops bm) = ((bm_width bm - 2) * (bm_height bm - 2))%Z /\
  (0 < lapCount (analyze_loops bm))%Z.
Proof.
  intros _ Hw Hh Hg.
  assert (Hcnt : lapCount (analyze_loops bm) = ((bm_width bm - 2) * (bm_height bm - 2))%Z).
  { rewrite cnt_total by lia. lia. }
  assert (Hsum : sumGray (analyze_loops bm) = (g * (bm_width bm * bm_height bm))%Z).
  { unfold analyze_loops. rewrite analyze_rows. cbn [sumGray].
    rewrite (sum_over_ext _ (fun _ => (g * bm_width bm)%Z)).
    - rewrite sum_over_const, upto_length by lia. lia.
    - intros y Hy. apply upto_elem in Hy.
      rewrite (sum_over_ext _ (fun _ => g)).
      + rewrite sum_over_const, upto_length by lia. done.
      + intros x Hx. apply upto_elem in Hx. by apply Hg. }
  assert (Hconv : forall x y, interior bm x y = true -> conv_at bm x y = 0%Z).
  { intros x y Hi. unfold interior in Hi.
    repeat (apply andb_prop in Hi as [Hi ?]).
    rewrite ?Z.ltb_lt in *.
    rewrite conv_at_neighbours, !Hg by lia. lia. }
  assert (Hlap : lapSum (analyze_loops bm) = 0%Z).
  { unfold analyze_loops. rewrite analyze_rows. cbn [lapSum].
    rewrite (sum_over_ext _ (fun _ => 0%Z)); [rewrite sum_over_const; lia|].
    intros y _. rewrite (sum_over_ext _ (fun _ => 0%Z)); [rewrite sum_over_const; lia|].
    intros x _. unfold lap_term. destruct (interior bm x y) eqn:E; [by apply Hconv|done]. }
  assert (Hsq : lapSumSq (analyze_loops bm) = 0%Z).
  { unfold analyze_loops. rewrite analyze_rows. cbn [lapSumSq].
    rewrite (sum_over_ext _ (fun _ => 0%Z)); [rewrite sum_over_const; lia|].
    intros y _. rewrite (sum_over_ext _ (fun _ => 0%Z)); [rewrite sum_over_const; lia|].
    intros x _. unfold sq_term. destruct (interior bm x y) eqn:E; [|done].
    rewrite (Hconv x y E). done. }
  unfold analyze_bitmap. cbn [fst snd]. rewrite Hsum, Hlap, Hsq.
  split; [|split; [|split; [done|]]].
  - rewrite inject_Z_mult. field.
    change 0 with (inject_Z 0). rewrite inject_Z_injective. nia.
  - unfold Qdiv. rewrite !Qmult_0_l. reflexivity.
  - rewrite Hcnt. nia.
Qed.

Lemma analyze_uniform_image_witness :
  (analyze_bitmap bm_flat).1 == inject_Z 7 /\
  (analyze_bitmap bm_flat).2 == 0 /\
  lapCount (analyze_loops bm_flat) = ((3 - 2) * (3 - 2))%Z /\
  (0 < lapCount (analyze_loops bm_flat))%Z.
Proof.
  apply (analyze_uniform_image bm_flat 7).
  - unfold rgba_bitmap. simpl. repeat split; try lia. repeat constructor; lia.
  - simpl; lia.
  - simpl; lia.
  - intros x y Hx Hy. simpl in Hx, Hy.
    assert (Hxs : x = 0%Z \/ x = 1%Z \/ x = 2%Z) by lia.
    assert (Hys : y = 0%Z \/ y = 1%Z \/ y = 2%Z) by lia.
    destruct Hxs as [->|[->| ->]], Hys as [->|[->| ->]]; reflexivity.
Defined.

(** X27. The brightness that [analyze] reports is between 0 and 255. *)
Theorem analyze_brightness_range (bm : Bitmap) :
  rgba_bitmap bm ->
  0 <= (analyze_bitmap bm).1 /\ (analyze_bitmap bm).1 <= 255.
Proof.
  intros (Hw & Hh & _ & _ & Hb). unfold analyze_bitmap. cbn [fst].
  assert (Hsum : (0 <= sumGray (analyze_loops bm) <= 255 * (bm_width bm * bm_height bm))%Z).
  { unfold analyze_loops. rewrite analyze_rows. cbn [sumGray].
    pose proof (sum_over_bounds
      (fun y => sum_over (fun x => getGray bm x y) (upto (bm_width bm)))
      0 (255 * bm_width bm) (upto (bm_height bm))) as H.
    rewrite upto_length in H by lia.
    assert (Hrow : forall y, y ∈ upto (bm_height bm) ->
      (0 <= sum_over (fun x => getGray bm x y) (upto (bm_width bm)) <= 255 * bm_width bm)%Z).
    { intros y _.
      pose proof (sum_over_bounds (fun x => getGray bm x y) 0 255 (upto (bm_width bm))) as H'.
      rewrite upto_length in H' by lia.
      assert (forall x, x ∈ upto (bm_width bm) -> (0 <= getGray bm x y <= 255)%Z)
        by (intros x _; by apply getGray_byte).
      specialize (H' H0). lia. }
    specialize (H Hrow). lia. }
  assert (Hpos : 0 < inject_Z (bm_width bm * bm_height bm)).
  { change 0 with (inject_Z 0). rewrite <- Zlt_Qlt. nia. }
  split.
  - apply Qle_shift_div_l; [done|]. rewrite Qmult_0_l.
    change 0 with (inject_Z 0). rewrite <- Zle_Qle. lia.
  - apply Qle_shift_div_r; [done|].
    change 255 with (inject_Z 255). rewrite <- inject_Z_mult, <- Zle_Qle. lia.
Qed.

Lemma analyze_brightness_range_witness :
  0 <= (analyze_bitmap bm_ramp).1 /\ (analyze_bitmap bm_ramp).1 <= 255.
Proof.
  apply (analyze_brightness_range bm_ramp).
  unfold rgba_bitmap. simpl. repeat split; try lia. repeat constructor; lia.
Defined.

(** X28. The sharpness does not see a change of brightness: when every
    pixel of a second image of the same size is brighter by the same
    amount [c], both images get the same sharpness and the same sum of
    Laplacian responses, and the sum of the grey levels grows by [c] for
    every pixel. *)
Theorem analyze_sharpness_shift (bm1 bm2 : Bitmap) (c : Z) :
  rgba_bitmap bm1 -> rgba_bitmap bm2 ->
  bm_width bm2 = bm_width bm1 -> bm_height bm2 = bm_height bm1 ->
  (3 <= bm_width bm1)%Z -> (3 <= bm_height bm1)%Z ->
  (forall x y, (0 <= x < bm_width bm1)%Z -> (0 <= y < bm_height bm1)%Z ->
               getGray bm2 x y = (getGray bm1 x y + c)%Z) ->
  (analyze_bitmap bm2).2 = (analyze_bitmap bm1).2 /\
  lapSum (analyze_loops bm2) = lapSum (analyze_loops bm1) /\
  sumGray (analyze_loops bm2) =
    (sumGray (analyze_loops bm1) + c * (bm_width bm1 * bm_height bm1))%Z.
Proof.
  intros _ _ Hw Hh Hw1 Hh1 Hg.
  assert (Hint : forall x y, interior bm2 x y = interior bm1 x y)
    by (intros x y; unfold interior; by rewrite Hw, Hh).
  assert (Hconv : forall x y, interior bm1 x y = true -> conv_at bm2 x y = conv_at bm1 x y).
  { intros x y Hi. unfold interior in Hi.
    repeat (apply andb_prop in Hi as [Hi ?]).
    rewrite ?Z.ltb_lt in *.
    rewrite !conv_at_neighbours, !Hg by lia. lia. }
  assert (Hlap : lapSum (analyze_loops bm2) = lapSum (analyze_loops bm1)).
  { unfold analyze_loops. rewrite !analyze_rows. cbn [lapSum]. rewrite Hw, Hh.
    f_equal. apply sum_over_ext. intros y _. apply sum_over_ext. intros x _.
    unfold lap_term. rewrite Hint. destruct (interior bm1 x y) eqn:E; [by apply Hconv|done]. }
  assert (Hsq : lapSumSq (analyze_loops bm2) = lapSumSq (analyze_loops bm1)).
  { unfold analyze_loops. rewrite !analyze_rows. cbn [lapSumSq]. rewrite Hw, Hh.
    f_equal. apply sum_over_ext. intros y _. apply sum_over_ext. intros x _.
    unfold sq_term. rewrite Hint. destruct (interior bm1 x y) eqn:E; [|done].
    by rewrite (Hconv x y E). }
  assert (Hcnt : lapCount (analyze_loops bm2) = lapCount (analyze_loops bm1)).
  { rewrite !cnt_total by lia. by rewrite Hw, Hh. }
  assert (Hsum : sumGray (analyze_loops bm2) =
                 (sumGray (analyze_loops bm1) + c * (bm_width bm1 * bm_height bm1))%Z).
  { unfold analyze_loops. rewrite !analyze_rows. cbn [sumGray]. rewrite Hw, Hh.
    rewrite (sum_over_ext
      (fun y => sum_over (fun x => getGray bm2 x y) (upto (bm_width bm1)))
      (fun y => (sum_over (fun x => getGray bm1 x y) (upto (bm_width bm1))
                 + c * bm_width bm1)%Z)).
    - assert (Hadd : forall f k l,
        sum_over (fun y => (f y + k)%Z) l = (sum_over f l + k * Z.of_nat (length l))%Z).
      { intros f k l. induction l as [|y l IH]; simpl; [lia|]. rewrite IH. lia. }
      rewrite Hadd, upto_length by lia. lia.
    - intros y Hy. apply upto_elem in Hy.
      rewrite (sum_over_ext (fun x => getGray bm2 x y)
                 (fun x => (getGray bm1 x y + c)%Z)).
      + assert (Hadd : forall f k l,
          sum_over (fun x => (f x + k)%Z) l = (sum_over f l + k * Z.of_nat (length l))%Z).
        { intros f k l. induction l as [|x l IH]; simpl; [lia|]. rewrite IH. lia. }
        rewrite Hadd, upto_length by lia. lia.
      + intros x Hx. apply upto_elem in Hx. by apply Hg. }
  split; [|done].
  unfold analyze_bitmap. cbn [fst snd]. by rewrite Hlap, Hsq, Hcnt.
Qed.

Lemma analyze_sharpness_shift_witness :
  (analyze_bitmap bm_ramp_brighter).2 = (analyze_bitmap bm_ramp).2 /\
  lapSum (analyze_loops bm_ramp_brighter) = lapSum (analyze_loops bm_ramp) /\
  sumGray (analyze_loops bm_ramp_brighter) = (sumGray (analyze_loops bm_ramp) + 5 * (3 * 3))%Z.
Proof.
  apply (analyze_sharpness_shift bm_ramp bm_ramp_brighter 5).
  - unfold rgba_bitmap. simpl. repeat split; try lia. repeat constructor; lia.
  - unfold rgba_bitmap. simpl. repeat split; try lia. repeat constructor; lia.
  - reflexivity.
  - reflexivity.
  - simpl; lia.
  - simpl; lia.
  - intros x y Hx Hy. simpl in Hx, Hy.
    assert (Hxs : x = 0%Z \/ x = 1%Z \/ x = 2%Z) by lia.
    assert (Hys : y = 0%Z \/ y = 1%Z \/ y = 2%Z) by lia.
    destruct Hxs as [->|[->| ->]], Hys as [->|[->| ->]]; reflexivity.
Defined.

(** * The aggregator on binary64 numbers *)

Lemma digits2_pos_bounds (m : positive) :
  (2 ^ (Zpos (SpecFloat.digits2_pos m) - 1) <= Zpos m < 2 ^ Zpos (SpecFloat.digits2_pos m))%Z.
Proof.
  induction m as [m IH|m IH|]; cbn [SpecFloat.digits2_pos].
  - rewrite Pos2Z.inj_succ.
    replace (Z.succ (Zpos (SpecFloat.digits2_pos m)) - 1)%Z
      with (Z.succ (Zpos (SpecFloat.digits2_pos m) - 1)) by lia.
    rewrite !Z.pow_succ_r by lia. lia.
  - rewrite Pos2Z.inj_succ.
    replace (Z.succ (Zpos (SpecFloat.digits2_pos m)) - 1)%Z
      with (Z.succ (Zpos (SpecFloat.digits2_pos m) - 1)) by lia.
    rewrite !Z.pow_succ_r by lia. lia.
  - simpl. lia.
Qed.

(** A finite binary64 number is zero or a mantissa below [2 ^ 53] times a
    power of two, with a full mantissa when it is not subnormal. *)
Lemma value_cases (y : PrimFloat.float) (x : Q) :
  Binary64.value y = Some x ->
  (exists s, FloatOps.Prim2SF y = SpecFloat.S754_zero s /\ x = 0) \/
  (exists s m e,
     FloatOps.Prim2SF y = SpecFloat.S754_finite s m e /\
     x == (if s then - inject_Z (Zpos m) else inject_Z (Zpos m)) * 2 ^ e /\
     (Zpos m < 2 ^ 53)%Z /\
     ((-1074 < e)%Z -> (2 ^ 52 <= Zpos m)%Z)).
Proof.
  unfold Binary64.value. intros H.
  pose proof (FloatAxioms.Prim2SF_valid y) as Hv.
  destruct (FloatOps.Prim2SF y) as [s| |  |s m e] eqn:E; try done.
  - left. exists s. split; [done|]. by injection H as <-.
  - right. exists s, m, e. split; [done|]. injection H as <-.
    split; [apply Qred_correct|].
    cbn [SpecFloat.valid_binary] in Hv. unfold SpecFloat.bounded in Hv.
    apply andb_prop in Hv as [Hc _]. unfold SpecFloat.canonical_mantissa in Hc.
    apply Z.eqb_eq in Hc. unfold SpecFloat.fexp, SpecFloat.emin in Hc.
    change FloatOps.prec with 53%Z in Hc. change FloatOps.emax with 1024%Z in Hc.
    pose proof (digits2_pos_bounds m) as [Hlo Hhi].
    set (d := Zpos (SpecFloat.digits2_pos m)) in *.
    assert (Hd : (0 < d)%Z) by (unfold d; lia).
    split.
    + assert (d <= 53)%Z by lia.
      eapply Z.lt_le_trans; [exact Hhi|]. apply Z.pow_le_mono_r; lia.
    + intros He. assert (d = 53%Z) by lia. subst d.
      replace (2 ^ 52)%Z with (2 ^ (Zpos (SpecFloat.digits2_pos m) - 1))%Z; [done|].
      by rewrite H.
Qed.

(** The comparison of the code against 2.5 is the comparison of the exact
    values. *)
Lemma SFltb_five_halves (y : PrimFloat.float) (x : Q) :
  Binary64.value y = Some x ->
  SpecFloat.SFltb (SpecFloat.S754_finite false 5629499534213120 (-51))
                  (FloatOps.Prim2SF y) = true <-> 5 # 2 < x.
Proof.
  intros H.
  destruct (value_cases y x H) as [(s & -> & ->)|(s & m & e & -> & Hx & Hm & Hfull)].
  - unfold SpecFloat.SFltb, SpecFloat.SFcompare. split; [done|]. intros Hlt. exfalso. lra.
  - unfold SpecFloat.SFltb, SpecFloat.SFcompare.
    assert (Hp : 0 < 2 ^ e) by (by apply Qpower_0_lt).
    assert (Hm0 : 0 < inject_Z (Zpos m)) by (change 0 with (inject_Z 0); by rewrite <- Zlt_Qlt).
    destruct s.
    + split; [done|]. intros Hlt. exfalso. rewrite Hx in Hlt. nra.
    + destruct (Z.compare_spec (-51) e) as [<-|He|He].
      * change (2 ^ (-51)) with (1 # 2251799813685248) in Hx.
        rewrite Hx. 
        fold (Pos.compare 5629499534213120 m).
        destruct (Pos.compare_spec 5629499534213120 m) as [<-|Hlt|Hlt].
        -- split; [done|]. intros Hc. exfalso. vm_compute in Hc. done.
        -- split; [intros _|done].
           assert (inject_Z 5629499534213121 <= inject_Z (Zpos m)) by (rewrite <- Zle_Qle; lia).
           change (inject_Z 5629499534213121) with 5629499534213121 in *. lra.
        -- split; [done|]. intros Hc. exfalso.
           assert (inject_Z (Zpos m) <= inject_Z 5629499534213119).
           { rewrite <- Zle_Qle. apply Pos2Z.pos_lt_pos in Hlt. clear - Hlt. lia. }
           change (inject_Z 5629499534213119) with 5629499534213119 in *. lra.
      * split; [intros _|done]. rewrite Hx.
        assert (Hfullm : inject_Z (2 ^ 52) <= inject_Z (Zpos m))
          by (rewrite <- Zle_Qle; apply Hfull; lia).
        change (inject_Z (2 ^ 52)) with 4503599627370496 in Hfullm.
        assert (Hpe : 2 ^ (-50) <= 2 ^ e) by (apply Qpower_le_compat_l; [lia|lra]).
        change (2 ^ (-50)) with (1 # 1125899906842624) in Hpe.
        nra.
      * split; [done|]. intros Hc. exfalso. rewrite Hx in Hc.
        assert (Hmm : inject_Z (Zpos m) <= inject_Z (2 ^ 53)) by (rewrite <- Zle_Qle; lia).
        change (inject_Z (2 ^ 53)) with 9007199254740992 in Hmm.
        assert (Hpe : 2 ^ e <= 2 ^ (-52)) by (apply Qpower_le_compat_l; [lia|lra]).
        change (2 ^ (-52)) with (1 # 4503599627370496) in Hpe.
        nra.
Qed.

Lemma notes_threshold (imgs : list ImageAnalysisResult) (x : Q) :
  Binary64.value (Binary64.avgSeverity imgs) = Some x ->
  (Binary64.notes64 imgs = note_damage <-> 5 # 2 < x) /\
  (Binary64.notes64 imgs = note_minor <-> x <= 5 # 2).
Proof.
  intros H. pose proof (SFltb_five_halves _ x H) as Hlt.
  unfold Binary64.notes64. rewrite FloatAxioms.ltb_spec.
  match goal with
  | |- context [SpecFloat.SFltb (FloatOps.Prim2SF ?c) _] =>
      change (FloatOps.Prim2SF c)
        with (SpecFloat.S754_finite false 5629499534213120 (-51))
  end.
  destruct (SpecFloat.SFltb _ _).
  - assert (5 # 2 < x) by (by apply Hlt).
    split; split; try done. intros; exfalso; lra.
  - assert (~ 5 # 2 < x) by (intros Hc; apply Hlt in Hc; done).
    split; split; try done. intros _. lra.
Qed.

(** The two [reduce] calls of the code are the sums of the formula. *)
Lemma sum64_fold {A} (f : A -> PrimFloat.float) (l : list A) (acc : PrimFloat.float) :
  fold_left (fun sum x => PrimFloat.add sum x) (map f l) acc =
  fold_left (fun sum i => PrimFloat.add sum (f i)) l acc.
Proof. revert acc. induction l as [|a l IH]; intros acc; simpl; [done|]. apply IH. Qed.

Lemma weightedMean64_code imgs : Binary64.avgSeverity imgs = Binary64.weightedMean64 imgs.
Proof.
  unfold Binary64.avgSeverity, Binary64.weightedMean64, Binary64.sum64,
    Binary64.weightedSum, Binary64.totalWeight.
  by rewrite !sum64_fold.
Qed.

(** [toFixed(1)] on a binary64 mean that is not negative. *)
Lemma avg_severity64_bracket imgs x :
  Binary64.value (Binary64.avgSeverity imgs) = Some x ->
  0 <= x ->
  exists n : Z,
    Binary64.avg_severity64 imgs = Some (inject_Z n / 10) /\
    x * 10 - (1 # 2) < inject_Z n /\ inject_Z n <= x * 10 + (1 # 2).
Proof.
  intros Hv Hx. unfold Binary64.avg_severity64, Binary64.toFixed64. rewrite Hv. cbn [option_map].
  destruct (toFixed1_bracket x Hx) as (n & Hn & Hlo & Hhi).
  exists n. by rewrite Hn.
Qed.

(** C7, as stated, fails twice.  On its example the weighted mean of the
    two representatives is (2 + 2.4) / 1.6 = 2.75, on binary64 numbers as
    well, and the code reports 2.8, not 2.5.  And the reported value is not
    always the weighted mean rounded to one decimal: for the
    representatives [{severity 0, quality 1}; {severity 2, quality 0.6}]
    the mean is 3/4, which rounds to 0.8, but on binary64 numbers the
    quotient is 0.74999999999999989 and the code reports 0.7. *)
Lemma avg_severity_example_not_2_5 :
  (Binary64.value (Binary64.avgSeverity example_reps) = Some (11 # 4) /\
   Binary64.avg_severity64 example_reps = Some (28 # 10) /\
   ~ 28 # 10 == 25 # 10) /\
  (weightedMean reps_three_quarters == 3 # 4 /\
   toFixed 1 (weightedMean reps_three_quarters) == 8 # 10 /\
   Binary64.value (Binary64.avgSeverity reps_three_quarters)
     = Some (6755399441055743 # 9007199254740992) /\
   Binary64.avg_severity64 reps_three_quarters = Some (7 # 10) /\
   ~ 7 # 10 == 8 # 10).
Proof.
  split.
  - split; [reflexivity|]. split; [reflexivity|discriminate].
  - split; [reflexivity|]. split; [reflexivity|]. split; [reflexivity|].
    split; [reflexivity|discriminate].
Qed.

(** C7, amended.  [avg_severity] is the quality-weighted mean as the code
    computes it on binary64 numbers (every product, both sums taken from
    the left, and the quotient are rounded to the nearest binary64 number),
    rounded to one decimal on its exact value, halves going up: when that
    mean is a number [x] that is not negative, the reported value is
    [n / 10] for the integer [n] with [10 x - 1/2 < n <= 10 x + 1/2].  For
    the representatives [{severity 2, quality 1}; {severity 4, quality 0.6}]
    the mean is 2.75 and the reported value is 2.8; for
    [{severity 0, quality 1}; {severity 2, quality 0.6}] the exact mean is
    3/4 and the reported value is 0.7.  In a response the mean is taken
    over the representatives of one area, a list that is never empty. *)
Theorem avg_severity_weighted_mean (imgs : list ImageAnalysisResult) (x : Q) :
  Binary64.value (Binary64.avgSeverity imgs) = Some x ->
  0 <= x ->
  Binary64.avgSeverity imgs = Binary64.weightedMean64 imgs /\
  (exists n : Z,
     Binary64.avg_severity64 imgs = Some (inject_Z n / 10) /\
     x * 10 - (1 # 2) < inject_Z n /\ inject_Z n <= x * 10 + (1 # 2)) /\
  (Binary64.value (Binary64.avgSeverity example_reps) = Some (11 # 4) /\
   Binary64.avg_severity64 example_reps = Some (28 # 10)) /\
  (weightedMean reps_three_quarters == 3 # 4 /\
   Binary64.value (Binary64.avgSeverity reps_three_quarters)
     = Some (6755399441055743 # 9007199254740992) /\
   Binary64.avg_severity64 reps_three_quarters = Some (7 # 10)) /\
  (forall w req imgs' resp ar,
     fair w -> images req = Some imgs' -> handler w req = Ok resp ->
     ar ∈ areas (body resp) ->
     exists reps,
       reps <> [] /\
       Forall (fun r => r ∈ representativesOf w imgs' /\ area r = ar_area ar) reps /\
       damage_confirmed ar = damage_confirmed (areaResult (req_loss_type req) (ar_area ar, reps)) /\
       representative_images ar = take 3 (map url reps)).
Proof.
  intros Hv Hx.
  split; [apply weightedMean64_code|].
  split; [by apply avg_severity64_bracket|].
  split; [split; reflexivity|].
  split; [repeat split; reflexivity|].
  intros w req imgs' resp ar Hfair Himgs Hresp Har.
  destruct (response_areas w req imgs' resp ar Hfair Himgs Hresp Har)
    as (reps & Heq & Hreps & Hall).
  exists reps. split; [done|]. split.
  - eapply Forall_impl; [exact Hall|]. by intros r (? & ? & _).
  - by rewrite Heq at 1 3.
Qed.

Lemma avg_severity_weighted_mean_witness :
  Binary64.avgSeverity example_reps = Binary64.weightedMean64 example_reps /\
  (exists n : Z,
     Binary64.avg_severity64 example_reps = Some (inject_Z n / 10) /\
     (11 # 4) * 10 - (1 # 2) < inject_Z n /\ inject_Z n <= (11 # 4) * 10 + (1 # 2)) /\
  (Binary64.value (Binary64.avgSeverity example_reps) = Some (11 # 4) /\
   Binary64.avg_severity64 example_reps = Some (28 # 10)) /\
  (weightedMean reps_three_quarters == 3 # 4 /\
   Binary64.value (Binary64.avgSeverity reps_three_quarters)
     = Some (6755399441055743 # 9007199254740992) /\
   Binary64.avg_severity64 reps_three_quarters = Some (7 # 10)) /\
  (forall w req imgs' resp ar,
     fair w -> images req = Some imgs' -> handler w req = Ok resp ->
     ar ∈ areas (body resp) ->
     exists reps,
       reps <> [] /\
       Forall (fun r => r ∈ representativesOf w imgs' /\ area r = ar_area ar) reps /\
       damage_confirmed ar = damage_confirmed (areaResult (req_loss_type req) (ar_area ar, reps)) /\
       representative_images ar = take 3 (map url reps)).
Proof.
  apply (avg_severity_weighted_mean example_reps (11 # 4)).
  - reflexivity.
  - discriminate.
Defined.

(** X19. The note of an area is decided by the binary64 mean before it is
    rounded to one decimal: it is the damage note exactly when that mean
    is above 2.5.  A reported [avg_severity] above 2.5 therefore comes with
    the damage note and one under 2.5 with the other note, but a reported
    2.5 can come with either: a mean of about 2.529 is reported as 2.5
    with the damage note, a mean of exactly 2.5 with the other one.  The
    note does not follow the exact mean either: six representatives whose
    exact weighted mean is 5/2 have the binary64 mean 2.5000000000000004
    and get the damage note. *)
Theorem notes_follow_unrounded_mean (imgs : list ImageAnalysisResult) (x : Q) :
  Binary64.value (Binary64.avgSeverity imgs) = Some x ->
  0 <= x ->
  (Binary64.notes64 imgs = note_damage <-> 5 # 2 < x) /\
  (Binary64.notes64 imgs = note_minor <-> x <= 5 # 2) /\
  (exists v,
     Binary64.avg_severity64 imgs = Some v /\
     (5 # 2 < v -> Binary64.notes64 imgs = note_damage) /\
     (v < 5 # 2 -> Binary64.notes64 imgs = note_minor)) /\
  (Binary64.avg_severity64 reps_just_above = Some (25 # 10) /\
   Binary64.notes64 reps_just_above = note_damage /\
   Binary64.avg_severity64 reps_exactly = Some (25 # 10) /\
   Binary64.notes64 reps_exactly = note_minor) /\
  (weightedMean reps_five_halves == 5 # 2 /\
   Binary64.value (Binary64.avgSeverity reps_five_halves)
     = Some (5629499534213121 # 2251799813685248) /\
   Binary64.avg_severity64 reps_five_halves = Some (25 # 10) /\
   Binary64.notes64 reps_five_halves = note_damage).
Proof.
  intros Hv Hx.
  destruct (notes_threshold imgs x Hv) as [Hd Hm].
  split; [done|]. split; [done|]. split; [|split; repeat split; reflexivity].
  destruct (avg_severity64_bracket imgs x Hv Hx) as (n & Hn & Hlo & Hhi).
  exists (inject_Z n / 10). split; [done|].
  unfold Qdiv. change (/ 10) with (1 # 10). split.
  - intros Hgt. apply Hd.
    assert (Hn25 : 25 < inject_Z n) by lra.
    change 25 with (inject_Z 25) in Hn25. rewrite <- Zlt_Qlt in Hn25.
    assert (Hn26 : 26 <= inject_Z n).
    { change 26 with (inject_Z 26). rewrite <- Zle_Qle. lia. }
    lra.
  - intros Hlt. apply Hm.
    assert (Hn25 : inject_Z n < 25) by lra.
    change 25 with (inject_Z 25) in Hn25. rewrite <- Zlt_Qlt in Hn25.
    assert (Hn24 : inject_Z n <= 24).
    { change 24 with (inject_Z 24). rewrite <- Zle_Qle. lia. }
    lra.
Qed.

Lemma notes_follow_unrounded_mean_witness :
  (Binary64.notes64 example_reps = note_damage <-> 5 # 2 < 11 # 4) /\
  (Binary64.notes64 example_reps = note_minor <-> 11 # 4 <= 5 # 2) /\
  (exists v,
     Binary64.avg_severity64 example_reps = Some v /\
     (5 # 2 < v -> Binary64.notes64 example_reps = note_damage) /\
     (v < 5 # 2 -> Binary64.notes64 example_reps = note_minor)) /\
  (Binary64.avg_severity64 reps_just_above = Some (25 # 10) /\
   Binary64.notes64 reps_just_above = note_damage /\
   Binary64.avg_severity64 reps_exactly = Some (25 # 10) /\
   Binary64.notes64 reps_exactly = note_minor) /\
  (weightedMean reps_five_halves == 5 # 2 /\
   Binary64.value (Binary64.avgSeverity reps_five_halves)
     = Some (5629499534213121 # 2251799813685248) /\
   Binary64.avg_severity64 reps_five_halves = Some (25 # 10) /\
   Binary64.notes64 reps_five_halves = note_damage).
Proof.
  apply (notes_follow_unrounded_mean example_reps (11 # 4)).
  - reflexivity.
  - discriminate.
Defined.

(** The overall severity goes the same way: over the two representatives
    of exact mean 3/4 the code reports 0.7, exact arithmetic 0.8. *)
Example overall_severity_binary64 :
  Binary64.overallSeverity reps_three_quarters = Some (7 # 10) /\
  overallSeverityOf reps_three_quarters == 8 # 10 /\
  Binary64.overallSeverity [] = Some 0.
Proof. repeat split; reflexivity. Qed.

(** * The digest and the area ["unknown"] *)

(** ** The digest SHA-1 *)

(** The digests of the test messages of FIPS 180 ([abc], the empty
    message, and the message of 56 characters that takes two blocks). *)
Lemma sha1_test_vectors :
  sha1 (bytes_of_string "abc") = "a9993e364706816aba3e25717850c26c9cd0d89d"%string /\
  sha1 [] = "da39a3ee5e6b4b0d3255bfef95601890afd80709"%string /\
  sha1 (bytes_of_string "abcdbcdecdefdefgefghfghighijhijkijkljklmklmnlmnomnopnopq")
    = "84983e441c3bd26ebaae4aa1f95129e5e54670f1"%string.
Proof. repeat split; vm_compute; reflexivity. Qed.

Lemma hex_word_length x : String.length (hex_word x) = 8%nat.
Proof. reflexivity. Qed.

Lemma string_app_length (a b : string) :
  String.length (a +:+ b) = (String.length a + String.length b)%nat.
Proof. induction a as [|c a IH]; simpl; [done|]. by rewrite IH. Qed.

(** A digest has 40 characters, so that the digests of a world of
    [world_sha1] have the length that the fingerprints rely on. *)
Lemma sha1_length buffer : String.length (sha1 buffer) = 40%nat.
Proof.
  unfold sha1.
  destruct (sha1_blocks _ _ _) as [[[[h0 h1] h2] h3] h4].
  by rewrite !string_app_length, !hex_word_length.
Qed.

Lemma world_sha1_digest_length bufs labels b d :
  sha1_hex (world_sha1 bufs labels) b = Some d -> String.length d = 40%nat.
Proof. intros [= <-]. apply sha1_length. Qed.

(** ** The area ["unknown"] *)

(** Every record is in a cluster, and the cluster has a representative. *)
Lemma cluster_of_record images x :
  x ∈ images ->
  exists g r, g ∈ groupByHash images /\ x ∈ g /\ representative g = Some r /\ r ∈ g /\
              r ∈ bestImagesOf (groupByHash images).
Proof.
  intros Hx. rewrite <- (groupByHash_partition images) in Hx.
  apply list_elem_of_In, in_concat in Hx as (g & Hg & Hxg).
  apply list_elem_of_In in Hg. apply list_elem_of_In in Hxg.
  destruct (representative_is_Some g) as (r & Hr); [by eapply groupByHash_nonempty|].
  exists g, r. split; [done|]. split; [done|]. split; [done|].
  split; [by apply representative_member|].
  unfold bestImagesOf. apply list_elem_of_omap. by exists g.
Qed.

(** C10, as stated, fails.  The two buffers of [buffers_close] have SHA-1
    digests whose first 16 characters differ at three places only, so the
    second image, kept with the area ["unknown"], joins the cluster of the
    roof image before it; that image has the same quality and is the
    representative, and the response has one cluster and no entry named
    ["unknown"]. *)
Lemma unknown_area_absorbed :
  sha1 (buffers_close 0) = "b7a72e7837e20073930e97549b8864135375b08c"%string /\
  sha1 (buffers_close 1) = "a7a02e7897e20073839db5142da6da9ce80da626"%string /\
  hammingDistance "b7a72e7837e20073" "a7a02e7897e20073" = 3%nat /\
  classifyDamage (labels_roof_then_hail 1) = Keep "unknown"%string 3 1 /\
  exists resp,
    handler (world_sha1 buffers_close labels_roof_then_hail) request_two = Ok resp /\
    src_analyzed (source_images (body resp)) = 2%nat /\
    clusters (source_images (body resp)) = 1%nat /\
    map ar_area (areas (body resp)) = ["roof"%string] /\
    ~ exists ar, ar ∈ areas (body resp) /\ ar_area ar = "unknown"%string.
Proof.
  split; [vm_compute; reflexivity|]. split; [vm_compute; reflexivity|].
  split; [reflexivity|]. split; [reflexivity|].
  eexists. split; [vm_compute; reflexivity|].
  split; [reflexivity|]. split; [reflexivity|]. split; [reflexivity|].
  intros (ar & Har & Hname).
  apply list_elem_of_singleton in Har. subst ar. discriminate.
Qed.

(** C10, amended. An image whose labels carry damage evidence but no area
    indicator is kept by the classifier with the area ["unknown"]; once its
    hashing succeeds its record is in a cluster, and the response has an
    entry for the area of the representative of that cluster.  So there is
    an entry named ["unknown"] whenever that representative, the record
    itself or another record of its cluster, carries ["unknown"]; and a
    response has an entry named ["unknown"] exactly when the
    representative of some cluster carries that area. *)
Theorem unknown_area_flows (w : World) (req : Request) (imgs : list string)
    (pos : nat) (u : string) (buffer : Buffer) (Labels : option (list Label))
    (d : string) :
  fair w ->
  images req = Some imgs ->
  imgs !! pos = Some u ->
  fetchWithRetry w pos u = Ok buffer ->
  detectLabels w pos buffer = Some Labels ->
  (forall L, L ∈ default [] Labels -> passes L = true ->
     areaIndicator (label_name L) = None) ->
  (exists L, L ∈ default [] Labels /\ passes L = true /\
             hasDamageKeyword (label_name L) = true) ->
  sha1_hex w buffer = Some d ->
  exists sev q resp g r,
    classifyDamage (default [] Labels) = Keep "unknown"%string sev q /\
    handler w req = Ok resp /\
    g ∈ groupByHash (photoData (run_phases w imgs)) /\
    mkImage u "unknown" sev q (String.substring 0 16 d) ∈ g /\
    representative g = Some r /\ r ∈ g /\
    (exists ar, ar ∈ areas (body resp) /\ ar_area ar = area r) /\
    (area r = "unknown"%string ->
     exists ar, ar ∈ areas (body resp) /\ ar_area ar = "unknown"%string) /\
    ((exists ar, ar ∈ areas (body resp) /\ ar_area ar = "unknown"%string) <->
     (exists r', r' ∈ representativesOf w imgs /\ area r' = "unknown"%string)).
Proof.
  intros Hfair Himgs Hu Hfetch Hdetect Hnone Hdmg Hsha.
  destruct (classify_unknown _ Hnone Hdmg) as (sev & q & Hcls).
  destruct (handler_run_phases w req imgs Himgs)
    as (resp & Hresp & _ & _ & _ & _ & _ & Hareas).
  destruct (run_phases_spec w imgs Hfair) as (_ & _ & Hperm).
  assert (Hme : mkImage u "unknown" sev q (String.substring 0 16 d)
                ∈ photoData (run_phases w imgs)).
  { rewrite Hperm. apply list_elem_of_omap. exists (pos, u). split.
    - apply list_elem_of_lookup. exists pos. by rewrite list_lookup_imap, Hu.
    - unfold outcome, fetched. simpl. rewrite Hfetch.
      unfold outcome_of_fetched. simpl. by rewrite Hdetect, Hcls, Hsha. }
  destruct (cluster_of_record _ _ Hme) as (g & r & Hg & Hmeg & Hr & Hrg & Hbest).
  assert (Hentry : forall r', r' ∈ representativesOf w imgs ->
            exists ar, ar ∈ areas (body resp) /\ ar_area ar = area r').
  { intros r' Hr'. rewrite Hareas.
    by apply (finalAreas_of_representative (req_loss_type req)). }
  exists sev, q, resp, g, r.
  split; [done|]. split; [done|]. split; [done|]. split; [done|].
  split; [done|]. split; [done|].
  split; [by apply Hentry|]. split.
  - intros Harea. rewrite <- Harea. by apply Hentry.
  - split.
    + intros (ar & Har & Hname).
      destruct (response_areas w req imgs resp ar Hfair Himgs Hresp Har)
        as (reps & _ & Hne & Hall).
      destruct reps as [|r' reps]; [done|].
      apply Forall_cons in Hall as [(Hr' & Harea & _) _].
      exists r'. split; [done|]. by rewrite Harea.
    + intros (r' & Hr' & Harea). rewrite <- Harea. by apply Hentry.
Qed.

Lemma unknown_area_flows_witness :
  exists sev q resp g r,
    classifyDamage (default [] (Some (labels_roof_then_hail 1)))
      = Keep "unknown"%string sev q /\
    handler (world_sha1 buffer_at labels_roof_then_hail) request_two = Ok resp /\
    g ∈ groupByHash
          (photoData (run_phases (world_sha1 buffer_at labels_roof_then_hail)
                                 ["u0"; "u1"]%string)) /\
    mkImage "u1" "unknown" sev q
            (String.substring 0 16 (sha1 (buffer_at 1))) ∈ g /\
    representative g = Some r /\ r ∈ g /\
    (exists ar, ar ∈ areas (body resp) /\ ar_area ar = area r) /\
    (area r = "unknown"%string ->
     exists ar, ar ∈ areas (body resp) /\ ar_area ar = "unknown"%string) /\
    ((exists ar, ar ∈ areas (body resp) /\ ar_area ar = "unknown"%string) <->
     (exists r', r' ∈ representativesOf (world_sha1 buffer_at labels_roof_then_hail)
                        ["u0"; "u1"]%string /\
                 area r' = "unknown"%string)).
Proof.
  apply (unknown_area_flows (world_sha1 buffer_at labels_roof_then_hail)
           request_two ["u0"; "u1"]%string 1 "u1"%string (buffer_at 1)
           (Some (labels_roof_then_hail 1)) (sha1 (buffer_at 1))).
  - intros l. reflexivity.
  - reflexivity.
  - reflexivity.
  - reflexivity.
  - reflexivity.
  - intros L HL Hp. apply list_elem_of_singleton in HL. subst L. reflexivity.
  - eexists. split; [by apply list_elem_of_singleton|]. split; reflexivity.
  - reflexivity.
Defined.

(** With the digests of SHA-1 the two images of [world_sha1 buffer_at] are
    far apart, each is its own cluster, and the response has the entries
    ["roof"] and ["unknown"]. *)
Example unknown_area_entry :
  String.substring 0 16 (sha1 (buffer_at 0)) = "5ba93c9db0cff93f"%string /\
  String.substring 0 16 (sha1 (buffer_at 1)) = "1489f923c4dca729"%string /\
  hammingDistance "5ba93c9db0cff93f" "1489f923c4dca729" = 15%nat /\
  exists resp,
    handler (world_sha1 buffer_at labels_roof_then_hail) request_two = Ok resp /\
    clusters (source_images (body resp)) = 2%nat /\
    map ar_area (areas (body resp)) = ["roof"; "unknown"]%string.
Proof.
  split; [vm_compute; reflexivity|]. split; [vm_compute; reflexivity|].
  split; [reflexivity|].
  eexists. split; [vm_compute; reflexivity|]. split; reflexivity.
Qed.
